(** * fundamentus-scraper: table selection, table parsing and the run loop

    A shallow embedding of [index.js]:
    - [extractTableFromPage]'s page callback (which table is chosen),
    - [parseTableHtmlToArray] (regular-expression scanning of rows and
      cells, markup stripping, whitespace normalisation),
    - the main asynchronous function (button loop, exits, browser release),
    - the check of the environment variables and [writeToGoogleSheet].

    JavaScript strings are sequences of UTF-16 code units; regular
    expressions are kept as syntax trees and run by a backtracking matcher
    that follows the ECMAScript pattern semantics for the constructs the
    program uses. *)

From Equations Require Import Equations.
From Stdlib Require Import String Ascii List Bool Arith NArith Lia Sorted.
Import ListNotations.

Set Implicit Arguments.

(** ** Strings *)

(** A UTF-16 code unit. *)
Definition char := N.

(** A JavaScript string. *)
Definition jsstring := list char.

(** The code units of an ASCII literal. *)
Definition js (s : string) : jsstring :=
  map N_of_ascii (list_ascii_of_string s).

Definition ch_lt : char := 60%N.     (* '<' *)
Definition ch_gt : char := 62%N.     (* '>' *)
Definition ch_sp : char := 32%N.     (* ' ' *)

(** [\s] of a pattern, which is also what [String.prototype.trim] strips:
    WhiteSpace and LineTerminator of ECMAScript. *)
Definition is_space (c : char) : bool :=
  ((9 <=? c) && (c <=? 13) || (c =? 32) || (c =? 160) || (c =? 5760)
   || (8192 <=? c) && (c <=? 8202) || (c =? 8232) || (c =? 8233)
   || (c =? 8239) || (c =? 8287) || (c =? 12288) || (c =? 65279))%N.

(** Canonicalize of the pattern semantics for a pattern without the [u]
    flag: under [i] a code unit is compared through its upper-case form. A
    code unit of 128 or more is never mapped to one below 128, so the
    letters [a]-[z] are the only code units that reach [A]-[Z]; what
    happens to letters outside ASCII does not matter to the literals of
    this program and they are left as they are. *)
Definition canonicalize (ignoreCase : bool) (c : char) : char :=
  if ignoreCase && (97 <=? c)%N && (c <=? 122)%N then (c - 32)%N else c.

(** ** Regular expressions *)

Inductive regex : Type :=
| Eps                                  (* the empty pattern *)
| Lit (c : char)                       (* a pattern character *)
| Class (member : char -> bool)        (* a class: [[^>]], [[\s\S]], [\s] *)
| Seq (r1 r2 : regex)                  (* r1 r2 *)
| Alt (r1 r2 : regex)                  (* r1|r2 *)
| Star (greedy : bool) (r : regex)     (* r* and r*? *)
| Group (n : nat) (r : regex)          (* the n-th capturing group *)
| Backref (n : nat).                   (* \n *)

(** [r+] *)
Definition Plus (r : regex) : regex := Seq r (Star true r).

(** A run of pattern characters. *)
Fixpoint Lits (w : jsstring) : regex :=
  match w with
  | [] => Eps
  | c :: w' => Seq (Lit c) (Lits w')
  end.

(** The matcher state: what is left of the input, and the captures. *)
Record mstate : Type := MState {
  rest : jsstring;
  caps : list (nat * jsstring)
}.

(** The text the [n]-th group captured, if it took part in the match. *)
Fixpoint capture (n : nat) (cs : list (nat * jsstring)) : option jsstring :=
  match cs with
  | [] => None
  | (k, w) :: cs' => if Nat.eqb k n then Some w else capture n cs'
  end.

(** Whether [w] is a prefix of [s], code units compared through
    [canonicalize]; the rest of [s] when it is. *)
Fixpoint strip_prefix (ic : bool) (w s : jsstring) : option jsstring :=
  match w, s with
  | [], _ => Some s
  | _ :: _, [] => None
  | a :: w', b :: s' =>
      if (canonicalize ic a =? canonicalize ic b)%N
      then strip_prefix ic w' s' else None
  end.

(** A continuation: the rest of the pattern, and the rest of the search. *)
Definition cont := mstate -> option mstate.

(** The iterations of [r*] / [r*?] (RepeatMatcher): one more [r], refused
    when it consumed nothing, or the continuation; the greedy form tries
    the iteration first, the lazy form the continuation. Every iteration
    consumes at least one code unit, so there are no more iterations than
    code units left: [fuel] starts at that number, and more of it changes
    nothing ([repeat_matcher_fuel] below). *)
Fixpoint repeat_matcher (step : cont -> cont) (greedy : bool) (k : cont)
    (fuel : nat) (st : mstate) : option mstate :=
  match fuel with
  | 0 => k st
  | S fuel' =>
      let again :=
        step (fun st' =>
                if length (rest st') <? length (rest st)
                then repeat_matcher step greedy k fuel' st' else None) st in
      if greedy then
        match again with Some r => Some r | None => k st end
      else
        match k st with Some r => Some r | None => again end
  end.

(** The backtracking matcher, in continuation-passing style as in the
    ECMAScript specification: [matcher ic r k st] matches [r] at the head
    of [rest st] and hands the state after it to [k]; [None] is failure,
    on which the caller backtracks. The classes of the program ([[^>]],
    [[\s\S]], [\s]) hold a code unit together with its other letter case,
    so that [ic] does not matter to them, and no group of the program is
    under a star, so that no capture is ever reset. *)
Fixpoint matcher (ic : bool) (r : regex) (k : cont) (st : mstate)
    : option mstate :=
  match r with
  | Eps => k st
  | Lit c =>
      match rest st with
      | x :: xs =>
          if (canonicalize ic x =? canonicalize ic c)%N
          then k (MState xs (caps st)) else None
      | [] => None
      end
  | Class member =>
      match rest st with
      | x :: xs => if member x then k (MState xs (caps st)) else None
      | [] => None
      end
  | Seq r1 r2 => matcher ic r1 (matcher ic r2 k) st
  | Alt r1 r2 =>
      match matcher ic r1 k st with
      | Some res => Some res
      | None => matcher ic r2 k st
      end
  | Star greedy r' =>
      repeat_matcher (matcher ic r') greedy k (length (rest st)) st
  | Group n r' =>
      matcher ic r'
        (fun st' =>
           let taken := firstn (length (rest st) - length (rest st')) (rest st) in
           k (MState (rest st') ((n, taken) :: caps st')))
        st
  | Backref n =>
      match capture n (caps st) with
      | None => k st
      | Some w =>
          match strip_prefix ic w (rest st) with
          | Some s' => k (MState s' (caps st))
          | None => None
          end
      end
  end.

(** A continuation is only ever entered on a suffix of the input the
    matcher started with, so a match ends where it starts or later: the
    loops below end for that reason. *)
Definition suffix_of (t s : jsstring) : Prop := exists p, s = p ++ t.

Lemma suffix_of_refl s : suffix_of s s.
Proof. exists []; reflexivity. Qed.

Lemma suffix_of_trans a b c : suffix_of a b -> suffix_of b c -> suffix_of a c.
Proof.
  intros (p & ->) (q & ->). exists (q ++ p). apply app_assoc.
Qed.

Lemma suffix_of_length t s : suffix_of t s -> length t <= length s.
Proof. intros (p & ->). rewrite length_app. lia. Qed.

Lemma suffix_of_skipn t s :
  suffix_of t s -> t = skipn (length s - length t) s.
Proof.
  intros (p & ->). rewrite length_app.
  rewrite Nat.add_sub, skipn_app, skipn_all, Nat.sub_diag. reflexivity.
Qed.

Lemma strip_prefix_suffix ic w s s' :
  strip_prefix ic w s = Some s' -> suffix_of s' s.
Proof.
  revert s; induction w as [|a w IH]; intros [|b s] H; simpl in H;
    try discriminate.
  - inversion H; apply suffix_of_refl.
  - inversion H; apply suffix_of_refl.
  - destruct (_ =? _)%N; [|discriminate]. apply IH in H.
    destruct H as (p & ->). exists (b :: p); reflexivity.
Qed.

Lemma strip_prefix_length ic w s s' :
  strip_prefix ic w s = Some s' -> length s = length w + length s'.
Proof.
  revert s; induction w as [|a w IH]; intros [|b s] H; simpl in H;
    try discriminate.
  - inversion H; reflexivity.
  - inversion H; reflexivity.
  - destruct (_ =? _)%N; [|discriminate]. apply IH in H. simpl; lia.
Qed.

Lemma repeat_matcher_suffix (step : cont -> cont) greedy :
  (forall k st res, step k st = Some res ->
     exists st', suffix_of (rest st') (rest st) /\ k st' = Some res) ->
  forall fuel k st res,
    repeat_matcher step greedy k fuel st = Some res ->
    exists st', suffix_of (rest st') (rest st) /\ k st' = Some res.
Proof.
  intros Hstep fuel; induction fuel as [|fuel IH]; intros k st res H;
    cbn [repeat_matcher] in H.
  - exists st; split; [apply suffix_of_refl | assumption].
  - assert (Hagain :
      step (fun st' => if length (rest st') <? length (rest st)
                       then repeat_matcher step greedy k fuel st' else None) st
        = Some res ->
      exists st', suffix_of (rest st') (rest st) /\ k st' = Some res).
    { intros Hs. apply Hstep in Hs. destruct Hs as (st1 & Hle & Hk).
      destruct (length (rest st1) <? length (rest st)) eqn:E; [|discriminate].
      apply IH in Hk. destruct Hk as (st2 & Hle2 & Hk2).
      exists st2; split; [eapply suffix_of_trans; eauto | assumption]. }
    destruct greedy.
    + destruct (step _ st) as [r|] eqn:E.
      * inversion H; subst. apply Hagain; reflexivity.
      * exists st; split; [apply suffix_of_refl | assumption].
    + destruct (k st) as [r|] eqn:E.
      * inversion H; subst. exists st; split; [apply suffix_of_refl | assumption].
      * apply Hagain; assumption.
Qed.

Lemma matcher_suffix ic r :
  forall k st res, matcher ic r k st = Some res ->
    exists st', suffix_of (rest st') (rest st) /\ k st' = Some res.
Proof.
  induction r as [|c|member|r1 IH1 r2 IH2|r1 IH1 r2 IH2|g r IH|n r IH|n];
    intros k st res H; cbn [matcher] in H.
  - exists st; split; [apply suffix_of_refl | assumption].
  - destruct (rest st) as [|x xs] eqn:E; [discriminate|].
    destruct (_ =? _)%N; [|discriminate].
    eexists; split; [|exact H]. exists [x]; reflexivity.
  - destruct (rest st) as [|x xs] eqn:E; [discriminate|].
    destruct (member x); [|discriminate].
    eexists; split; [|exact H]. exists [x]; reflexivity.
  - apply IH1 in H. destruct H as (st1 & Hle1 & H).
    apply IH2 in H. destruct H as (st2 & Hle2 & H).
    exists st2; split; [eapply suffix_of_trans; eauto | assumption].
  - destruct (matcher ic r1 k st) eqn:E.
    + inversion H; subst. eapply IH1; eauto.
    + eapply IH2; eauto.
  - eapply repeat_matcher_suffix; eauto.
  - apply IH in H. destruct H as (st1 & Hle & H).
    eexists; split; [|exact H]. exact Hle.
  - destruct (capture n (caps st)) as [w|].
    + destruct (strip_prefix ic w (rest st)) as [s'|] eqn:E; [|discriminate].
      apply strip_prefix_suffix in E.
      eexists; split; [|exact H]. exact E.
    + exists st; split; [apply suffix_of_refl | assumption].
Qed.

Lemma matcher_rest_le ic r k st res :
  matcher ic r k st = Some res ->
  exists st', length (rest st') <= length (rest st) /\ k st' = Some res.
Proof.
  intros H. apply matcher_suffix in H. destruct H as (st' & Hs & H).
  exists st'; split; [apply suffix_of_length; assumption | assumption].
Qed.

(** ** RegExp objects and [exec] *)

(** A RegExp object with the [g] flag: its pattern and its [i] flag. Its
    [lastIndex] is threaded through the calls. *)
Record regexp : Type := RegExp {
  source : regex;
  ignoreCase : bool
}.

(** The array [exec] returns: [index], the matched text (element 0), the
    captured groups, and where the match ends. *)
Record match_result : Type := MatchResult {
  index : nat;
  matched : jsstring;
  groups : list (nat * jsstring);
  endIndex : nat
}.

(** Element [n] of a match, and [m[n] || ''] . *)
Definition group_or_empty (n : nat) (m : match_result) : jsstring :=
  match capture n (groups m) with Some w => w | None => [] end.

(** The match at the first position from [idx] on where the pattern
    matches; [suf] is the input from [idx]. *)
Fixpoint search (re : regexp) (idx : nat) (suf : jsstring)
    : option match_result :=
  match matcher (ignoreCase re) (source re) Some (MState suf []) with
  | Some st =>
      let n := length suf - length (rest st) in
      Some (MatchResult idx (firstn n suf) (caps st) (idx + n))
  | None =>
      match suf with
      | [] => None
      | _ :: suf' => search re (S idx) suf'
      end
  end.

(** RegExpBuiltinExec for a global pattern: the result, and the new
    [lastIndex] (the end of the match, or 0 after a failure). *)
Definition exec (re : regexp) (s : jsstring) (lastIndex : nat)
    : option match_result * nat :=
  if length s <? lastIndex then (None, 0)
  else
    match search re lastIndex (skipn lastIndex s) with
    | Some m => (Some m, endIndex m)
    | None => (None, 0)
    end.

Lemma search_bounds re : forall suf idx m,
  search re idx suf = Some m ->
  idx <= index m /\ index m <= endIndex m /\ endIndex m <= idx + length suf
  /\ matched m
     = firstn (endIndex m - index m) (skipn (index m - idx) suf).
Proof.
  assert (Hhere : forall suf idx st m,
    matcher (ignoreCase re) (source re) Some (MState suf []) = Some st ->
    Some (MatchResult idx (firstn (length suf - length (rest st)) suf)
            (caps st) (idx + (length suf - length (rest st)))) = Some m ->
    idx <= index m /\ index m <= endIndex m /\ endIndex m <= idx + length suf
    /\ matched m
       = firstn (endIndex m - index m) (skipn (index m - idx) suf)).
  { intros suf idx st m E H.
    apply matcher_rest_le in E. destruct E as (st' & Hle & E).
    inversion E; subst st'; clear E. cbn [rest] in Hle.
    inversion H; subst; clear H. cbn [index endIndex matched].
    rewrite Nat.sub_diag. cbn [skipn].
    repeat split; try lia. f_equal; lia. }
  induction suf as [|c suf IH]; intros idx m H; cbn [search] in H.
  - destruct (matcher _ _ _ _) as [st|] eqn:E; [|discriminate].
    eapply Hhere; eauto.
  - destruct (matcher _ _ _ _) as [st|] eqn:E.
    + eapply Hhere; eauto.
    + apply IH in H. destruct H as (H1 & H2 & H3 & H4).
      cbn [length]. repeat split; try lia.
      rewrite H4. replace (index m - idx) with (S (index m - S idx)) by lia.
      reflexivity.
Qed.

Lemma exec_bounds re s lastIndex m li :
  exec re s lastIndex = (Some m, li) ->
  lastIndex <= index m /\ index m <= li /\ li <= length s /\ li = endIndex m
  /\ matched m = firstn (li - index m) (skipn (index m) s).
Proof.
  unfold exec. destruct (length s <? lastIndex) eqn:E; [discriminate|].
  apply Nat.ltb_ge in E.
  destruct (search _ _ _) as [m'|] eqn:Es; [|discriminate].
  intros H; inversion H; subst; clear H.
  apply search_bounds in Es. destruct Es as (H1 & H2 & H3 & H4).
  rewrite length_skipn in H3.
  repeat split; try lia.
  rewrite H4, skipn_skipn. do 2 f_equal. lia.
Qed.

(** ** Loops over the matches of a global pattern *)

(** A value together with the equation that it is this value, for the
    termination proofs of the loops. *)
Definition inspect {A} (a : A) : {b : A | a = b} := exist _ a eq_refl.

Section Loop.
Context {A : Type} (re : regexp) (s : jsstring)
        (body : match_result -> A -> option A).

(** [while ((m = re.exec(s)) !== null) body], from [lastIndex], with the
    loop's variables in [acc]. [exec] leaves [lastIndex] at the end of the
    match, so after an empty match at [lastIndex] the next call finds the
    same match again and the loop never ends: that is [None], as is a
    body that does not end. *)
Equations? while_exec (lastIndex : nat) (acc : A) : option A
    by wf (length s + 1 - lastIndex) lt :=
  while_exec lastIndex acc with inspect (exec re s lastIndex) => {
    | exist _ (None, _) _ => Some acc
    | exist _ (Some m, li) Heq with inspect (lastIndex <? li) => {
        | exist _ false _ => None
        | exist _ true Hlt with body m acc => {
            | None => None
            | Some acc' => while_exec li acc' } } }.
Proof.
  apply exec_bounds in Heq. apply Nat.ltb_lt in Hlt. lia.
Qed.
End Loop.

(** The matches [String.prototype.replace] collects for a global pattern:
    [exec] from index 0 until it fails, stepping [lastIndex] over an empty
    match. *)
Equations? replace_matches (re : regexp) (s : jsstring) (lastIndex : nat)
    : list match_result by wf (length s + 1 - lastIndex) lt :=
  replace_matches re s lastIndex with inspect (exec re s lastIndex) => {
    | exist _ (None, _) _ => []
    | exist _ (Some m, li) Heq =>
        m :: replace_matches re s
               (match matched m with [] => S li | _ :: _ => li end) }.
Proof.
  apply exec_bounds in Heq. destruct Heq as (H1 & H2 & H3 & H4 & H5).
  destruct (matched m) eqn:E; [lia|].
  assert (index m <> li); [|lia].
  intros Hx. rewrite Hx, Nat.sub_diag in H5. discriminate.
Qed.

(** The string [replace] builds from the collected matches: the text
    between two matches is kept and each match gives way to [repl] (a
    replacement text without [$]). *)
Fixpoint substitute (s repl : jsstring) (results : list match_result)
    (nextSourcePosition : nat) : jsstring :=
  match results with
  | [] => skipn nextSourcePosition s
  | m :: results' =>
      if nextSourcePosition <=? index m then
        firstn (index m - nextSourcePosition) (skipn nextSourcePosition s)
        ++ repl
        ++ substitute s repl results' (index m + length (matched m))
      else substitute s repl results' nextSourcePosition
  end.

(** [s.replace(re, repl)] for a global [re]. *)
Definition replace (re : regexp) (repl s : jsstring) : jsstring :=
  substitute s repl (replace_matches re s 0) 0.

(** [s] without its leading whitespace. *)
Fixpoint drop_space (s : jsstring) : jsstring :=
  match s with
  | c :: s' => if is_space c then drop_space s' else s
  | [] => []
  end.

(** [s.trim()] *)
Definition trim (s : jsstring) : jsstring :=
  rev (drop_space (rev (drop_space s))).

(** ** [parseTableHtmlToArray] *)

(** The classes [[\s\S]] and [[^>]]. *)
Definition any_char : char -> bool := fun _ => true.
Definition not_gt : char -> bool := fun c => negb (c =? ch_gt)%N.

(** [/<tr[\s\S]*?<\/tr>/gi] *)
Definition trRe : regexp :=
  RegExp (Seq (Lits (js "<tr"))
            (Seq (Star false (Class any_char)) (Lits (js "</tr>"))))
         true.

(** [/<(td|th)[^>]*>([\s\S]*?)<\/\1>/gi] *)
Definition cellRe : regexp :=
  RegExp (Seq (Lit ch_lt)
         (Seq (Group 1 (Alt (Lits (js "td")) (Lits (js "th"))))
         (Seq (Star true (Class not_gt))
         (Seq (Lit ch_gt)
         (Seq (Group 2 (Star false (Class any_char)))
         (Seq (Lits (js "</"))
         (Seq (Backref 1) (Lit ch_gt))))))))
         true.

(** [/<[^>]*>/g] *)
Definition tagRe : regexp :=
  RegExp (Seq (Lit ch_lt) (Seq (Star true (Class not_gt)) (Lit ch_gt))) false.

(** [/\s+/g] *)
Definition spaceRe : regexp := RegExp (Plus (Class is_space)) false.

(** [inner.replace(/<[^>]*>/g, ' ').replace(/\s+/g, ' ').trim()] *)
Definition normalize (inner : jsstring) : jsstring :=
  trim (replace spaceRe (js " ") (replace tagRe (js " ") inner)).

(** The body of the inner loop: [cells.push(inner)]. *)
Definition push_cell (cell : match_result) (cells : list jsstring)
    : option (list jsstring) :=
  let inner := group_or_empty 2 cell in
  Some (cells ++ [normalize inner]).

(** The body of the outer loop: the inner loop over [tr[0]], then
    [if (cells.length > 0) rows.push(cells)]. *)
Definition push_row (tr : match_result) (rows : list (list jsstring))
    : option (list (list jsstring)) :=
  let trHtml := matched tr in
  match while_exec cellRe trHtml push_cell 0 [] with
  | Some cells =>
      Some (if 0 <? length cells then rows ++ [cells] else rows)
  | None => None
  end.

(** [parseTableHtmlToArray(tableHtml)]; [None] as argument is [null],
    [None] as result is a call that does not return. *)
Definition parseTableHtmlToArray (tableHtml : option jsstring)
    : option (list (list jsstring)) :=
  match tableHtml with
  | None | Some [] => Some []
  | Some s => while_exec trRe s push_row 0 []
  end.

(** The first place in [s] where [here] gives a result: the text before
    that place, and the result. A search for a text or for a match is such
    a scan. *)
Fixpoint find_first {B : Type} (here : jsstring -> option B) (s : jsstring)
    : option (jsstring * B) :=
  match here s with
  | Some b => Some ([], b)
  | None =>
      match s with
      | [] => None
      | x :: s' =>
          match find_first here s' with
          | Some (before, b) => Some (x :: before, b)
          | None => None
          end
      end
  end.

(** ** The table selector: the callback of [page.$$eval('table', ...)] *)

(** How a statement completes: normally, or by throwing. *)
Inductive completion (A : Type) : Type :=
| Normal (a : A)
| Throw.
Arguments Normal {A} a.
Arguments Throw {A}.

(** One statement after the other: a throw ends both. *)
Definition bind_completion {A B : Type} (c : completion A)
    (f : A -> completion B) : completion B :=
  match c with
  | Normal a => f a
  | Throw => Throw
  end.

(** [try { body } catch(e) { handler }] *)
Definition try_completion {A : Type} (body handler : completion A)
    : completion A :=
  match body with
  | Normal a => Normal a
  | Throw => handler
  end.

(** What reading a property of an element gives: the read throws, or
    gives [undefined], or gives a string. *)
Inductive property : Type :=
| ReadThrows
| ReadUndefined
| ReadString (s : jsstring).

(** A [table] element of the page, as far as the callback looks at it. *)
Record element : Type := Element {
  innerText : property;
  outerHTML : jsstring
}.

(** [s.includes(sub)] *)
Definition includes (s sub : jsstring) : bool :=
  match find_first (strip_prefix false sub) s with
  | Some _ => true
  | None => false
  end.

(** The marker token of the callback, ['papel']. *)
Definition marker : jsstring := js "papel".

Section Selector.
(** [String.prototype.toLowerCase], which follows the Unicode case
    mappings. *)
Variable toLowerCase : jsstring -> jsstring.

(** [t.innerText && t.innerText.toLowerCase().includes('papel')], as a
    condition: [undefined] and the empty string are falsy. *)
Definition marker_test (t : element) : completion bool :=
  match innerText t with
  | ReadThrows => Throw
  | ReadUndefined => Normal false
  | ReadString [] => Normal false
  | ReadString s => Normal (includes (toLowerCase s) marker)
  end.

(** One turn of the loop: [Some html] is [return html], [None] goes on to
    the next table. *)
Definition inspect_table (t : element) : completion (option jsstring) :=
  try_completion
    (bind_completion (marker_test t)
       (fun found => if found then Normal (Some (outerHTML t))
                     else Normal None))
    (Normal None).

(** [for (const t of tables) { try { ... } catch(e){} }] *)
Fixpoint first_marked (tables : list element) : completion (option jsstring) :=
  match tables with
  | [] => Normal None
  | t :: tables' =>
      bind_completion (inspect_table t)
        (fun returned =>
           match returned with
           | Some html => Normal (Some html)
           | None => first_marked tables'
           end)
  end.

(** The callback: the first table with the marker, else the first table,
    else [null] (which is [None]). *)
Definition select_table (tables : list element)
    : completion (option jsstring) :=
  bind_completion (first_marked tables)
    (fun returned =>
       match returned with
       | Some html => Normal (Some html)
       | None =>
           match tables with
           | t0 :: _ => Normal (Some (outerHTML t0))
           | [] => Normal None
           end
       end).

End Selector.

(** [toLowerCase] on a string of ASCII code units. *)
Definition toLowerCase_ascii (s : jsstring) : jsstring :=
  map (fun c => if ((65 <=? c) && (c <=? 90))%N then (c + 32)%N else c) s.

(** ** The run: the main asynchronous function *)

(** What the run does to the browser, the sheet and the process. *)
Inductive event : Type :=
| Launch                          (* chromium.launch *)
| NewContext                      (* browser.newContext *)
| NewPage                         (* context.newPage *)
| Goto                            (* page.goto *)
| QueryButton (label : jsstring)  (* page.$('button:has-text("label")') *)
| Click (label : jsstring)        (* btn.click *)
| WaitForLoadState                (* page.waitForLoadState('networkidle') *)
| WaitForSelector                 (* page.waitForSelector('table') *)
| EvalTables                      (* page.$$eval('table', callback) *)
| PageContent                     (* page.content *)
| WriteSheet (values : list (list jsstring))   (* writeToGoogleSheet *)
| BrowserClose                    (* browser.close *)
| ProcessExit (code : nat).       (* process.exit *)

(** How a part of the run ends: it returns, it throws (a rejected promise
    is a throw at its [await]), the process has exited, or it never
    ends. *)
Inductive outcome (A : Type) : Type :=
| Returned (a : A)
| Thrown
| Exited
| Hangs.
Arguments Returned {A} a.
Arguments Thrown {A}.
Arguments Exited {A}.
Arguments Hangs {A}.

(** A part of the run: the events it causes, in order, and how it ends. *)
Definition run (A : Type) : Type := list event * outcome A.

(** A part that does nothing and returns [a]. *)
Definition ret {A : Type} (a : A) : run A := ([], Returned a).

(** One part after the other: the second part runs when the first one
    returns. *)
Definition bind {A B : Type} (m : run A) (f : A -> run B) : run B :=
  match m with
  | (tr, Returned a) => let (tr', o) := f a in (tr ++ tr', o)
  | (tr, Thrown) => (tr, Thrown)
  | (tr, Exited) => (tr, Exited)
  | (tr, Hangs) => (tr, Hangs)
  end.

Notation "x <- m ;; k" := (bind m (fun x => k))
  (at level 61, m at next level, right associativity).
Notation "m ;; k" := (bind m (fun _ => k))
  (at level 61, right associativity).

(** An operation of a collaborator: the event, and whether it succeeds. *)
Definition act (e : event) (ok : bool) : run unit :=
  ([e], if ok then Returned tt else Thrown).

(** [process.exit(code)]: nothing runs after it. *)
Definition process_exit {A : Type} (code : nat) : run A :=
  ([ProcessExit code], Exited).

(** [try { body } catch(e) { handler }]; [process.exit] is no exception. *)
Definition try_catch {A : Type} (body handler : run A) : run A :=
  match body with
  | (tr, Thrown) => let (tr', o) := handler in (tr ++ tr', o)
  | _ => body
  end.

(** [promise.catch(()=>{})], and [try { await promise } catch(e){}] *)
Definition ignore_failure (m : run unit) : run unit := try_catch m (ret tt).

(** What [page.$] finds. *)
Inductive query_result : Type :=
| QueryThrows
| NoButton
| Button.

(** What the browser, the page and the sheet do in one run: which of their
    operations succeed, which buttons and tables the page has. *)
Record world : Type := World {
  launch_ok : bool;
  newContext_ok : bool;
  newPage_ok : bool;
  goto_ok : bool;
  query_button : jsstring -> query_result;
  click_ok : jsstring -> bool;
  load_after_click_ok : bool;
  networkidle_ok : bool;
  table_selector_ok : bool;
  tables : option (list element);     (* [None]: [$$eval] is rejected *)
  content_ok : bool;
  write_ok : bool;
  close_ok : bool
}.

(** The labels of the button loop, in its order. *)
Definition buttonTexts : list jsstring :=
  [js "Filtrar"; js "Gerar"; js "Buscar"; js "Pesquisar";
   js "Aplicar filtros"].

(** [await page.$(`button:has-text("${t}")`)], as a condition. *)
Definition query (w : world) (t : jsstring) : run bool :=
  ([QueryButton t],
   match query_button w t with
   | QueryThrows => Thrown
   | NoButton => Returned false
   | Button => Returned true
   end).

(** One turn of the button loop: [true] is [break]. *)
Definition try_button (w : world) (t : jsstring) : run bool :=
  try_catch
    (btn <- query w t ;;
     if btn then
       ignore_failure (act (Click t) (click_ok w t)) ;;
       ignore_failure (act WaitForLoadState (load_after_click_ok w)) ;;
       ret true
     else ret false)
    (ret false).

(** [for (const t of buttonTexts) { try { ... break; ... } catch(e){} }] *)
Fixpoint click_first_button (w : world) (labels : list jsstring) : run unit :=
  match labels with
  | [] => ret tt
  | t :: labels' =>
      broke <- try_button w t ;;
      if broke then ret tt else click_first_button w labels'
  end.

Section Main.
Variable toLowerCase : jsstring -> jsstring.

(** [extractTableFromPage(page)] *)
Definition extractTableFromPage (w : world) : run (option jsstring) :=
  ignore_failure (act WaitForLoadState (networkidle_ok w)) ;;
  ignore_failure (act WaitForSelector (table_selector_ok w)) ;;
  ([EvalTables],
   match tables w with
   | None => Thrown
   | Some ts =>
       match select_table toLowerCase ts with
       | Normal tableHtml => Returned tableHtml
       | Throw => Thrown
       end
   end).

(** The body of the [try] of the main function. *)
Definition main_try (w : world) : run unit :=
  act NewContext (newContext_ok w) ;;
  act NewPage (newPage_ok w) ;;
  act Goto (goto_ok w) ;;
  click_first_button w buttonTexts ;;
  tableHtml <- extractTableFromPage w ;;
  match tableHtml with
  | None | Some [] =>
      act PageContent (content_ok w) ;;
      process_exit 2
  | Some html =>
      match parseTableHtmlToArray (Some html) with
      | None => ([], Hangs)
      | Some [] => process_exit 3
      | Some tableArray =>
          act (WriteSheet tableArray) (write_ok w) ;;
          act BrowserClose (close_ok w) ;;
          process_exit 0
      end
  end.

(** The main function: the browser is launched, then
    [try { ... } catch (err) { await browser.close().catch(()=>{});
    process.exit(4); }]. The check of the environment variables, which
    exits with code 1, comes before any browser and is left out. *)
Definition main (w : world) : run unit :=
  act Launch (launch_ok w) ;;
  try_catch (main_try w)
    (ignore_failure (act BrowserClose (close_ok w)) ;;
     process_exit 4).

End Main.

(** ** The configuration *)

(** [process.env], as far as the program reads it: a variable is not set
    ([None], which is [undefined]) or is a string. *)
Record environment : Type := Environment {
  env_SERVICE_ACCOUNT_JSON : option jsstring;
  env_SHEET_ID : option jsstring;
  env_SHEET_TAB : option jsstring
}.

(** [x || d] for a variable [x] of the environment: [undefined] and the
    empty string are falsy. *)
Definition or_default (x : option jsstring) (d : jsstring) : jsstring :=
  match x with
  | Some (c :: s) => c :: s
  | _ => d
  end.

Definition SERVICE_ACCOUNT_JSON (env : environment) : jsstring :=
  or_default (env_SERVICE_ACCOUNT_JSON env) [].

Definition SHEET_ID (env : environment) : jsstring :=
  or_default (env_SHEET_ID env) [].

Definition SHEET_TAB (env : environment) : jsstring :=
  or_default (env_SHEET_TAB env) (js "FIIs_Fundamentus").

(** [!s] for a string [s]. *)
Definition falsy (s : jsstring) : bool :=
  match s with [] => true | _ :: _ => false end.

(** [if (!SERVICE_ACCOUNT_JSON || !SHEET_ID) { ...; process.exit(1); }] *)
Definition check_environment (env : environment) : run unit :=
  if falsy (SERVICE_ACCOUNT_JSON env) || falsy (SHEET_ID env)
  then process_exit 1
  else ret tt.

(** The program: the check of the configuration, then the call of the
    main function; loading the two modules before the check is taken to
    succeed. Nothing handles the promise of the main function: the
    outcome [Thrown] is an unhandled rejection. *)
Definition script (toLowerCase : jsstring -> jsstring) (env : environment)
    (w : world) : run unit :=
  check_environment env ;; main toLowerCase w.

(** The status the process ends with: the code given to [process.exit],
    which is the last thing a run that exits does; and 1 after an
    unhandled rejection, with which node ends the process. [None]: the
    program does not end the process. *)
Definition exit_status (m : run unit) : option nat :=
  match snd m with
  | Exited =>
      match last (fst m) Launch with
      | ProcessExit code => Some code
      | _ => None
      end
  | Thrown => Some 1
  | Returned _ | Hangs => None
  end.

(** ** [writeToGoogleSheet] *)

(** The calls of [writeToGoogleSheet] to the Google client. *)
Inductive sheets_call : Type :=
| GetClient                                  (* auth.getClient *)
| SpreadsheetsGet (spreadsheetId : jsstring) (* spreadsheets.get *)
| AddSheet (spreadsheetId title : jsstring)  (* spreadsheets.batchUpdate *)
| ValuesUpdate (spreadsheetId range : jsstring)
    (values : list (list jsstring)).         (* spreadsheets.values.update *)

(** A part of [writeToGoogleSheet]: its calls, in order, and its result;
    [None] is a throw or a rejected promise. *)
Definition calls (A : Type) : Type := list sheets_call * option A.

Definition bind_calls {A B : Type} (m : calls A) (f : A -> calls B)
    : calls B :=
  match m with
  | (tr, Some a) => let (tr', o) := f a in (tr ++ tr', o)
  | (tr, None) => (tr, None)
  end.

(** One call and its answer. *)
Definition call {A : Type} (c : sheets_call) (answer : option A) : calls A :=
  ([c], answer).

(** An entry of [meta.data.sheets]: [properties] is [undefined], or an
    object whose [title] is [undefined] or a string. *)
Record sheet : Type := Sheet {
  properties : option (option jsstring)
}.

(** What the Google client answers in one call of [writeToGoogleSheet]. *)
Record sheets_api : Type := SheetsApi {
  getClient_ok : bool;
  spreadsheet : option (option (list sheet));
      (* [None]: the call is rejected; [Some None]: no [sheets] in it *)
  batchUpdate_ok : bool;
  update_ok : bool
}.

(** [a === b] for strings. *)
Definition eqb_jsstring (a b : jsstring) : bool :=
  if list_eq_dec N.eq_dec a b then true else false.

Section Sheet.
(** Whether [JSON.parse] accepts a text. *)
Variable json_valid : jsstring -> bool.
Variable env : environment.
Variable api : sheets_api.

(** [s => s.properties && s.properties.title === SHEET_TAB] *)
Definition is_tab (s : sheet) : bool :=
  match properties s with
  | Some (Some title) => eqb_jsstring title (SHEET_TAB env)
  | _ => false
  end.

(** [writeToGoogleSheet(values)]; making the [GoogleAuth] object and the
    [sheets] object calls nothing and is left out, and so is the constant
    [valueInputOption: 'RAW'] of the update. *)
Definition writeToGoogleSheet (values : list (list jsstring)) : calls unit :=
  if json_valid (SERVICE_ACCOUNT_JSON env) then
    bind_calls (call GetClient (if getClient_ok api then Some tt else None))
      (fun _ =>
    bind_calls (call (SpreadsheetsGet (SHEET_ID env)) (spreadsheet api))
      (fun meta =>
    let sheetsMeta := match meta with Some l => l | None => [] end in
    let found := find is_tab sheetsMeta in
    bind_calls
      (match found with
       | None =>
           call (AddSheet (SHEET_ID env) (SHEET_TAB env))
                (if batchUpdate_ok api then Some tt else None)
       | Some _ => ([], Some tt)
       end)
      (fun _ =>
    call (ValuesUpdate (SHEET_ID env) (SHEET_TAB env ++ js "!A1") values)
         (if update_ok api then Some tt else None))))
  else ([], None).

End Sheet.

(** * The vocabulary of the lemmas and of the claims *)

(** ** What the program's patterns match *)

(** The first place in [s] where [w] occurs, letter case ignored: the text
    before it and the text after it. *)
Definition find_ci (w : jsstring) : jsstring -> option (jsstring * jsstring) :=
  find_first (strip_prefix true w).

(** The text up to the first ['>'] and the text after it. *)
Fixpoint split_gt (s : jsstring) : option (jsstring * jsstring) :=
  match s with
  | [] => None
  | x :: s' =>
      if (x =? ch_gt)%N then Some ([], s')
      else match split_gt s' with
           | Some (attrs, after) => Some (x :: attrs, after)
           | None => None
           end
  end.

(** A row segment at the head of [suf]: [<tr], then everything up to the
    first [</tr>]; the result is what follows the segment. *)
Definition match_tr (suf : jsstring) : option jsstring :=
  match strip_prefix true (js "<tr") suf with
  | Some s1 =>
      match find_ci (js "</tr>") s1 with
      | Some (_, s2) => Some s2
      | None => None
      end
  | None => None
  end.

(** The tag name of a cell as it is written, and what follows it. *)
Definition cell_kind (s : jsstring) : option (jsstring * jsstring) :=
  match strip_prefix true (js "td") s with
  | Some s1 => Some (firstn 2 s, s1)
  | None =>
      match strip_prefix true (js "th") s with
      | Some s1 => Some (firstn 2 s, s1)
      | None => None
      end
  end.

(** The closing tag of the name [kind]. *)
Definition close_tag (kind : jsstring) : jsstring :=
  js "</" ++ kind ++ [ch_gt].

(** What follows the tag name [kind] of a cell: the rest of the opening
    tag up to its ['>'], the inner markup up to the first closing tag of
    the same name, and what follows that closing tag. *)
Definition match_cell_body (kind s1 : jsstring)
    : option (jsstring * jsstring * jsstring * jsstring) :=
  match split_gt s1 with
  | Some (attrs, s2) =>
      match find_ci (close_tag kind) s2 with
      | Some (inner, s3) => Some (kind, attrs, inner, s3)
      | None => None
      end
  | None => None
  end.

(** A cell segment at the head of [suf]: ['<'], [td] or [th], and the
    body. The result is the tag name, the rest of the opening tag, the
    inner markup and what follows the segment. *)
Definition match_cell (suf : jsstring)
    : option (jsstring * jsstring * jsstring * jsstring) :=
  match suf with
  | c :: s0 =>
      if (c =? ch_lt)%N then
        match cell_kind s0 with
        | Some (kind, s1) => match_cell_body kind s1
        | None => None
        end
      else None
  | [] => None
  end.

(** The lazy [[\s\S]*?] followed by [k]: [k] is tried after 0, 1, 2, ...
    code units. *)
Fixpoint lazy_scan (k : cont) (cs : list (nat * jsstring)) (s : jsstring)
    : option mstate :=
  match k (MState s cs) with
  | Some r => Some r
  | None =>
      match s with
      | [] => None
      | _ :: s' => lazy_scan k cs s'
      end
  end.

(** The greedy [[...]*] followed by [k]: [k] is tried after the longest
    run of members first, then after shorter ones. *)
Fixpoint greedy_scan (member : char -> bool) (k : cont)
    (cs : list (nat * jsstring)) (s : jsstring) : option mstate :=
  match s with
  | x :: s' =>
      if member x then
        match greedy_scan member k cs s' with
        | Some r => Some r
        | None => k (MState s cs)
        end
      else k (MState s cs)
  | [] => k (MState [] cs)
  end.

(** The matcher state after a cell segment: group 1 is the tag name,
    group 2 the inner markup. *)
Definition cell_state
    (r : option (jsstring * jsstring * jsstring * jsstring))
    : option mstate :=
  match r with
  | Some (kind, attrs, inner, s3) => Some (MState s3 [(2, inner); (1, kind)])
  | None => None
  end.

(** ** [exec] in terms of the first match *)

(** The pattern of [re] matched at the head of [t]. *)
Definition here_of (re : regexp) (t : jsstring) : option mstate :=
  matcher (ignoreCase re) (source re) Some (MState t []).

(** ** The Markup Normalizer, in the words of the specification *)

Definition is_gt (c : char) : bool := (c =? ch_gt)%N.
Definition is_lt (c : char) : bool := (c =? ch_lt)%N.

(** Every tag-delimited substring (from a ['<'] to the next ['>'],
    inclusive) gives way to [repl]; [in_tag] says that the scan is inside
    such a substring. A ['<'] with no ['>'] after it delimits nothing. *)
Fixpoint strip_tags (repl : jsstring) (in_tag : bool) (s : jsstring)
    : jsstring :=
  match s with
  | [] => []
  | c :: r =>
      if in_tag then
        if is_gt c then strip_tags repl false r else strip_tags repl true r
      else if is_lt c && existsb is_gt r then repl ++ strip_tags repl true r
      else c :: strip_tags repl false r
  end.

(** Every run of whitespace becomes one space; [prev] says that the code
    unit before was whitespace. *)
Fixpoint collapse_space (prev : bool) (s : jsstring) : jsstring :=
  match s with
  | [] => []
  | c :: r =>
      if is_space c then
        if prev then collapse_space true r else ch_sp :: collapse_space true r
      else c :: collapse_space false r
  end.

(** The Markup Normalizer as the specification words it: delete every
    tag-delimited substring, collapse every run of whitespace into one
    space, trim. *)
Definition spec_normalize (s : jsstring) : jsstring :=
  trim (collapse_space false (strip_tags [] false s)).

(** What [/<[^>]*>/] matches at the head of [t]: what follows the tag. *)
Definition here_tag (t : jsstring) : option jsstring :=
  match t with
  | c :: s0 =>
      if is_lt c then
        match split_gt s0 with Some (_, s') => Some s' | None => None end
      else None
  | [] => None
  end.

(** What [/\s+/] matches at the head of [t]: what follows the run. *)
Definition here_space (t : jsstring) : option jsstring :=
  match t with
  | c :: s0 => if is_space c then Some (drop_space s0) else None
  | [] => None
  end.

(** ** What the normalised text looks like *)

(** A ['<'] with a ['>'] somewhere after it. *)
Definition has_tag (o : jsstring) : Prop :=
  exists a b c, o = a ++ ch_lt :: b ++ ch_gt :: c.

(** Two whitespace code units in a row. *)
Definition has_space_run (o : jsstring) : Prop :=
  exists a x y b, o = a ++ x :: y :: b /\ is_space x = true /\ is_space y = true.

(** No ['<'] of [s] has a ['>'] after it. *)
Fixpoint no_tag (s : jsstring) : bool :=
  match s with
  | [] => true
  | c :: r => negb (is_lt c && existsb is_gt r) && no_tag r
  end.

(** [s] starts with whitespace. *)
Definition head_space (s : jsstring) : bool :=
  match s with x :: _ => is_space x | [] => false end.

(** No two whitespace code units of [s] are in a row. *)
Fixpoint no_run (s : jsstring) : bool :=
  match s with
  | [] => true
  | x :: r => negb (is_space x && head_space r) && no_run r
  end.

(** ** The loops of [parseTableHtmlToArray] *)

(** The results of the successive calls of [exec] from [lastIndex] on,
    until [exec] returns [null]; each call moves [lastIndex] on. *)
Inductive successive (re : regexp) (s : jsstring)
    : nat -> list match_result -> Prop :=
| successive_done lastIndex li' :
    exec re s lastIndex = (None, li') ->
    successive re s lastIndex []
| successive_next lastIndex m li' ms :
    exec re s lastIndex = (Some m, li') ->
    lastIndex < li' ->
    successive re s li' ms ->
    successive re s lastIndex (m :: ms).

(** The loop's variables after the body has run on each result. *)
Fixpoint run_body {A : Type} (body : match_result -> A -> option A)
    (ms : list match_result) (acc : A) : option A :=
  match ms with
  | [] => Some acc
  | m :: ms' =>
      match body m acc with
      | Some acc' => run_body body ms' acc'
      | None => None
      end
  end.

(** The text of a cell: [cell[2] || ''], normalised. *)
Definition cell_text (cell : match_result) : jsstring :=
  normalize (group_or_empty 2 cell).

(** The rows [parseTableHtmlToArray] returns when the row segments have
    the cell segments [cellss]: a segment without cells gives no row. *)
Definition rows_of (cellss : list (list match_result))
    : list (list jsstring) :=
  map (map cell_text) (filter (fun cs => 0 <? length cs) cellss).

(** ** Where the segments are, and what they look like *)

(** [m] is the text of [s] from [index m] to [endIndex m], which is not
    empty. *)
Definition located (s : jsstring) (m : match_result) : Prop :=
  index m < endIndex m /\ endIndex m <= length s
  /\ matched m = firstn (endIndex m - index m) (skipn (index m) s).

(** The segments [ms] follow each other in [s] without overlap. *)
Definition document_order (s : jsstring) (ms : list match_result) : Prop :=
  Forall (located s) ms
  /\ StronglySorted (fun a b => endIndex a <= index b) ms.

(** The same text, letter case ignored. *)
Definition same_ci (a b : jsstring) : Prop :=
  map (canonicalize true) a = map (canonicalize true) b.

(** A row segment: [<tr] ... [</tr>], in any letter case. *)
Definition is_row_segment (seg : jsstring) : Prop :=
  exists open body close,
    seg = open ++ body ++ close
    /\ same_ci open (js "<tr") /\ same_ci close (js "</tr>").

(** A cell segment with the text [text]: ['<'], the tag name [td] or
    [th], the rest of the opening tag, ['>'], the inner markup, and the
    closing tag of the same name; [text] is the inner markup normalised. *)
Definition is_cell_segment (seg text : jsstring) : Prop :=
  exists kind attrs inner close,
    seg = ch_lt :: kind ++ attrs ++ ch_gt :: inner ++ close
    /\ (same_ci kind (js "td") \/ same_ci kind (js "th"))
    /\ ~ In ch_gt attrs
    /\ same_ci close (close_tag kind)
    /\ text = normalize inner.

(** ** Scanning over text that holds no match *)

(** [here] gives nothing at any place of [a] when [suf] follows [a]. *)
Definition skips {B : Type} (here : jsstring -> option B)
    (a suf : jsstring) : Prop :=
  forall i, i < length a -> here (skipn i (a ++ suf)) = None.

(** No ['<'] in [s]. *)
Definition no_lt (s : jsstring) : bool := forallb (fun c => negb (is_lt c)) s.

(** Neither ['<'] nor ['>'] in [s]. *)
Definition plain (s : jsstring) : bool :=
  forallb (fun c => negb (is_lt c) && negb (is_gt c)) s.

(** Whether [w] occurs in [s], letter case ignored. *)
Definition occurs_ci (w s : jsstring) : bool :=
  match find_ci w s with Some _ => true | None => false end.

(** The letters of [w], none of which is a ['<']. *)
Definition lt_free (w : jsstring) : bool :=
  forallb (fun c => negb (canonicalize true c =? canonicalize true ch_lt)%N) w.

(** ** Well-formed table markup *)

(** A cell element: [th] or [td], the rest of its opening tag, and its
    inner markup. *)
Record cell_doc : Type := CellDoc {
  c_header : bool;
  c_attrs : jsstring;
  c_inner : jsstring
}.

(** A row element: the rest of its opening tag, its cells, each with the
    text before it, and the text after the last cell. *)
Record row_doc : Type := RowDoc {
  r_attrs : jsstring;
  r_cells : list (jsstring * cell_doc);
  r_tail : jsstring
}.

(** A table: its rows, each with the markup before it, and the markup
    after the last row. *)
Record table_doc : Type := TableDoc {
  t_rows : list (jsstring * row_doc);
  t_tail : jsstring
}.

Definition tag_name (c : cell_doc) : jsstring :=
  if c_header c then js "th" else js "td".

Definition render_cell (c : cell_doc) : jsstring :=
  ch_lt :: tag_name c ++ c_attrs c ++ ch_gt :: c_inner c
  ++ close_tag (tag_name c).

Definition render_cells (cells : list (jsstring * cell_doc)) : jsstring :=
  flat_map (fun fc => fst fc ++ render_cell (snd fc)) cells.

Definition render_row (r : row_doc) : jsstring :=
  js "<tr" ++ r_attrs r ++ ch_gt :: render_cells (r_cells r) ++ r_tail r
  ++ js "</tr>".

Definition render_rows (rows : list (jsstring * row_doc)) : jsstring :=
  flat_map (fun fr => fst fr ++ render_row (snd fr)) rows.

Definition render_table (t : table_doc) : jsstring :=
  render_rows (t_rows t) ++ t_tail t.

(** The cell is properly delimited: no angle bracket in its opening tag
    but the two that delimit it, and neither its own closing tag nor a
    closing row tag in its inner markup. *)
Definition wf_cell (c : cell_doc) : bool :=
  plain (c_attrs c)
  && negb (occurs_ci (close_tag (tag_name c)) (c_inner c))
  && negb (occurs_ci (js "</tr>") (c_inner c)).

(** The row is properly delimited and not nested: its cells are, and
    there is no markup between them. *)
Definition wf_row (r : row_doc) : bool :=
  plain (r_attrs r)
  && forallb (fun fc => no_lt (fst fc) && wf_cell (snd fc)) (r_cells r)
  && no_lt (r_tail r).

(** The rows are properly delimited, and no row opens in the markup
    around them. *)
Definition wf_table (t : table_doc) : bool :=
  forallb (fun fr => negb (occurs_ci (js "<tr") (fst fr)) && wf_row (snd fr))
    (t_rows t)
  && negb (occurs_ci (js "<tr") (t_tail t)).

(** The rows of a table that have cells, each as the normalised inner
    markups of its cells. *)
Definition expected_rows (rows : list (jsstring * row_doc))
    : list (list jsstring) :=
  map (fun fr => map (fun fc => normalize (c_inner (snd fc)))
                   (r_cells (snd fr)))
    (filter (fun fr => 0 <? length (r_cells (snd fr))) rows).

(** A ['<'] or nothing comes next. *)
Definition lt_next (suf : jsstring) : Prop :=
  suf = [] \/ exists r, suf = ch_lt :: r.

(** ** The table selector *)

(** The visible text of [t] can be read and contains the marker, letter
    case ignored. *)
Definition contains_marker (toLowerCase : jsstring -> jsstring)
    (t : element) : Prop :=
  exists s pre post,
    innerText t = ReadString s /\ toLowerCase s = pre ++ marker ++ post.

(** ** The button loop and the exits of the run *)

Definition is_click (e : event) : bool :=
  match e with Click _ => true | _ => false end.

Definition is_close (e : event) : bool :=
  match e with BrowserClose => true | _ => false end.

Definition is_exit (e : event) : bool :=
  match e with ProcessExit _ => true | _ => false end.

(** The code the process exits with, if it does. *)
Fixpoint exit_code (tr : list event) : option nat :=
  match tr with
  | [] => None
  | ProcessExit code :: _ => Some code
  | _ :: tr' => exit_code tr'
  end.

(** A part of the run that neither exits nor closes the browser. *)
Definition quiet {A : Type} (m : run A) : Prop :=
  existsb is_exit (fst m) = false /\ existsb is_close (fst m) = false
  /\ snd m <> Exited.

(** A part of the run that ends the [try]: if it exits, then with code 0
    after closing the browser, or with code 2 or 3 without. *)
Definition try_ok (m : run unit) : Prop :=
  match snd m with
  | Exited =>
      match exit_code (fst m) with
      | Some 0 => existsb is_close (fst m) = true
      | Some 2 | Some 3 => existsb is_close (fst m) = false
      | _ => False
      end
  | _ => existsb is_exit (fst m) = false
  end.

(** The number of controls that part of the run activates. *)
Definition clicks {A : Type} (m : run A) : nat :=
  length (filter is_click (fst m)).

(** ** Sample inputs *)

(** A page without any table: everything works, no button is there, the
    wait for a table times out. *)
Definition no_table_world : world :=
  World true true true true (fun _ => NoButton) (fun _ => true) true
        true false (Some []) true true true.

(** A page whose only table has no cell. *)
Definition no_rows_world : world :=
  World true true true true (fun _ => NoButton) (fun _ => true) true
        true true
        (Some [Element (ReadString (js "Papel"))
                 (js "<table><tr></tr></table>")])
        true true true.

(** A page on which the third label has a button whose click fails, and
    the query for the second label fails. *)
Definition third_button_world : world :=
  World true true true true
        (fun l => if list_eq_dec N.eq_dec l (js "Buscar") then Button
                  else if list_eq_dec N.eq_dec l (js "Gerar") then QueryThrows
                  else NoButton)
        (fun _ => false) false
        true true (Some []) true true true.

(** ** The texts the Markup Normalizer leaves as they are *)

(** Every whitespace code unit of [s] is the plain space. *)
Definition plain_spaces (s : jsstring) : bool :=
  forallb (fun c => negb (is_space c) || (c =? ch_sp)%N) s.

(** [s] holds no tag, its whitespace is single plain spaces, and it
    neither starts nor ends with whitespace. *)
Definition clean (s : jsstring) : bool :=
  no_tag s && no_run s && plain_spaces s
  && negb (head_space s) && negb (head_space (rev s)).

(** The code units of [s] that are no whitespace. *)
Definition visible (s : jsstring) : jsstring :=
  filter (fun c => negb (is_space c)) s.

(** ** The values [parseTableHtmlToArray] returns *)

(** The inner markups of the cells of the rows of [t] that have cells. *)
Definition content (t : table_doc) : list (list jsstring) :=
  map (fun fr => map (fun fc => c_inner (snd fc)) (r_cells (snd fr)))
    (filter (fun fr => 0 <? length (r_cells (snd fr))) (t_rows t)).

(** The inner markup of every cell of [t] is clean. *)
Definition clean_cells (t : table_doc) : bool :=
  forallb (fun fr => forallb (fun fc => clean (c_inner (snd fc)))
                       (r_cells (snd fr)))
    (t_rows t).

(** Rows as [parseTableHtmlToArray] returns them: no row is empty, every
    cell is clean. *)
Definition clean_rows (rows : list (list jsstring)) : bool :=
  forallb (fun row => (0 <? length row) && forallb clean row) rows.

(** The plainest table with the rows [rows]: [<tr>], then [<td>], the
    text and [</td>] for each cell, then [</tr>], for each row. *)
Definition doc_of_rows (rows : list (list jsstring)) : table_doc :=
  TableDoc
    (map (fun row =>
            ([], RowDoc [] (map (fun c => ([], CellDoc false [] c)) row) []))
       rows)
    [].

Definition markup_of_rows (rows : list (list jsstring)) : jsstring :=
  render_table (doc_of_rows rows).


(** ** The table the run works on, and how the run ends *)

(** A table whose text cannot be read or is empty, as one without text. *)
Definition unreadable_as_undefined (t : element) : element :=
  match innerText t with
  | ReadThrows | ReadString [] => Element ReadUndefined (outerHTML t)
  | _ => t
  end.

Definition is_write (e : event) : bool :=
  match e with WriteSheet _ => true | _ => false end.

(** The events of a run up to the evaluation of the tables, when nothing
    fails before. *)
Definition prelude (w : world) : list event :=
  [Launch; NewContext; NewPage; Goto]
  ++ fst (click_first_button w buttonTexts)
  ++ [WaitForLoadState; WaitForSelector; EvalTables].

(** The end of a run whose [try] fails after the events [tr]. *)
Definition handled (tr : list event) : run unit :=
  (tr ++ [BrowserClose; ProcessExit 4], Exited).

(** The browser starts, and the page is opened and loaded. *)
Definition page_loaded (w : world) : bool :=
  launch_ok w && newContext_ok w && newPage_ok w && goto_ok w.

(** A page with one table of two rows; everything works. *)
Definition one_table_world : world :=
  World true true true true (fun _ => NoButton) (fun _ => true) true
        true true
        (Some [Element (ReadString (js "Papel Cotacao"))
                 (js "<table><tr><th>Papel</th></tr><tr><td>ABCD11</td></tr></table>")])
        true true true.

(** The same page; the sheet is written, then closing the browser
    fails. *)
Definition failing_close_world : world :=
  World true true true true (fun _ => NoButton) (fun _ => true) true
        true true
        (Some [Element (ReadString (js "Papel Cotacao"))
                 (js "<table><tr><th>Papel</th></tr><tr><td>ABCD11</td></tr></table>")])
        true true false.

(** ** The configuration and the sheet *)

(** Both the credentials and the sheet identifier are set and not
    empty. *)
Definition configured (env : environment) : bool :=
  match env_SERVICE_ACCOUNT_JSON env, env_SHEET_ID env with
  | Some (_ :: _), Some (_ :: _) => true
  | _, _ => false
  end.

(** The entries of the answer of [spreadsheets.get]. *)
Definition sheets_of (meta : option (list sheet)) : list sheet :=
  match meta with Some l => l | None => [] end.

(** The sheet [s] has the title [title]. *)
Definition has_title (title : jsstring) (s : sheet) : Prop :=
  properties s = Some (Some title).

Definition is_add (c : sheets_call) : bool :=
  match c with AddSheet _ _ => true | _ => false end.

Definition is_update (c : sheets_call) : bool :=
  match c with ValuesUpdate _ _ _ => true | _ => false end.

(** An environment with credentials and identifier, and no tab name. *)
Definition sample_env : environment :=
  Environment (Some (js "{}")) (Some (js "abc123")) None.

(** A spreadsheet with a sheet of another title and an entry without
    properties; every call succeeds. *)
Definition sample_api : sheets_api :=
  SheetsApi true (Some (Some [Sheet (Some (Some (js "Sheet1"))); Sheet None]))
            true true.

(** ** Table markup as it is written *)

(** The same text, letter case ignored, as a test. *)
Definition eq_ci (a b : jsstring) : bool :=
  eqb_jsstring (map (canonicalize true) a) (map (canonicalize true) b).

(** A cell element as it is written: ['<'], the tag name, the rest of the
    opening tag, ['>'], the inner markup, ['</'], the tag name of the
    closing tag, what stands between that name and the ['>'], ['>']. *)
Record cell_elem : Type := CellElem {
  ce_name : jsstring;
  ce_attrs : jsstring;
  ce_inner : jsstring;
  ce_close : jsstring;
  ce_gap : jsstring
}.

(** A row element as it is written: its opening tag, its cells, each with
    the markup before it, the markup after the last cell, and its closing
    tag. *)
Record row_elem : Type := RowElem {
  re_name : jsstring;
  re_attrs : jsstring;
  re_cells : list (jsstring * cell_elem);
  re_tail : jsstring;
  re_close : jsstring;
  re_gap : jsstring
}.

(** A table as it is written: its rows, each with the markup before it,
    and the markup after the last row. *)
Record table_elem : Type := TableElem {
  te_rows : list (jsstring * row_elem);
  te_tail : jsstring
}.

Definition write_cell (c : cell_elem) : jsstring :=
  ch_lt :: ce_name c ++ ce_attrs c ++ ch_gt :: ce_inner c
  ++ js "</" ++ ce_close c ++ ce_gap c ++ [ch_gt].

Definition write_cells (cells : list (jsstring * cell_elem)) : jsstring :=
  flat_map (fun fc => fst fc ++ write_cell (snd fc)) cells.

Definition write_row (r : row_elem) : jsstring :=
  ch_lt :: re_name r ++ re_attrs r ++ ch_gt :: write_cells (re_cells r)
  ++ re_tail r ++ js "</" ++ re_close r ++ re_gap r ++ [ch_gt].

Definition write_rows (rows : list (jsstring * row_elem)) : jsstring :=
  flat_map (fun fr => fst fr ++ write_row (snd fr)) rows.

Definition write_table (t : table_elem) : jsstring :=
  write_rows (te_rows t) ++ te_tail t.

(** Markup between the cells of a row: no cell opens in it, and no row
    is closed in it. A comment or a line break is such markup. *)
Definition between_cells (f : jsstring) : bool :=
  negb (occurs_ci (js "<td") f) && negb (occurs_ci (js "<th") f)
  && negb (occurs_ci (js "</tr>") f).

(** The cell is properly delimited: its name is [td] or [th] in any letter
    case, its opening tag holds no angle bracket but the two that delimit
    it, its closing tag has the same name, in any letter case, with
    nothing but whitespace before the ['>'], and its inner markup holds
    neither its own closing tag nor a closing row tag. *)
Definition delimited_cell (c : cell_elem) : bool :=
  (eq_ci (ce_name c) (js "td") || eq_ci (ce_name c) (js "th"))
  && plain (ce_attrs c)
  && eq_ci (ce_close c) (ce_name c)
  && forallb is_space (ce_gap c)
  && negb (occurs_ci (close_tag (ce_name c)) (ce_inner c))
  && negb (occurs_ci (js "</tr>") (ce_inner c)).

(** The row is properly delimited and not nested: its name is [tr] in any
    letter case, in the opening and in the closing tag, its cells are
    properly delimited, and no cell opens and no row is closed in the
    markup between them. *)
Definition delimited_row (r : row_elem) : bool :=
  eq_ci (re_name r) (js "tr")
  && plain (re_attrs r)
  && forallb (fun fc => between_cells (fst fc) && delimited_cell (snd fc))
       (re_cells r)
  && between_cells (re_tail r)
  && eq_ci (re_close r) (js "tr")
  && forallb is_space (re_gap r).

(** The table is well formed: its rows are properly delimited, and no row
    opens in the markup around them. *)
Definition delimited_table (t : table_elem) : bool :=
  forallb (fun fr => negb (occurs_ci (js "<tr") (fst fr))
                     && delimited_row (snd fr))
    (te_rows t)
  && negb (occurs_ci (js "<tr") (te_tail t)).

(** Nothing stands between the name and the ['>'] of a closing tag. *)
Definition no_gap (gap : jsstring) : bool :=
  match gap with [] => true | _ :: _ => false end.

Definition tight_row (r : row_elem) : bool :=
  no_gap (re_gap r)
  && forallb (fun fc => no_gap (ce_gap (snd fc))) (re_cells r).

Definition tight_table (t : table_elem) : bool :=
  forallb (fun fr => tight_row (snd fr)) (te_rows t).

(** The row elements of the table that have at least one cell element. *)
Definition rows_with_cells (t : table_elem) : list (jsstring * row_elem) :=
  filter (fun fr => 0 <? length (re_cells (snd fr))) (te_rows t).

(** The normalised inner markups of the cells of these rows. *)
Definition texts_of (rows : list (jsstring * row_elem))
    : list (list jsstring) :=
  map (fun fr => map (fun fc => normalize (ce_inner (snd fc)))
                   (re_cells (snd fr)))
    (filter (fun fr => 0 <? length (re_cells (snd fr))) rows).

(** Two rows of one cell each; the closing tag of the first cell is
    written [</td >]. *)
Definition spaced_close_table : table_elem :=
  TableElem
    [ (js "<table>",
       RowElem (js "tr") []
         [ ([], CellElem (js "td") [] (js "a") (js "td") (js " ")) ] []
         (js "tr") []);
      ([],
       RowElem (js "tr") []
         [ ([], CellElem (js "td") [] (js "b") (js "td") []) ] []
         (js "tr") []) ]
    (js "</table>").

(** A table with tags in upper and in mixed case, a comment between two
    cells, markup around the rows, and a row without cells. *)
Definition mixed_case_table : table_elem :=
  TableElem
    [ (js "<TABLE id=t><THEAD>",
       RowElem (js "TR") (js " class=h")
         [ ([], CellElem (js "TH") [] (js "Papel") (js "TH") []);
           (js "<!-- c -->",
            CellElem (js "Th") (js " title=x") (js "Cota<br>o") (js "tH") []) ]
         (js " ") (js "TR") []);
      (js "</THEAD><tbody>",
       RowElem (js "tr") [] [] (js " ") (js "tr") []);
      ([],
       RowElem (js "Tr") []
         [ (js " ", CellElem (js "TD") []
                      (js "<a href=d?p=ABCD11>ABCD11</a>") (js "td") []);
           (js " ", CellElem (js "td") [] (js "10,50") (js "TD") []) ]
         [] (js "tR") []) ]
    (js "</tbody></TABLE>").

(** * Lemmas *)

(** ** The bound on the iterations of a star *)

Lemma matcher_cont_ext ic r : forall (k1 k2 : cont) st,
  (forall st', length (rest st') <= length (rest st) -> k1 st' = k2 st') ->
  matcher ic r k1 st = matcher ic r k2 st.
Proof.
  induction r as [|c|member|r1 IH1 r2 IH2|r1 IH1 r2 IH2|g r IH|n r IH|n];
    intros k1 k2 st Hk; cbn [matcher].
  - apply Hk. lia.
  - destruct (rest st) as [|x xs] eqn:E; [reflexivity|].
    destruct (_ =? _)%N; [|reflexivity]. apply Hk. cbn [rest length]. lia.
  - destruct (rest st) as [|x xs] eqn:E; [reflexivity|].
    destruct (member x); [|reflexivity]. apply Hk. cbn [rest length]. lia.
  - apply IH1. intros st' Hle. apply IH2. intros st'' Hle'. apply Hk. lia.
  - rewrite (IH1 k1 k2 st Hk), (IH2 k1 k2 st Hk). reflexivity.
  - generalize (length (rest st)) as fuel. intros fuel. revert st Hk.
    induction fuel as [|fuel IHf]; intros st Hk; cbn [repeat_matcher].
    + apply Hk. lia.
    + rewrite (Hk st) by lia.
      replace (matcher ic r
                 (fun st' => if length (rest st') <? length (rest st)
                             then repeat_matcher (matcher ic r) g k1 fuel st'
                             else None) st)
        with (matcher ic r
                (fun st' => if length (rest st') <? length (rest st)
                            then repeat_matcher (matcher ic r) g k2 fuel st'
                            else None) st); [reflexivity|].
      apply IH. intros st' Hle.
      destruct (length (rest st') <? length (rest st)); [|reflexivity].
      symmetry. apply IHf. intros st'' Hle'. apply Hk. lia.
  - apply IH. intros st' Hle. apply Hk. cbn [rest]. exact Hle.
  - destruct (capture n (caps st)) as [w|]; [|apply Hk; lia].
    destruct (strip_prefix ic w (rest st)) as [s'|] eqn:E; [|reflexivity].
    apply strip_prefix_length in E. apply Hk. cbn [rest]. lia.
Qed.

Lemma matcher_fail ic r st : matcher ic r (fun _ => None) st = None.
Proof.
  destruct (matcher ic r (fun _ => None) st) as [res|] eqn:E; [|reflexivity].
  apply matcher_suffix in E. destruct E as (st' & _ & E). discriminate.
Qed.

(** With as much fuel as code units left, [repeat_matcher] has all the
    fuel it can use. *)
Lemma repeat_matcher_fuel ic r greedy (k : cont) : forall fuel st,
  length (rest st) <= fuel ->
  repeat_matcher (matcher ic r) greedy k fuel st
  = repeat_matcher (matcher ic r) greedy k (length (rest st)) st.
Proof.
  induction fuel as [fuel IH] using lt_wf_ind. intros st Hlen.
  destruct fuel as [|fuel].
  - replace (length (rest st)) with 0 by lia. reflexivity.
  - destruct (length (rest st)) as [|n] eqn:En.
    + cbn [repeat_matcher].
      rewrite (@matcher_cont_ext ic r _ (fun _ => None) st), matcher_fail.
      * destruct greedy; [reflexivity|]. destruct (k st); reflexivity.
      * intros st' Hle. rewrite En.
        replace (length (rest st') <? 0) with false; [reflexivity|].
        symmetry. apply Nat.ltb_ge. lia.
    + cbn [repeat_matcher]. rewrite En.
      rewrite (@matcher_cont_ext ic r
                 (fun st' => if length (rest st') <? S n
                             then repeat_matcher (matcher ic r) greedy k fuel st'
                             else None)
                 (fun st' => if length (rest st') <? S n
                             then repeat_matcher (matcher ic r) greedy k n st'
                             else None) st); [reflexivity|].
      intros st' Hle.
      destruct (length (rest st') <? S n) eqn:Elt; [|reflexivity].
      apply Nat.ltb_lt in Elt.
      rewrite (IH fuel) by lia. rewrite (IH n) by lia. reflexivity.
Qed.

(** ** The loops, one turn at a time *)

Lemma while_exec_step {A} re s (body : match_result -> A -> option A) li acc :
  while_exec re s body li acc
  = match exec re s li with
    | (None, _) => Some acc
    | (Some m, li') =>
        if li <? li' then
          match body m acc with
          | None => None
          | Some acc' => while_exec re s body li' acc'
          end
        else None
    end.
Proof.
  rewrite while_exec_unfold_eq. unfold while_exec_unfold.
  change (exec re s li) with (proj1_sig (inspect (exec re s li))) at 2.
  generalize (inspect (exec re s li)).
  intros [[[m|] li'] Heq]; cbn [proj1_sig]; [|reflexivity].
  simp while_exec.
  change (li <? li') with (proj1_sig (inspect (li <? li'))) at 2.
  generalize (inspect (li <? li')).
  intros [[|] Hlt]; cbn [proj1_sig]; [|reflexivity].
  simpl. destruct (body m acc); reflexivity.
Qed.

Lemma replace_matches_step re s li :
  replace_matches re s li
  = match exec re s li with
    | (None, _) => []
    | (Some m, li') =>
        m :: replace_matches re s
               (match matched m with [] => S li' | _ :: _ => li' end)
    end.
Proof.
  rewrite replace_matches_equation_1.
  change (exec re s li) with (proj1_sig (inspect (exec re s li))) at 2.
  generalize (inspect (exec re s li)).
  intros [[[m|] li'] Heq]; cbn [proj1_sig].
  - rewrite replace_matches_clause_1_equation_1. reflexivity.
  - rewrite replace_matches_clause_1_equation_2. reflexivity.
Qed.

(** ** What the program's patterns match *)

Lemma matcher_lazy_any ic k st :
  matcher ic (Star false (Class any_char)) k st
  = lazy_scan k (caps st) (rest st).
Proof.
  cbn [matcher].
  assert (H : forall fuel st, length (rest st) <= fuel ->
    repeat_matcher (matcher ic (Class any_char)) false k fuel st
    = lazy_scan k (caps st) (rest st)).
  { clear st. induction fuel as [|fuel IH]; intros [s cs] Hlen;
      cbn [rest caps] in *.
    - destruct s; [|simpl in Hlen; lia]. simpl. destruct (k _); reflexivity.
    - cbn [repeat_matcher matcher rest caps].
      destruct s as [|x s]; cbn [lazy_scan].
      + destruct (k _); reflexivity.
      + destruct (k (MState (x :: s) cs)); [reflexivity|].
        unfold any_char. cbn [rest length].
        replace (length s <? S (length s)) with true
          by (symmetry; apply Nat.ltb_lt; lia).
        rewrite IH by (simpl in *; lia). reflexivity. }
  apply H; lia.
Qed.

Lemma matcher_greedy_class ic member k st :
  matcher ic (Star true (Class member)) k st
  = greedy_scan member k (caps st) (rest st).
Proof.
  cbn [matcher].
  assert (H : forall fuel st, length (rest st) <= fuel ->
    repeat_matcher (matcher ic (Class member)) true k fuel st
    = greedy_scan member k (caps st) (rest st)).
  { clear st. induction fuel as [|fuel IH]; intros [s cs] Hlen;
      cbn [rest caps] in *.
    - destruct s; [|simpl in Hlen; lia]. reflexivity.
    - cbn [repeat_matcher matcher rest caps].
      destruct s as [|x s]; cbn [greedy_scan]; [reflexivity|].
      destruct (member x); [|reflexivity].
      cbn [rest length].
      replace (length s <? S (length s)) with true
        by (symmetry; apply Nat.ltb_lt; lia).
      rewrite IH by (simpl in *; lia). reflexivity. }
  apply H; lia.
Qed.

Lemma matcher_Lits ic w k st :
  matcher ic (Lits w) k st
  = match strip_prefix ic w (rest st) with
    | Some s' => k (MState s' (caps st))
    | None => None
    end.
Proof.
  revert st; induction w as [|c w IH]; intros [s cs]; cbn [Lits matcher rest caps].
  - reflexivity.
  - destruct s as [|x s]; cbn [strip_prefix]; [reflexivity|].
    rewrite (N.eqb_sym (canonicalize ic c)).
    destruct (_ =? _)%N; [|reflexivity].
    rewrite IH. reflexivity.
Qed.

Lemma strip_prefix_app ic a b s :
  strip_prefix ic (a ++ b) s
  = match strip_prefix ic a s with
    | Some s1 => strip_prefix ic b s1
    | None => None
    end.
Proof.
  revert s; induction a as [|x a IH]; intros s; [reflexivity|].
  destruct s as [|y s]; cbn [app strip_prefix].
  - reflexivity.
  - destruct (_ =? _)%N; [apply IH | reflexivity].
Qed.

Lemma strip_prefix_split ic w s s' :
  strip_prefix ic w s = Some s' ->
  s = firstn (length w) s ++ s' /\ length (firstn (length w) s) = length w.
Proof.
  revert s; induction w as [|a w IH]; intros s H.
  - simpl in H. inversion H; auto.
  - destruct s as [|b s]; cbn [strip_prefix] in H; [discriminate|].
    destruct (_ =? _)%N; [|discriminate].
    apply IH in H. destruct H as (H1 & H2).
    cbn [length firstn app]. split; [f_equal; exact H1 | f_equal; exact H2].
Qed.

Lemma find_first_split {B} (here : jsstring -> option B) s before b :
  find_first here s = Some (before, b) ->
  here (skipn (length before) s) = Some b
  /\ before = firstn (length before) s
  /\ length before <= length s.
Proof.
  revert before; induction s as [|x s IH]; intros before H;
    cbn [find_first] in H.
  - destruct (here []) eqn:E; [|discriminate].
    inversion H; subst. simpl. auto.
  - destruct (here (x :: s)) eqn:E.
    + inversion H; subst. simpl. repeat split; auto. lia.
    + destruct (find_first here s) as [[b0 a]|] eqn:F; [|discriminate].
      inversion H; subst. destruct (IH b0 eq_refl) as (H1 & H2 & H3).
      cbn [length skipn firstn].
      repeat split; [exact H1 | f_equal; exact H2 | lia].
Qed.

Lemma find_first_none {B} (here : jsstring -> option B) s :
  find_first here s = None -> forall i, here (skipn i s) = None.
Proof.
  induction s as [|x s IH]; cbn [find_first]; intros H i.
  - rewrite skipn_nil. destruct (here []); [discriminate | reflexivity].
  - destruct (here (x :: s)) eqn:E; [discriminate|].
    destruct (find_first here s) as [[b0 a]|] eqn:F; [discriminate|].
    destruct i as [|i]; [exact E | apply IH; reflexivity].
Qed.

Lemma find_first_ext {B} (h1 h2 : jsstring -> option B) :
  (forall t, h1 t = h2 t) -> forall s, find_first h1 s = find_first h2 s.
Proof.
  intros H; induction s as [|x s IH]; cbn [find_first]; rewrite H.
  - reflexivity.
  - rewrite IH. reflexivity.
Qed.

Lemma find_first_map {B C} (f : B -> C) (here : jsstring -> option B) s :
  find_first (fun t => option_map f (here t)) s
  = option_map (fun p => (fst p, f (snd p))) (find_first here s).
Proof.
  induction s as [|x s IH]; cbn [find_first].
  - destruct (here []); reflexivity.
  - destruct (here (x :: s)); [reflexivity|]. cbn [option_map].
    rewrite IH. destruct (find_first here s) as [[b0 a]|]; reflexivity.
Qed.

Lemma find_ci_split w s before after :
  find_ci w s = Some (before, after) ->
  strip_prefix true w (skipn (length before) s) = Some after
  /\ before = firstn (length before) s.
Proof.
  intros H. apply find_first_split in H. tauto.
Qed.

Lemma lazy_scan_find w (g : jsstring -> jsstring -> mstate) (k : cont) cs :
  (forall s0, k (MState s0 cs)
     = match strip_prefix true w s0 with
       | Some s' => Some (g s0 s')
       | None => None
       end) ->
  forall s, lazy_scan k cs s
    = match find_ci w s with
      | Some (before, after) => Some (g (skipn (length before) s) after)
      | None => None
      end.
Proof.
  unfold find_ci.
  intros Hk; induction s as [|x s IH]; cbn [lazy_scan find_first]; rewrite Hk.
  - destruct (strip_prefix true w []); reflexivity.
  - destruct (strip_prefix true w (x :: s)); [reflexivity|].
    rewrite IH. destruct (find_first _ s) as [[b a]|]; reflexivity.
Qed.

Lemma canonicalize_lt ic x :
  (canonicalize ic x =? canonicalize ic ch_lt)%N = (x =? ch_lt)%N.
Proof.
  unfold canonicalize, ch_lt.
  replace (ic && (97 <=? 60) && (60 <=? 122))%N with false
    by (destruct ic; reflexivity).
  destruct (ic && (97 <=? x)%N && (x <=? 122)%N) eqn:E; [|reflexivity].
  apply andb_true_iff in E. destruct E as (E & _).
  apply andb_true_iff in E. destruct E as (_ & E). apply N.leb_le in E.
  transitivity false; [apply N.eqb_neq | symmetry; apply N.eqb_neq]; lia.
Qed.

Lemma canonicalize_gt ic x :
  (canonicalize ic x =? canonicalize ic ch_gt)%N = (x =? ch_gt)%N.
Proof.
  unfold canonicalize, ch_gt.
  replace (ic && (97 <=? 62) && (62 <=? 122))%N with false
    by (destruct ic; reflexivity).
  destruct (ic && (97 <=? x)%N && (x <=? 122)%N) eqn:E; [|reflexivity].
  apply andb_true_iff in E. destruct E as (E & _).
  apply andb_true_iff in E. destruct E as (_ & E). apply N.leb_le in E.
  transitivity false; [apply N.eqb_neq | symmetry; apply N.eqb_neq]; lia.
Qed.

Lemma matcher_trRe suf :
  matcher true (source trRe) Some (MState suf [])
  = match match_tr suf with
    | Some s2 => Some (MState s2 [])
    | None => None
    end.
Proof.
  unfold trRe, match_tr. cbn [source]. cbn [matcher].
  rewrite matcher_Lits. cbn [rest caps].
  destruct (strip_prefix true (js "<tr") suf) as [s1|]; [|reflexivity].
  change (matcher true (Star false (Class any_char))
            (matcher true (Lits (js "</tr>")) Some) (MState s1 [])
          = match
              match find_ci (js "</tr>") s1 with
              | Some (_, s2) => Some s2
              | None => None
              end
            with Some s2 => Some (MState s2 []) | None => None end).
  rewrite matcher_lazy_any. cbn [rest caps].
  rewrite (lazy_scan_find (js "</tr>") (fun _ s' => MState s' [])).
  - destruct (find_ci _ s1) as [[b a]|]; reflexivity.
  - intros s0. rewrite matcher_Lits. reflexivity.
Qed.

(** After the longest run without ['>'], a ['>'] is there or the input
    is over; a shorter run is followed by something else than ['>']. *)
Lemma greedy_scan_gt ic (k : cont) cs s :
  greedy_scan not_gt (matcher ic (Lit ch_gt) k) cs s
  = match split_gt s with
    | Some (_, s') => k (MState s' cs)
    | None => None
    end.
Proof.
  assert (Hnil : matcher ic (Lit ch_gt) k (MState [] cs) = None)
    by reflexivity.
  assert (Hcons : forall x s0, matcher ic (Lit ch_gt) k (MState (x :: s0) cs)
                    = if (x =? ch_gt)%N then k (MState s0 cs) else None).
  { intros x s0. cbn [matcher rest caps]. rewrite canonicalize_gt.
    reflexivity. }
  revert Hnil Hcons. generalize (matcher ic (Lit ch_gt) k) as k'.
  intros k' Hnil Hcons.
  induction s as [|x s IH]; cbn [greedy_scan split_gt].
  - exact Hnil.
  - unfold not_gt at 1. rewrite Hcons.
    destruct (x =? ch_gt)%N; cbn [negb]; [reflexivity|].
    rewrite IH. destruct (split_gt s) as [[a b]|]; [|reflexivity].
    destruct (k _); reflexivity.
Qed.

Lemma matcher_Seq ic r1 r2 k st :
  matcher ic (Seq r1 r2) k st = matcher ic r1 (matcher ic r2 k) st.
Proof. reflexivity. Qed.

Lemma matcher_Lit ic c k x xs cs :
  matcher ic (Lit c) k (MState (x :: xs) cs)
  = if (canonicalize ic x =? canonicalize ic c)%N
    then k (MState xs cs) else None.
Proof. reflexivity. Qed.

Lemma matcher_Class ic member k x xs cs :
  matcher ic (Class member) k (MState (x :: xs) cs)
  = if member x then k (MState xs cs) else None.
Proof. reflexivity. Qed.

Lemma matcher_Group ic n r k st :
  matcher ic (Group n r) k st
  = matcher ic r
      (fun st' =>
         k (MState (rest st')
              ((n, firstn (length (rest st) - length (rest st')) (rest st))
               :: caps st')))
      st.
Proof. reflexivity. Qed.

Lemma matcher_close kind cs s0 :
  capture 1 cs = Some kind ->
  matcher true (Seq (Lits (js "</")) (Seq (Backref 1) (Lit ch_gt))) Some
    (MState s0 cs)
  = match strip_prefix true (close_tag kind) s0 with
    | Some s' => Some (MState s' cs)
    | None => None
    end.
Proof.
  intros Hcap. unfold close_tag. rewrite strip_prefix_app.
  change (matcher true (Lits (js "</"))
            (matcher true (Seq (Backref 1) (Lit ch_gt)) Some) (MState s0 cs)
          = match
              match strip_prefix true (js "</") s0 with
              | Some s1 => strip_prefix true (kind ++ [ch_gt]) s1
              | None => None
              end
            with Some s' => Some (MState s' cs) | None => None end).
  rewrite matcher_Lits. cbn [rest caps].
  destruct (strip_prefix true (js "</") s0) as [sa|]; [|reflexivity].
  cbn [matcher rest caps]. rewrite Hcap, strip_prefix_app.
  destruct (strip_prefix true kind sa) as [sb|]; [|reflexivity].
  cbn [rest caps strip_prefix].
  destruct sb as [|x sc]; [reflexivity|].
  rewrite N.eqb_sym. destruct (_ =? _)%N; reflexivity.
Qed.

Lemma cell_kind_length s kind s1 :
  cell_kind s = Some (kind, s1) ->
  kind = firstn 2 s /\ length s = 2 + length s1.
Proof.
  unfold cell_kind. intros H.
  destruct (strip_prefix true (js "td") s) as [r|] eqn:E.
  - inversion H; subst. apply strip_prefix_length in E. auto.
  - destruct (strip_prefix true (js "th") s) as [r|] eqn:E'; [|discriminate].
    inversion H; subst. apply strip_prefix_length in E'. auto.
Qed.

Lemma strip_td_not_th s s1 :
  strip_prefix true (js "td") s = Some s1 ->
  strip_prefix true (js "th") s = None.
Proof.
  destruct s as [|a [|b s]]; cbn [js strip_prefix list_ascii_of_string map];
    try discriminate.
  - destruct (_ =? _)%N; discriminate.
  - destruct (_ =? canonicalize true a)%N; [|discriminate].
    change (canonicalize true (N_of_ascii "d")) with 68%N.
    change (canonicalize true (N_of_ascii "h")) with 72%N.
    destruct (68 =? canonicalize true b)%N eqn:E; [|discriminate].
    apply N.eqb_eq in E. rewrite <- E. reflexivity.
Qed.

Lemma matcher_cell_body kind s1 :
  matcher true
    (Seq (Star true (Class not_gt))
    (Seq (Lit ch_gt)
    (Seq (Group 2 (Star false (Class any_char)))
    (Seq (Lits (js "</"))
    (Seq (Backref 1) (Lit ch_gt))))))
    Some (MState s1 [(1, kind)])
  = cell_state (match_cell_body kind s1).
Proof.
  match goal with |- matcher true (Seq _ (Seq _ ?R3)) _ _ = _ =>
    set (r3 := R3) end.
  change (matcher true (Star true (Class not_gt))
            (matcher true (Lit ch_gt) (matcher true r3 Some))
            (MState s1 [(1, kind)])
          = cell_state (match_cell_body kind s1)).
  rewrite matcher_greedy_class, greedy_scan_gt. cbn [rest caps].
  unfold match_cell_body.
  destruct (split_gt s1) as [[attrs s2]|]; [|reflexivity].
  subst r3.
  match goal with |- matcher true (Seq _ ?R4) _ _ = _ => set (r4 := R4) end.
  rewrite matcher_Seq, matcher_Group, matcher_lazy_any. cbn [rest caps].
  rewrite (lazy_scan_find (close_tag kind)
             (fun s0 s' => MState s' [(2, firstn (length s2 - length s0) s2);
                                      (1, kind)])).
  - destruct (find_ci (close_tag kind) s2) as [[inner s3]|] eqn:F;
      [|reflexivity].
    apply find_ci_split in F. destruct F as (_ & F).
    cbn [cell_state]. rewrite length_skipn.
    assert (Hlen : length inner <= length s2).
    { rewrite F, length_firstn. lia. }
    replace (length s2 - (length s2 - length inner)) with (length inner)
      by lia.
    rewrite <- F. reflexivity.
  - intros s0. cbn [rest caps]. subst r4.
    apply matcher_close. reflexivity.
Qed.

Lemma matcher_cellRe suf :
  matcher true (source cellRe) Some (MState suf [])
  = cell_state (match_cell suf).
Proof.
  unfold cellRe, match_cell. cbn [source].
  destruct suf as [|c s0]; [reflexivity|].
  match goal with |- matcher true (Seq _ (Seq _ ?R2)) _ _ = _ =>
    set (r2 := R2) end.
  cbn [matcher rest caps]. rewrite canonicalize_lt.
  destruct (c =? ch_lt)%N; [|reflexivity].
  fold (matcher true (Lits (js "td"))). fold (matcher true (Lits (js "th"))).
  rewrite !matcher_Lits. cbn [rest caps].
  unfold cell_kind.
  destruct (strip_prefix true (js "td") s0) as [s1|] eqn:Etd.
  - rewrite (strip_td_not_th _ Etd).
    apply strip_prefix_length in Etd.
    replace (length s0 - length s1) with 2 by (simpl in Etd; lia).
    subst r2. rewrite matcher_cell_body.
    destruct (cell_state _); reflexivity.
  - destruct (strip_prefix true (js "th") s0) as [s1|] eqn:Eth;
      [|reflexivity].
    apply strip_prefix_length in Eth.
    replace (length s0 - length s1) with 2 by (simpl in Eth; lia).
    subst r2. apply matcher_cell_body.
Qed.

(** ** [exec] in terms of the first match *)

Lemma here_of_suffix re t st : here_of re t = Some st -> suffix_of (rest st) t.
Proof.
  unfold here_of. intros H. apply matcher_suffix in H.
  destruct H as (st' & Hs & H). inversion H; subst. exact Hs.
Qed.

Lemma search_find re : forall suf idx,
  search re idx suf
  = match find_first (here_of re) suf with
    | Some (before, st) =>
        let n := length suf - length before - length (rest st) in
        Some (MatchResult (idx + length before)
                (firstn n (skipn (length before) suf)) (caps st)
                (idx + length before + n))
    | None => None
    end.
Proof.
  induction suf as [|x suf IH]; intros idx; cbn [search find_first].
  - change (matcher _ _ _ (MState [] [])) with (here_of re []).
    destruct (here_of re []) as [st|]; [|reflexivity].
    cbn [length skipn]. f_equal. f_equal; try lia; try (f_equal; lia).
  - change (matcher _ _ _ (MState (x :: suf) [])) with (here_of re (x :: suf)).
    destruct (here_of re (x :: suf)) as [st|].
    + cbn [length skipn]. f_equal. f_equal; try lia; try (f_equal; lia).
    + rewrite IH. destruct (find_first (here_of re) suf) as [[b st]|];
        [|reflexivity].
      cbn [length skipn]. f_equal. f_equal; try lia.
Qed.

Lemma exec_at re pre suf :
  exec re (pre ++ suf) (length pre)
  = match search re (length pre) suf with
    | Some m => (Some m, endIndex m)
    | None => (None, 0)
    end.
Proof.
  unfold exec.
  replace (length (pre ++ suf) <? length pre) with false
    by (symmetry; apply Nat.ltb_ge; rewrite length_app; lia).
  rewrite skipn_app, skipn_all, Nat.sub_diag. reflexivity.
Qed.

Lemma exec_found re pre before mid after cs :
  find_first (here_of re) (before ++ mid ++ after)
    = Some (before, MState after cs) ->
  exec re (pre ++ before ++ mid ++ after) (length pre)
  = (Some (MatchResult (length pre + length before) mid cs
             (length pre + length before + length mid)),
     length pre + length before + length mid).
Proof.
  intros H. rewrite exec_at, search_find, H. cbn [rest caps endIndex].
  rewrite !length_app.
  replace (length before + (length mid + length after) - length before
           - length after) with (length mid) by lia.
  rewrite skipn_app, skipn_all, Nat.sub_diag. cbn [skipn app].
  rewrite firstn_app, firstn_all, Nat.sub_diag. cbn [firstn].
  rewrite app_nil_r. reflexivity.
Qed.

Lemma exec_not_found re pre suf :
  find_first (here_of re) suf = None ->
  exec re (pre ++ suf) (length pre) = (None, 0).
Proof.
  intros H. rewrite exec_at, search_find, H. reflexivity.
Qed.

(** What a successful [exec] found: the pattern matches at [index], the
    match ends at the new [lastIndex], and nothing matches in between the
    old [lastIndex] and [index]. *)
Lemma exec_inv re s li m li' :
  exec re s li = (Some m, li') ->
  li <= index m /\ index m <= li' /\ li' <= length s
  /\ matched m = firstn (li' - index m) (skipn (index m) s)
  /\ here_of re (skipn (index m) s) = Some (MState (skipn li' s) (groups m)).
Proof.
  intros H. pose proof (exec_bounds _ _ _ H) as (H1 & H2 & H3 & H4 & H5).
  repeat split; try assumption.
  unfold exec in H. destruct (length s <? li) eqn:E; [discriminate|].
  apply Nat.ltb_ge in E.
  rewrite search_find in H.
  destruct (find_first (here_of re) (skipn li s)) as [[before st]|] eqn:F;
    [|discriminate].
  apply find_first_split in F. destruct F as (F1 & F2 & F3).
  rewrite skipn_skipn in F1.
  pose proof (here_of_suffix _ _ F1) as Hsuf.
  apply suffix_of_skipn in Hsuf. rewrite skipn_skipn, !length_skipn in Hsuf.
  cbn zeta in H. inversion H; subst m li'; clear H.
  cbn [index groups endIndex] in *.
  rewrite length_skipn in *.
  replace (length before + li) with (li + length before) in * by lia.
  rewrite F1. f_equal. destruct st as [r cs]; cbn [rest caps] in *.
  f_equal. rewrite Hsuf at 1. f_equal.
  pose proof (f_equal (@length _) Hsuf) as Hl. rewrite length_skipn in Hl.
  lia.
Qed.

(** ** [replace] in terms of the first match *)

(** [replace] scans the input from left to right: the text before the
    first match, the replacement, and the same for what follows the
    match. The pattern is given by what it matches at the head of a text,
    [here], and matches no empty text. *)
Lemma replace_find re (here : jsstring -> option jsstring) repl
    (F : jsstring -> jsstring) :
  (forall t, option_map rest (here_of re t) = here t) ->
  (forall t r, here t = Some r -> length r < length t) ->
  (forall t, F t = match find_first here t with
                   | Some (before, after) => before ++ repl ++ F after
                   | None => t
                   end) ->
  forall s, replace re repl s = F s.
Proof.
  intros Hhere Hprog HF.
  assert (H : forall n suf pre, length suf <= n ->
    substitute (pre ++ suf) repl
      (replace_matches re (pre ++ suf) (length pre)) (length pre) = F suf).
  { induction n as [|n IH]; intros suf pre Hlen.
    - destruct suf; [|simpl in Hlen; lia].
      rewrite replace_matches_step, (exec_not_found re pre []).
      + cbn [substitute]. rewrite app_nil_r, skipn_all. rewrite HF.
        cbn [find_first]. destruct (here []) eqn:E; [|reflexivity].
        apply Hprog in E. simpl in E. lia.
      + cbn [find_first]. destruct (here_of re []) eqn:E; [|reflexivity].
        pose proof (Hhere []) as Hh. rewrite E in Hh. cbn in Hh.
        symmetry in Hh. apply Hprog in Hh. simpl in Hh. lia.
    - rewrite HF, replace_matches_step.
      rewrite <- (find_first_ext _ _ Hhere), find_first_map.
      destruct (find_first (here_of re) suf) as [[before st]|] eqn:Ef.
      + cbn [option_map fst snd].
        pose proof (find_first_split _ _ Ef) as (F1 & F2 & F3).
        pose proof (here_of_suffix _ _ F1) as (mid & Hmid).
        assert (Hsuf : suf = before ++ mid ++ rest st).
        { rewrite <- Hmid, F2 at 1. rewrite F2 at 2.
          rewrite length_firstn, Nat.min_l by lia.
          symmetry; apply firstn_skipn. }
        assert (Hpos : length (rest st) < length (skipn (length before) suf)).
        { apply Hprog. rewrite <- Hhere, F1. reflexivity. }
        rewrite Hmid, length_app in Hpos.
        destruct st as [after cs]; cbn [rest] in *.
        rewrite Hsuf in Ef |- *.
        rewrite (@exec_found re pre _ _ _ _ Ef).
        cbn [matched substitute index].
        destruct mid as [|c mid]; [simpl in Hpos; lia|].
        replace (length pre <=? length pre + length before) with true
          by (symmetry; apply Nat.leb_le; lia).
        rewrite skipn_app, skipn_all, Nat.sub_diag. cbn [skipn app].
        replace (length pre + length before - length pre)
          with (length before) by lia.
        rewrite firstn_app, firstn_all, Nat.sub_diag. cbn [firstn].
        rewrite app_nil_r. f_equal. f_equal.
        specialize (IH after (pre ++ before ++ c :: mid)).
        replace ((pre ++ before ++ c :: mid) ++ after)
          with (pre ++ before ++ c :: mid ++ after) in IH
          by (rewrite <- !app_assoc; reflexivity).
        replace (length pre + length before + length (c :: mid))
          with (length (pre ++ before ++ c :: mid))
          by (rewrite !length_app; lia).
        apply IH. rewrite Hsuf, !length_app in Hlen.
        cbn [length] in Hlen. lia.
      + cbn [option_map].
        rewrite (exec_not_found re pre suf Ef). cbn [substitute].
        rewrite skipn_app, skipn_all, Nat.sub_diag. reflexivity. }
  intros s. unfold replace. apply (H (length s) s []). lia.
Qed.

(** ** The Markup Normalizer, in the words of the specification *)

Lemma here_of_tagRe t : option_map rest (here_of tagRe t) = here_tag t.
Proof.
  unfold here_of, tagRe, here_tag. cbn [source ignoreCase].
  destruct t as [|c s0]; [reflexivity|].
  rewrite matcher_Seq, matcher_Lit, canonicalize_lt. unfold is_lt.
  destruct (c =? ch_lt)%N; [|reflexivity].
  rewrite matcher_Seq, matcher_greedy_class, greedy_scan_gt.
  cbn [rest caps]. destruct (split_gt s0) as [[a b]|]; reflexivity.
Qed.

Lemma greedy_scan_space cs s :
  greedy_scan is_space Some cs s = Some (MState (drop_space s) cs).
Proof.
  induction s as [|x s IH]; cbn [greedy_scan drop_space]; [reflexivity|].
  destruct (is_space x); [|reflexivity]. rewrite IH. reflexivity.
Qed.

Lemma here_of_spaceRe t : option_map rest (here_of spaceRe t) = here_space t.
Proof.
  unfold here_of, spaceRe, here_space, Plus. cbn [source ignoreCase].
  destruct t as [|c s0]; [reflexivity|].
  rewrite matcher_Seq, matcher_Class.
  destruct (is_space c); [|reflexivity].
  rewrite matcher_greedy_class, greedy_scan_space. reflexivity.
Qed.

Lemma split_gt_length s a b : split_gt s = Some (a, b) -> length b < length s.
Proof.
  revert a; induction s as [|x s IH]; intros a H; cbn [split_gt] in H;
    [discriminate|].
  destruct (x =? ch_gt)%N.
  - inversion H; subst. simpl; lia.
  - destruct (split_gt s) as [[a' b']|]; [|discriminate].
    inversion H; subst. specialize (IH a' eq_refl). simpl; lia.
Qed.

Lemma split_gt_exists s :
  existsb is_gt s = match split_gt s with Some _ => true | None => false end.
Proof.
  induction s as [|x s IH]; cbn [existsb split_gt]; [reflexivity|].
  unfold is_gt at 1. destruct (x =? ch_gt)%N; [reflexivity|].
  rewrite IH. destruct (split_gt s) as [[a b]|]; reflexivity.
Qed.

Lemma drop_space_length s : length (drop_space s) <= length s.
Proof.
  induction s as [|x s IH]; cbn [drop_space]; [lia|].
  destruct (is_space x); simpl; lia.
Qed.

Lemma strip_tags_in_tag repl s a b :
  split_gt s = Some (a, b) ->
  strip_tags repl true s = strip_tags repl false b.
Proof.
  revert a; induction s as [|x s IH]; intros a H; cbn [split_gt] in H;
    [discriminate|].
  cbn [strip_tags]. unfold is_gt. destruct (x =? ch_gt)%N.
  - inversion H; subst. reflexivity.
  - destruct (split_gt s) as [[a' b']|]; [|discriminate].
    inversion H; subst. apply (IH a'). reflexivity.
Qed.

Lemma strip_tags_find repl t :
  strip_tags repl false t
  = match find_first here_tag t with
    | Some (before, after) => before ++ repl ++ strip_tags repl false after
    | None => t
    end.
Proof.
  induction t as [|c r IH]; [reflexivity|].
  cbn [strip_tags find_first here_tag]. rewrite split_gt_exists.
  destruct (is_lt c); cbn [andb].
  - destruct (split_gt r) as [[a b]|] eqn:E.
    + cbn [app]. rewrite (strip_tags_in_tag repl _ E). reflexivity.
    + rewrite IH. destruct (find_first here_tag r) as [[b0 a0]|]; reflexivity.
  - rewrite IH. destruct (find_first here_tag r) as [[b0 a0]|]; reflexivity.
Qed.

Lemma collapse_space_prev s :
  collapse_space true s = collapse_space false (drop_space s).
Proof.
  induction s as [|x s IH]; [reflexivity|].
  cbn [collapse_space drop_space].
  destruct (is_space x) eqn:E; [exact IH|].
  cbn [collapse_space]. rewrite E. reflexivity.
Qed.

Lemma collapse_space_find t :
  collapse_space false t
  = match find_first here_space t with
    | Some (before, after) => before ++ js " " ++ collapse_space false after
    | None => t
    end.
Proof.
  induction t as [|c r IH]; [reflexivity|].
  cbn [collapse_space find_first here_space].
  destruct (is_space c).
  - cbn [app]. rewrite collapse_space_prev. reflexivity.
  - rewrite IH. destruct (find_first here_space r) as [[b0 a0]|]; reflexivity.
Qed.

Lemma replace_tagRe repl s : replace tagRe repl s = strip_tags repl false s.
Proof.
  apply (replace_find tagRe here_tag).
  - apply here_of_tagRe.
  - intros [|c t] r H; cbn [here_tag] in H; [discriminate|].
    destruct (is_lt c); [|discriminate].
    destruct (split_gt t) as [[a b]|] eqn:E; [|discriminate].
    inversion H; subst. apply split_gt_length in E. simpl; lia.
  - apply strip_tags_find.
Qed.

Lemma replace_spaceRe s :
  replace spaceRe (js " ") s = collapse_space false s.
Proof.
  apply (replace_find spaceRe here_space).
  - apply here_of_spaceRe.
  - intros [|c t] r H; cbn [here_space] in H; [discriminate|].
    destruct (is_space c); [|discriminate].
    inversion H; subst. pose proof (drop_space_length t). simpl; lia.
  - apply collapse_space_find.
Qed.

(** ** What the normalised text looks like *)

Lemma no_tag_sound o : no_tag o = true -> ~ has_tag o.
Proof.
  intros H (a & b & c & ->). revert H.
  induction a as [|x a IH]; cbn [app no_tag].
  - unfold is_lt at 1. rewrite N.eqb_refl, existsb_app. cbn [existsb].
    unfold is_gt at 2. rewrite N.eqb_refl, orb_true_r. discriminate.
  - intros H. apply andb_true_iff in H. tauto.
Qed.

Lemma no_run_sound o : no_run o = true -> ~ has_space_run o.
Proof.
  intros H (a & x & y & b & -> & Hx & Hy). revert H.
  induction a as [|z a IH]; cbn [app no_run head_space].
  - rewrite Hx, Hy. discriminate.
  - intros H. apply andb_true_iff in H. tauto.
Qed.

Lemma space_not_angle c : is_space c = true -> is_lt c = false /\ is_gt c = false.
Proof.
  intros H. unfold is_lt, is_gt, ch_lt, ch_gt.
  split; apply N.eqb_neq; intros ->; vm_compute in H; discriminate.
Qed.

Lemma strip_tags_no_gt repl r :
  existsb is_gt r = false -> strip_tags repl false r = r.
Proof.
  induction r as [|c r IH]; [reflexivity|].
  cbn [existsb strip_tags]. intros H. apply orb_false_iff in H.
  destruct H as (_ & H). rewrite H, andb_false_r, IH; auto.
Qed.

Lemma no_tag_strip_tags s : forall in_tag,
  no_tag (strip_tags (js " ") in_tag s) = true.
Proof.
  induction s as [|c r IH]; intros in_tag; [destruct in_tag; reflexivity|].
  cbn [strip_tags]. destruct in_tag.
  - destruct (is_gt c); apply IH.
  - destruct (is_lt c && existsb is_gt r) eqn:E.
    + change (js " " ++ strip_tags (js " ") true r)
        with (ch_sp :: strip_tags (js " ") true r).
      cbn [no_tag]. rewrite IH. reflexivity.
    + cbn [no_tag]. rewrite IH, andb_true_r.
      apply andb_false_iff in E. destruct E as [E|E].
      * rewrite E. reflexivity.
      * rewrite (strip_tags_no_gt _ _ E), E, andb_false_r. reflexivity.
Qed.

Lemma existsb_gt_collapse t : forall prev,
  existsb is_gt (collapse_space prev t) = existsb is_gt t.
Proof.
  induction t as [|c r IH]; intros prev; [reflexivity|].
  cbn [collapse_space]. destruct (is_space c) eqn:E.
  - apply space_not_angle in E. destruct E as (_ & E).
    cbn [existsb]. rewrite E. destruct prev; cbn [existsb]; apply IH.
  - cbn [existsb]. rewrite IH. reflexivity.
Qed.

Lemma no_tag_collapse t : forall prev,
  no_tag (collapse_space prev t) = no_tag t.
Proof.
  induction t as [|c r IH]; intros prev; [reflexivity|].
  cbn [collapse_space]. destruct (is_space c) eqn:E.
  - apply space_not_angle in E. destruct E as (E & _).
    cbn [no_tag]. rewrite E. destruct prev; cbn [no_tag andb negb]; apply IH.
  - cbn [no_tag]. rewrite IH, existsb_gt_collapse. reflexivity.
Qed.

Lemma head_space_collapse t : head_space (collapse_space true t) = false.
Proof.
  induction t as [|c r IH]; [reflexivity|].
  cbn [collapse_space]. destruct (is_space c) eqn:E; [exact IH|].
  cbn [head_space]. exact E.
Qed.

Lemma no_run_collapse t : forall prev, no_run (collapse_space prev t) = true.
Proof.
  induction t as [|c r IH]; intros prev; [reflexivity|].
  cbn [collapse_space]. destruct (is_space c) eqn:E.
  - destruct prev; [apply IH|].
    cbn [no_run]. rewrite head_space_collapse, andb_false_r, IH. reflexivity.
  - cbn [no_run]. rewrite E, IH. reflexivity.
Qed.

Lemma drop_space_split s : exists w, s = w ++ drop_space s.
Proof.
  induction s as [|x s (w & IH)]; [exists []; reflexivity|].
  cbn [drop_space]. destruct (is_space x).
  - exists (x :: w). cbn [app]. f_equal. exact IH.
  - exists []. reflexivity.
Qed.

Lemma trim_split s : exists w1 w2, s = w1 ++ trim s ++ w2.
Proof.
  unfold trim. destruct (drop_space_split s) as (w1 & H1).
  destruct (drop_space_split (rev (drop_space s))) as (w2 & H2).
  exists w1, (rev w2). rewrite <- rev_app_distr, <- H2, rev_involutive.
  exact H1.
Qed.

Lemma has_tag_infix a o b : has_tag o -> has_tag (a ++ o ++ b).
Proof.
  intros (x & y & z & ->). exists (a ++ x), y, (z ++ b).
  rewrite <- !app_assoc. cbn [app]. rewrite <- !app_assoc. reflexivity.
Qed.

Lemma has_space_run_infix a o b :
  has_space_run o -> has_space_run (a ++ o ++ b).
Proof.
  intros (p & x & y & q & -> & Hx & Hy). exists (a ++ p), x, y, (q ++ b).
  rewrite <- !app_assoc. cbn [app]. auto.
Qed.

(** What [normalize] computes, as one scan for each of its three steps. *)
Lemma normalize_eq s :
  normalize s = trim (collapse_space false (strip_tags (js " ") false s)).
Proof.
  unfold normalize. rewrite replace_tagRe, replace_spaceRe. reflexivity.
Qed.

(** ** The loops of [parseTableHtmlToArray] *)

Lemma while_exec_successive {A} re s (body : match_result -> A -> option A)
    li ms :
  successive re s li ms ->
  forall acc, while_exec re s body li acc = run_body body ms acc.
Proof.
  induction 1 as [li li' He | li m li' ms He Hlt Hs IH]; intros acc;
    rewrite while_exec_step, He.
  - reflexivity.
  - replace (li <? li') with true by (symmetry; apply Nat.ltb_lt; exact Hlt).
    cbn [run_body]. destruct (body m acc); [apply IH | reflexivity].
Qed.

(** A pattern that matches no empty text makes the loop end. *)
Lemma successive_total re s :
  (forall t st, here_of re t = Some st -> length (rest st) < length t) ->
  forall li, exists ms, successive re s li ms.
Proof.
  intros Hprog.
  assert (H : forall n li, length s + 1 - li <= n ->
                exists ms, successive re s li ms).
  { induction n as [|n IH]; intros li Hn.
    - exists []. apply successive_done with (li' := 0).
      unfold exec. replace (length s <? li) with true
        by (symmetry; apply Nat.ltb_lt; lia). reflexivity.
    - destruct (exec re s li) as [[m|] li'] eqn:He.
      + pose proof (exec_inv _ _ _ He) as (H1 & H2 & H3 & H4 & H5).
        apply Hprog in H5. cbn [rest] in H5. rewrite !length_skipn in H5.
        destruct (IH li') as (ms & Hms); [lia|].
        exists (m :: ms). eapply successive_next; eauto. lia.
      + exists []. eapply successive_done; eauto. }
  intros li. apply (H (length s + 1 - li)). lia.
Qed.

Lemma successive_unique re s li ms1 :
  successive re s li ms1 -> forall ms2, successive re s li ms2 -> ms1 = ms2.
Proof.
  induction 1 as [li li' He | li m li' ms He Hlt Hs IH]; intros ms2 H2;
    inversion H2; subst; try congruence.
  match goal with
  | H : exec re s li = (Some ?m', ?l') |- _ =>
      rewrite He in H; inversion H; subst
  end.
  f_equal. apply IH. assumption.
Qed.

Lemma run_push_cell cs : forall acc,
  run_body push_cell cs acc = Some (acc ++ map cell_text cs).
Proof.
  induction cs as [|c cs IH]; intros acc; cbn [run_body map].
  - rewrite app_nil_r. reflexivity.
  - unfold push_cell at 1. rewrite IH, <- app_assoc. reflexivity.
Qed.

Lemma push_row_successive tr cs rows :
  successive cellRe (matched tr) 0 cs ->
  push_row tr rows = Some (rows ++ rows_of [cs]).
Proof.
  intros H. unfold push_row.
  rewrite (while_exec_successive push_cell H), run_push_cell.
  cbn [app]. unfold rows_of. cbn [filter]. rewrite length_map.
  destruct (0 <? length cs); cbn [map]; [reflexivity|].
  rewrite app_nil_r. reflexivity.
Qed.

Lemma run_push_row trs cellss :
  Forall2 (fun tr cs => successive cellRe (matched tr) 0 cs) trs cellss ->
  forall rows, run_body push_row trs rows = Some (rows ++ rows_of cellss).
Proof.
  induction 1 as [|tr cs trs cellss H _ IH]; intros rows; cbn [run_body].
  - unfold rows_of. cbn. rewrite app_nil_r. reflexivity.
  - rewrite (push_row_successive _ _ H), IH, <- app_assoc. f_equal. f_equal.
    unfold rows_of. cbn [filter].
    destruct (0 <? length cs); reflexivity.
Qed.

Lemma trRe_progress t st :
  here_of trRe t = Some st -> length (rest st) < length t.
Proof.
  unfold here_of. cbn [ignoreCase]. rewrite matcher_trRe. unfold match_tr.
  destruct (strip_prefix true (js "<tr") t) as [s1|] eqn:E1; [|discriminate].
  destruct (find_ci (js "</tr>") s1) as [[b s2]|] eqn:E2; [|discriminate].
  intros H; inversion H; subst; clear H. cbn [rest].
  apply strip_prefix_length in E1.
  apply find_first_split in E2. destruct E2 as (E2 & _ & _).
  apply strip_prefix_length in E2. rewrite length_skipn in E2.
  change (length (js "<tr")) with 3 in E1. lia.
Qed.

Lemma cellRe_progress t st :
  here_of cellRe t = Some st -> length (rest st) < length t.
Proof.
  intros H. pose proof (here_of_suffix _ _ H) as Hs.
  apply suffix_of_length in Hs.
  unfold here_of in H. cbn [ignoreCase] in H. rewrite matcher_cellRe in H.
  destruct t as [|c t]; [discriminate|].
  cbn [match_cell] in H. destruct (c =? ch_lt)%N; [|discriminate].
  destruct (cell_kind t) as [[kind s1]|] eqn:Ek; [|discriminate].
  apply cell_kind_length in Ek. destruct Ek as (_ & Ek).
  unfold match_cell_body in H.
  destruct (split_gt s1) as [[attrs s2]|] eqn:Eg; [|discriminate].
  apply split_gt_length in Eg.
  destruct (find_ci (close_tag kind) s2) as [[inner s3]|] eqn:Ef;
    [|discriminate].
  apply find_first_split in Ef. destruct Ef as (Ef & _ & _).
  apply strip_prefix_length in Ef. rewrite length_skipn in Ef.
  inversion H; subst. cbn [rest length]. lia.
Qed.

(** The rows returned when the loops go through the row segments [trs]
    and the cell segments [cellss]. *)
Lemma parse_of_successive (tableHtml : jsstring) trs cellss :
  successive trRe tableHtml 0 trs ->
  Forall2 (fun tr cs => successive cellRe (matched tr) 0 cs) trs cellss ->
  parseTableHtmlToArray (Some tableHtml) = Some (rows_of cellss).
Proof.
  intros Htrs Hc.
  unfold parseTableHtmlToArray. destruct tableHtml as [|c t].
  - inversion Htrs; subst.
    + inversion Hc; subst. reflexivity.
    + match goal with H : exec _ [] 0 = (Some _, _) |- _ =>
        vm_compute in H; discriminate end.
  - rewrite (while_exec_successive push_row Htrs), (run_push_row Hc).
    reflexivity.
Qed.

(** The loops of the parser end, on the row segments [trs] of the markup
    and the cell segments [cellss] of each, and the rows returned are
    those of the segments with cells. *)
Lemma parse_segments (tableHtml : jsstring) :
  exists trs cellss,
    successive trRe tableHtml 0 trs
    /\ Forall2 (fun tr cs => successive cellRe (matched tr) 0 cs) trs cellss
    /\ parseTableHtmlToArray (Some tableHtml) = Some (rows_of cellss).
Proof.
  destruct (@successive_total trRe tableHtml trRe_progress 0) as (trs & Htrs).
  assert (Hcells : forall trs : list match_result, exists cellss,
    Forall2 (fun tr cs => successive cellRe (matched tr) 0 cs) trs cellss).
  { induction trs0 as [|tr trs0 (cellss & IH)].
    - exists []. constructor.
    - destruct (@successive_total cellRe (matched tr) cellRe_progress 0)
        as (cs & Hcs).
      exists (cs :: cellss). constructor; assumption. }
  destruct (Hcells trs) as (cellss & Hc).
  exists trs, cellss. repeat split; try assumption.
  apply (parse_of_successive Htrs Hc).
Qed.

(** ** Where the segments are, and what they look like *)

Lemma successive_facts re s :
  (forall t st, here_of re t = Some st -> length (rest st) < length t) ->
  forall li ms, successive re s li ms ->
    Forall (fun m => li <= index m) ms
    /\ document_order s ms
    /\ Forall (fun m => exists after,
                 here_of re (matched m ++ after) = Some (MState after (groups m))
                 /\ skipn (index m) s = matched m ++ after) ms.
Proof.
  intros Hprog li ms H.
  induction H as [li li' He | li m li' ms He Hlt Hs (IH1 & (IH2 & IH3) & IH4)].
  - repeat split; constructor.
  - pose proof (exec_bounds _ _ _ He) as (_ & _ & _ & Hend & _).
    pose proof (exec_inv _ _ _ He) as (H1 & H2 & H3 & H4 & H5).
    pose proof (Hprog _ _ H5) as Hp. cbn [rest] in Hp.
    rewrite !length_skipn in Hp. subst li'.
    assert (Hsplit : skipn (index m) s = matched m ++ skipn (endIndex m) s).
    { rewrite H4.
      replace (skipn (endIndex m) s)
        with (skipn (endIndex m - index m) (skipn (index m) s))
        by (rewrite skipn_skipn; f_equal; lia).
      symmetry; apply firstn_skipn. }
    repeat split.
    + constructor; [lia|]. eapply Forall_impl; [|exact IH1].
      cbn beta. intros; lia.
    + constructor; [|exact IH2]. repeat split; [lia | lia | exact H4].
    + constructor; [exact IH3 | exact IH1].
    + constructor; [|exact IH4].
      exists (skipn (endIndex m) s). rewrite <- Hsplit. auto.
Qed.

Lemma strip_prefix_same ic w s s' :
  strip_prefix ic w s = Some s' ->
  exists p, s = p ++ s'
            /\ map (canonicalize ic) p = map (canonicalize ic) w.
Proof.
  revert s; induction w as [|a w IH]; intros s H.
  - simpl in H. inversion H. exists []. auto.
  - destruct s as [|b s]; cbn [strip_prefix] in H; [discriminate|].
    destruct (_ =? _)%N eqn:E; [|discriminate]. apply N.eqb_eq in E.
    apply IH in H. destruct H as (p & -> & Hp).
    exists (b :: p). cbn [map app]. rewrite Hp, E. auto.
Qed.

Lemma find_ci_parts w s before after :
  find_ci w s = Some (before, after) ->
  exists close, s = before ++ close ++ after /\ same_ci close w.
Proof.
  intros H. apply find_first_split in H. destruct H as (H1 & H2 & H3).
  apply strip_prefix_same in H1. destruct H1 as (p & Hp & Hc).
  exists p. split; [|exact Hc].
  rewrite <- Hp, H2 at 1. rewrite H2 at 2.
  rewrite length_firstn, Nat.min_l by lia.
  symmetry; apply firstn_skipn.
Qed.

Lemma split_gt_parts s attrs after :
  split_gt s = Some (attrs, after) ->
  s = attrs ++ ch_gt :: after /\ ~ In ch_gt attrs.
Proof.
  revert attrs; induction s as [|x s IH]; intros attrs H;
    cbn [split_gt] in H; [discriminate|].
  destruct (x =? ch_gt)%N eqn:E.
  - apply N.eqb_eq in E. inversion H; subst. split; [reflexivity | tauto].
  - apply N.eqb_neq in E.
    destruct (split_gt s) as [[a b]|]; [|discriminate].
    inversion H; subst. destruct (IH a eq_refl) as (-> & Hn).
    split; [reflexivity|]. intros [Hx | Hi]; [congruence | tauto].
Qed.

Lemma here_trRe_shape seg after cs :
  here_of trRe (seg ++ after) = Some (MState after cs) ->
  is_row_segment seg.
Proof.
  unfold here_of. cbn [ignoreCase]. rewrite matcher_trRe. unfold match_tr.
  destruct (strip_prefix true (js "<tr") (seg ++ after)) as [s1|] eqn:E1;
    [|discriminate].
  destruct (find_ci (js "</tr>") s1) as [[b s2]|] eqn:E2; [|discriminate].
  intros H; inversion H; subst s2 cs; clear H.
  apply strip_prefix_same in E1. destruct E1 as (open & Ho & Hoc).
  apply find_ci_parts in E2. destruct E2 as (close & Hs1 & Hcc).
  exists open, b, close. repeat split; try assumption.
  apply (app_inv_tail after). rewrite Ho, Hs1, <- !app_assoc. reflexivity.
Qed.

Lemma cell_kind_parts s kind s1 :
  cell_kind s = Some (kind, s1) ->
  s = kind ++ s1 /\ (same_ci kind (js "td") \/ same_ci kind (js "th")).
Proof.
  unfold cell_kind. intros H.
  destruct (strip_prefix true (js "td") s) as [r|] eqn:E.
  - inversion H; subst. pose proof (strip_prefix_split _ _ _ E) as (Hs & _).
    apply strip_prefix_same in E. destruct E as (p & Hp & Hc).
    assert (firstn 2 s = p).
    { rewrite Hp. apply (f_equal (@length _)) in Hc. rewrite !length_map in Hc.
      change (length (js "td")) with 2 in Hc. rewrite <- Hc.
      rewrite firstn_app, firstn_all, Nat.sub_diag. cbn [firstn].
      apply app_nil_r. }
    split; [exact Hs | left; congruence].
  - destruct (strip_prefix true (js "th") s) as [r|] eqn:E'; [|discriminate].
    inversion H; subst. pose proof (strip_prefix_split _ _ _ E') as (Hs & _).
    apply strip_prefix_same in E'. destruct E' as (p & Hp & Hc).
    assert (firstn 2 s = p).
    { rewrite Hp. apply (f_equal (@length _)) in Hc. rewrite !length_map in Hc.
      change (length (js "th")) with 2 in Hc. rewrite <- Hc.
      rewrite firstn_app, firstn_all, Nat.sub_diag. cbn [firstn].
      apply app_nil_r. }
    split; [exact Hs | right; congruence].
Qed.

Lemma here_cellRe_shape seg after cs :
  here_of cellRe (seg ++ after) = Some (MState after cs) ->
  is_cell_segment seg
    (normalize match capture 2 cs with Some w => w | None => [] end).
Proof.
  unfold here_of. cbn [ignoreCase]. rewrite matcher_cellRe.
  destruct (seg ++ after) as [|c t] eqn:Et; [discriminate|].
  cbn [match_cell]. destruct (c =? ch_lt)%N eqn:Ec; [|discriminate].
  apply N.eqb_eq in Ec. subst c.
  destruct (cell_kind t) as [[kind s1]|] eqn:Ek; [|discriminate].
  unfold match_cell_body.
  destruct (split_gt s1) as [[attrs s2]|] eqn:Eg; [|discriminate].
  destruct (find_ci (close_tag kind) s2) as [[inner s3]|] eqn:Ef;
    [|discriminate].
  cbn [cell_state]. intros H; inversion H; subst s3 cs; clear H.
  apply cell_kind_parts in Ek. destruct Ek as (Ht & Hk).
  apply split_gt_parts in Eg. destruct Eg as (Hs1 & Hattrs).
  apply find_ci_parts in Ef. destruct Ef as (close & Hs2 & Hclose).
  exists kind, attrs, inner, close. cbn [capture Nat.eqb].
  repeat split; try assumption.
  apply (app_inv_tail after). rewrite Et, Ht, Hs1, Hs2.
  cbn [app]. rewrite <- !app_assoc. cbn [app]. rewrite <- !app_assoc.
  reflexivity.
Qed.

Lemma rows_of_nonempty cellss : Forall (fun row => row <> []) (rows_of cellss).
Proof.
  unfold rows_of. apply Forall_forall. intros row Hin.
  apply in_map_iff in Hin. destruct Hin as (cs & <- & Hin).
  apply filter_In in Hin. destruct Hin as (_ & Hlen).
  destruct cs; [discriminate | discriminate].
Qed.

Lemma successive_cells_facts trs cellss :
  Forall2 (fun tr cs => successive cellRe (matched tr) 0 cs) trs cellss ->
  Forall2 (fun tr cs => document_order (matched tr) cs) trs cellss
  /\ Forall (Forall (fun c => is_cell_segment (matched c) (cell_text c)))
       cellss.
Proof.
  induction 1 as [|tr cs trs cellss H _ (IH1 & IH2)].
  - split; constructor.
  - pose proof (successive_facts cellRe_progress H) as (_ & Ho & Hm).
    split; constructor; try assumption.
    eapply Forall_impl; [|exact Hm]. cbn beta.
    intros c (after & Hc & _). apply here_cellRe_shape in Hc. exact Hc.
Qed.

Lemma strip_prefix_same_conv w close q :
  same_ci close w -> strip_prefix true w (close ++ q) = Some q.
Proof.
  unfold same_ci. revert close; induction w as [|a w IH]; intros close H.
  - destruct close; [reflexivity | discriminate].
  - destruct close as [|b close]; [discriminate|].
    cbn [map] in H. inversion H as [[Hb Hrest]].
    cbn [app strip_prefix]. rewrite Hb, N.eqb_refl. apply IH. exact Hrest.
Qed.

Lemma find_ci_occurs w p close q :
  same_ci close w -> find_ci w (p ++ close ++ q) <> None.
Proof.
  intros Hc Hn. apply find_first_none with (i := length p) in Hn.
  rewrite skipn_app, skipn_all, Nat.sub_diag in Hn. cbn [skipn app] in Hn.
  rewrite (strip_prefix_same_conv _ Hc) in Hn. discriminate.
Qed.

Lemma located_infix s m :
  located s m -> exists p q, s = p ++ matched m ++ q.
Proof.
  intros (H1 & H2 & H3).
  exists (firstn (index m) s), (skipn (endIndex m) s).
  rewrite H3.
  replace (skipn (endIndex m) s)
    with (skipn (endIndex m - index m) (skipn (index m) s))
    by (rewrite skipn_skipn; f_equal; lia).
  rewrite firstn_skipn, firstn_skipn. reflexivity.
Qed.

Lemma close_tag_same kind w :
  same_ci kind w -> same_ci (close_tag kind) (close_tag w).
Proof.
  unfold same_ci, close_tag. intros H. rewrite !map_app, H. reflexivity.
Qed.

Lemma same_ci_trans a b c : same_ci a b -> same_ci b c -> same_ci a c.
Proof. unfold same_ci; congruence. Qed.

(** Without a closing row tag there is no row segment. *)
Lemma no_close_tr_no_segment s trs :
  find_ci (js "</tr>") s = None -> successive trRe s 0 trs -> trs = [].
Proof.
  intros Hn H. destruct trs as [|m trs]; [reflexivity|]. exfalso.
  pose proof (successive_facts trRe_progress H) as (_ & (Hl & _) & Hm).
  inversion Hl as [|? ? Hloc _]; subst. inversion Hm as [|? ? (after & Hh & _) _]; subst.
  apply here_trRe_shape in Hh. destruct Hh as (open & body & close & Hseg & _ & Hc).
  apply located_infix in Hloc. destruct Hloc as (p & q & Hs).
  revert Hn. rewrite Hs, Hseg.
  replace (p ++ (open ++ body ++ close) ++ q)
    with ((p ++ open ++ body) ++ close ++ q)
    by (rewrite <- !app_assoc; reflexivity).
  apply find_ci_occurs. exact Hc.
Qed.

(** Without a closing cell tag there is no cell segment. *)
Lemma no_close_cell_no_segment s cs :
  find_ci (js "</td>") s = None -> find_ci (js "</th>") s = None ->
  successive cellRe s 0 cs -> cs = [].
Proof.
  intros Hd Hh H. destruct cs as [|m cs]; [reflexivity|]. exfalso.
  pose proof (successive_facts cellRe_progress H) as (_ & (Hl & _) & Hm).
  inversion Hl as [|? ? Hloc _]; subst.
  inversion Hm as [|? ? (after & Hc & _) _]; subst.
  apply here_cellRe_shape in Hc.
  destruct Hc as (kind & attrs & inner & close & Hseg & Hk & _ & Hclose & _).
  apply located_infix in Hloc. destruct Hloc as (p & q & Hs).
  assert (Hrew : s = (p ++ ch_lt :: kind ++ attrs ++ ch_gt :: inner)
                     ++ close ++ q).
  { rewrite Hs, Hseg. rewrite <- !app_assoc. cbn [app].
    rewrite <- !app_assoc. cbn [app]. rewrite <- !app_assoc. reflexivity. }
  destruct Hk as [Hk | Hk].
  - revert Hd. rewrite Hrew. apply find_ci_occurs.
    eapply same_ci_trans; [exact Hclose|]. apply (close_tag_same Hk).
  - revert Hh. rewrite Hrew. apply find_ci_occurs.
    eapply same_ci_trans; [exact Hclose|]. apply (close_tag_same Hk).
Qed.

Lemma find_ci_infix w p t q :
  find_ci w (p ++ t ++ q) = None -> find_ci w t = None.
Proof.
  intros Hn. destruct (find_ci w t) as [[b a]|] eqn:E; [|reflexivity].
  exfalso. apply find_ci_parts in E. destruct E as (close & Ht & Hc).
  revert Hn. rewrite Ht.
  replace (p ++ (b ++ close ++ a) ++ q) with ((p ++ b) ++ close ++ (a ++ q))
    by (rewrite <- !app_assoc; reflexivity).
  apply find_ci_occurs. exact Hc.
Qed.

(** ** Scanning over text that holds no match *)

Lemma skips_nil {B} (here : jsstring -> option B) suf : skips here [] suf.
Proof. intros i Hi. simpl in Hi. lia. Qed.

Lemma skips_cons {B} (here : jsstring -> option B) x a suf :
  here (x :: a ++ suf) = None -> skips here a suf -> skips here (x :: a) suf.
Proof.
  intros Hx Ha [|i] Hi; [exact Hx|].
  cbn [app skipn]. apply Ha. simpl in Hi. lia.
Qed.

Lemma skips_app {B} (here : jsstring -> option B) a b suf :
  skips here a (b ++ suf) -> skips here b suf -> skips here (a ++ b) suf.
Proof.
  intros Ha Hb i Hi. rewrite <- app_assoc.
  destruct (Nat.lt_ge_cases i (length a)) as [Hlt | Hge].
  - apply Ha. exact Hlt.
  - rewrite skipn_app.
    replace (skipn i a) with (@nil char) by (symmetry; apply skipn_all2; lia).
    cbn [app]. apply Hb. rewrite length_app in Hi. lia.
Qed.

Lemma find_first_skips {B} (here : jsstring -> option B) a suf :
  skips here a suf ->
  find_first here (a ++ suf)
  = match find_first here suf with
    | Some (before, b) => Some (a ++ before, b)
    | None => None
    end.
Proof.
  induction a as [|x a IH]; intros H.
  - cbn [app]. destruct (find_first here suf) as [[b r]|]; reflexivity.
  - pose proof (H 0 ltac:(simpl; lia)) as H0. cbn [skipn app] in H0.
    cbn [app find_first]. rewrite H0, IH.
    + destruct (find_first here suf) as [[b r]|]; reflexivity.
    + intros i Hi. apply (H (S i)). simpl; lia.
Qed.

Lemma find_first_here {B} (here : jsstring -> option B) s b :
  here s = Some b -> find_first here s = Some ([], b).
Proof.
  intros H. destruct s; cbn [find_first]; rewrite H; reflexivity.
Qed.

Lemma find_first_skips_all {B} (here : jsstring -> option B) a :
  here [] = None -> skips here a [] -> find_first here a = None.
Proof.
  intros Hnil H. rewrite <- (app_nil_r a), (find_first_skips H).
  cbn [find_first]. rewrite Hnil. reflexivity.
Qed.

Lemma plain_no_lt s : plain s = true -> no_lt s = true.
Proof.
  unfold plain, no_lt. rewrite !forallb_forall. intros H x Hx.
  apply H in Hx. apply andb_true_iff in Hx. tauto.
Qed.

Lemma no_lt_app a b : no_lt (a ++ b) = no_lt a && no_lt b.
Proof. apply forallb_app. Qed.

(** A pattern that starts with ['<'] matches nowhere in a text without
    ['<'], whatever follows the text. *)
Lemma skips_no_lt {B} (here : jsstring -> option B) a suf :
  (forall x t, is_lt x = false -> here (x :: t) = None) ->
  no_lt a = true -> skips here a suf.
Proof.
  intros Hlt. induction a as [|x a IH]; intros Ha; [apply skips_nil|].
  cbn [no_lt forallb] in Ha. apply andb_true_iff in Ha. destruct Ha as (Hx & Ha).
  apply skips_cons; [|apply IH; exact Ha].
  apply Hlt. destruct (is_lt x); [discriminate | reflexivity].
Qed.

Lemma strip_prefix_lt_first w x t :
  is_lt x = false -> strip_prefix true (ch_lt :: w) (x :: t) = None.
Proof.
  intros H. cbn [strip_prefix]. rewrite N.eqb_sym, canonicalize_lt.
  unfold is_lt in H. rewrite H. reflexivity.
Qed.

Lemma strip_prefix_runs_out w suf : forall x,
  lt_free w = true ->
  (suf = [] \/ exists r, suf = ch_lt :: r) ->
  strip_prefix true w x = None ->
  strip_prefix true w (x ++ suf) = None.
Proof.
  induction w as [|a w IH]; intros x Hw Hsuf H; [discriminate|].
  cbn [lt_free forallb] in Hw. apply andb_true_iff in Hw.
  destruct Hw as (Ha & Hw).
  destruct x as [|b x]; cbn [app].
  - destruct Hsuf as [-> | (r & ->)]; [reflexivity|].
    cbn [strip_prefix]. apply negb_true_iff in Ha. rewrite Ha. reflexivity.
  - cbn [strip_prefix] in H |- *.
    destruct (canonicalize true a =? canonicalize true b)%N;
      [apply IH; assumption | reflexivity].
Qed.

(** A pattern with a single ['<'], at its head, does not occur across the
    end of a text that is followed by a ['<'] or by nothing. *)
Lemma skips_free w a suf :
  lt_free w = true ->
  find_ci (ch_lt :: w) a = None ->
  (suf = [] \/ exists r, suf = ch_lt :: r) ->
  skips (strip_prefix true (ch_lt :: w)) a suf.
Proof.
  intros Hw Hfree Hsuf i Hi.
  pose proof (find_first_none _ _ Hfree i) as Hn.
  rewrite skipn_app.
  replace (i - length a) with 0 by lia. cbn [skipn].
  destruct (skipn i a) as [|b x] eqn:E.
  - apply (f_equal (@length _)) in E. rewrite length_skipn in E.
    simpl in E. lia.
  - cbn [app strip_prefix] in Hn |- *.
    destruct (_ =? _)%N; [|reflexivity].
    apply strip_prefix_runs_out; assumption.
Qed.

(** ** Well-formed table markup *)

Lemma split_gt_app attrs rest :
  plain attrs = true -> split_gt (attrs ++ ch_gt :: rest) = Some (attrs, rest).
Proof.
  induction attrs as [|x a IH]; intros H.
  - reflexivity.
  - cbn [plain forallb] in H. apply andb_true_iff in H. destruct H as (Hx & Ha).
    apply andb_true_iff in Hx. destruct Hx as (_ & Hx).
    cbn [app split_gt]. unfold is_gt in Hx. apply negb_true_iff in Hx.
    rewrite Hx, (IH Ha). reflexivity.
Qed.

Lemma same_ci_refl w : same_ci w w.
Proof. reflexivity. Qed.

Lemma occurs_ci_false w s : negb (occurs_ci w s) = true -> find_ci w s = None.
Proof.
  unfold occurs_ci. destruct (find_ci w s); [discriminate | reflexivity].
Qed.

Lemma find_ci_first w a rest :
  lt_free w = true ->
  find_ci (ch_lt :: w) a = None ->
  find_ci (ch_lt :: w) (a ++ (ch_lt :: w) ++ rest) = Some (a, rest).
Proof.
  intros Hw Ha. unfold find_ci.
  rewrite find_first_skips.
  - rewrite (find_first_here (strip_prefix true (ch_lt :: w))
               ((ch_lt :: w) ++ rest) (b := rest)).
    + rewrite app_nil_r. reflexivity.
    + apply strip_prefix_same_conv. apply same_ci_refl.
  - apply skips_free; [exact Hw | exact Ha |].
    right. eexists. reflexivity.
Qed.

Lemma tag_name_cases c : tag_name c = js "td" \/ tag_name c = js "th".
Proof. unfold tag_name. destruct (c_header c); auto. Qed.

Lemma here_cellRe_cell c rest :
  wf_cell c = true ->
  here_of cellRe (render_cell c ++ rest)
  = Some (MState rest [(2, c_inner c); (1, tag_name c)]).
Proof.
  unfold wf_cell. intros H. apply andb_true_iff in H. destruct H as (H & _).
  apply andb_true_iff in H. destruct H as (Hattrs & Hinner).
  apply occurs_ci_false in Hinner.
  unfold here_of. cbn [ignoreCase]. rewrite matcher_cellRe.
  unfold render_cell. cbn [app match_cell].
  replace (ch_lt =? ch_lt)%N with true by reflexivity.
  assert (Hkind : forall X, cell_kind (tag_name c ++ X) = Some (tag_name c, X)).
  { intros X. destruct (tag_name_cases c) as [-> | ->]; reflexivity. }
  rewrite <- !app_assoc, Hkind. unfold match_cell_body.
  cbn [app]. rewrite split_gt_app by exact Hattrs.
  rewrite <- app_assoc.
  assert (Hclose : close_tag (tag_name c)
                   = ch_lt :: (N_of_ascii "/" :: tag_name c ++ [ch_gt]))
    by reflexivity.
  rewrite Hclose in Hinner |- *.
  rewrite find_ci_first; [reflexivity | | exact Hinner].
  destruct (tag_name_cases c) as [-> | ->]; reflexivity.
Qed.

Lemma here_cellRe_not_lt x t : is_lt x = false -> here_of cellRe (x :: t) = None.
Proof.
  intros H. unfold here_of. cbn [ignoreCase]. rewrite matcher_cellRe.
  cbn [match_cell]. unfold is_lt in H. rewrite H. reflexivity.
Qed.

Lemma here_cellRe_nil : here_of cellRe [] = None.
Proof. reflexivity. Qed.

(** The opening and the closing tag of a row are no cell. *)
Lemma skips_cellRe_tr_open suf : skips (here_of cellRe) (js "<tr") suf.
Proof.
  apply skips_cons.
  - unfold here_of. cbn [ignoreCase]. rewrite matcher_cellRe. reflexivity.
  - apply skips_no_lt; [apply here_cellRe_not_lt | reflexivity].
Qed.

Lemma skips_cellRe_tr_close suf : skips (here_of cellRe) (js "</tr>") suf.
Proof.
  apply skips_cons.
  - unfold here_of. cbn [ignoreCase]. rewrite matcher_cellRe. reflexivity.
  - apply skips_no_lt; [apply here_cellRe_not_lt | reflexivity].
Qed.

Lemma wf_cells_cons f c cells :
  forallb (fun fc => no_lt (fst fc) && wf_cell (snd fc)) ((f, c) :: cells)
    = true ->
  no_lt f = true /\ wf_cell c = true
  /\ forallb (fun fc => no_lt (fst fc) && wf_cell (snd fc)) cells = true.
Proof.
  cbn [forallb fst snd]. intros H.
  apply andb_true_iff in H. destruct H as (H & Hr).
  apply andb_true_iff in H. tauto.
Qed.

(** The inner loop on a row segment: one match for each cell. *)
Lemma cells_loop tail : no_lt tail = true ->
  forall cells pre f,
    (forall suf, skips (here_of cellRe) f suf) ->
    forallb (fun fc => no_lt (fst fc) && wf_cell (snd fc)) cells = true ->
    exists cs,
      successive cellRe
        (pre ++ f ++ render_cells cells ++ tail ++ js "</tr>") (length pre) cs
      /\ map cell_text cs
         = map (fun fc => normalize (c_inner (snd fc))) cells.
Proof.
  intros Htail. induction cells as [|[f1 c] cells IH]; intros pre f Hf Hwf.
  - exists []. split; [|reflexivity].
    apply successive_done with (li' := 0). apply exec_not_found.
    cbn [render_cells flat_map app].
    apply find_first_skips_all; [apply here_cellRe_nil|].
    apply skips_app; [apply Hf|]. apply skips_app.
    + apply skips_no_lt; [apply here_cellRe_not_lt | exact Htail].
    + apply skips_cellRe_tr_close.
  - apply wf_cells_cons in Hwf. destruct Hwf as (Hf1 & Hc & Hwf).
    set (R := render_cells cells ++ tail ++ js "</tr>").
    assert (Hstr : pre ++ f ++ render_cells ((f1, c) :: cells) ++ tail
                   ++ js "</tr>"
                   = pre ++ (f ++ f1) ++ render_cell c ++ R).
    { unfold R. cbn [render_cells flat_map fst snd].
      fold (render_cells cells). rewrite <- !app_assoc. reflexivity. }
    assert (Hfind : find_first (here_of cellRe) ((f ++ f1) ++ render_cell c ++ R)
                    = Some (f ++ f1, MState R [(2, c_inner c); (1, tag_name c)])).
    { rewrite find_first_skips.
      - rewrite (find_first_here (here_of cellRe) (render_cell c ++ R)
                   (@here_cellRe_cell c R Hc)).
        rewrite app_nil_r. reflexivity.
      - apply skips_app; [apply Hf|].
        apply skips_no_lt; [apply here_cellRe_not_lt | exact Hf1]. }
    destruct (IH (pre ++ (f ++ f1) ++ render_cell c) []) as (cs & Hcs & Hmap).
    { intros suf. apply skips_nil. }
    { exact Hwf. }
    eexists (_ :: cs). split.
    + rewrite Hstr. eapply successive_next.
      * apply (@exec_found cellRe pre _ _ _ _ Hfind).
      * assert (0 < length (render_cell c)) by (simpl; lia). lia.
      * cbn [app] in Hcs. fold R in Hcs.
        replace (length pre + length (f ++ f1) + length (render_cell c))
          with (length (pre ++ (f ++ f1) ++ render_cell c))
          by (rewrite !length_app; lia).
        replace (pre ++ (f ++ f1) ++ render_cell c ++ R)
          with ((pre ++ (f ++ f1) ++ render_cell c) ++ R)
          by (rewrite <- !app_assoc; reflexivity).
        exact Hcs.
    + cbn [map]. rewrite Hmap. reflexivity.
Qed.

Lemma skips_impl {B C} (h1 : jsstring -> option B) (h2 : jsstring -> option C)
    a suf :
  (forall t, h1 t = None -> h2 t = None) -> skips h1 a suf -> skips h2 a suf.
Proof. intros H Ha i Hi. apply H, Ha, Hi. Qed.

Lemma here_trRe_none t :
  strip_prefix true (js "<tr") t = None -> here_of trRe t = None.
Proof.
  intros H. unfold here_of. cbn [ignoreCase].
  rewrite matcher_trRe. unfold match_tr. rewrite H. reflexivity.
Qed.

Lemma skips_close_tr_no_lt a suf :
  no_lt a = true -> skips (strip_prefix true (js "</tr>")) a suf.
Proof.
  apply skips_no_lt. intros x t. apply strip_prefix_lt_first.
Qed.

(** No closing row tag starts in a well-formed cell. *)
Lemma skips_close_tr_cell c suf :
  wf_cell c = true ->
  skips (strip_prefix true (js "</tr>")) (render_cell c) suf.
Proof.
  unfold wf_cell. intros H. apply andb_true_iff in H. destruct H as (H & Htr).
  apply andb_true_iff in H. destruct H as (Hattrs & _).
  apply occurs_ci_false in Htr. apply plain_no_lt in Hattrs.
  unfold render_cell.
  replace (ch_lt :: tag_name c ++ c_attrs c ++ ch_gt :: c_inner c
           ++ close_tag (tag_name c))
    with ([ch_lt] ++ (tag_name c ++ c_attrs c ++ [ch_gt]) ++ c_inner c
          ++ [ch_lt] ++ (N_of_ascii "/" :: tag_name c ++ [ch_gt]))
    by (cbn [app]; rewrite <- !app_assoc; reflexivity).
  apply skips_app; [|apply skips_app; [|apply skips_app; [|apply skips_app]]].
  - apply skips_cons; [|apply skips_nil].
    destruct (tag_name_cases c) as [-> | ->]; reflexivity.
  - apply skips_close_tr_no_lt. rewrite !no_lt_app, Hattrs.
    destruct (tag_name_cases c) as [-> | ->]; reflexivity.
  - apply (@skips_free (js "/tr>")); [reflexivity | exact Htr |].
    right. eexists. reflexivity.
  - apply skips_cons; [|apply skips_nil].
    destruct (tag_name_cases c) as [-> | ->]; reflexivity.
  - apply skips_close_tr_no_lt.
    destruct (tag_name_cases c) as [-> | ->]; reflexivity.
Qed.

Lemma skips_close_tr_cells cells suf :
  forallb (fun fc => no_lt (fst fc) && wf_cell (snd fc)) cells = true ->
  skips (strip_prefix true (js "</tr>")) (render_cells cells) suf.
Proof.
  revert suf. induction cells as [|[f c] cells IH]; intros suf H.
  - apply skips_nil.
  - apply wf_cells_cons in H. destruct H as (Hf & Hc & H).
    cbn [render_cells flat_map fst snd]. fold (render_cells cells).
    apply skips_app; [apply skips_app|].
    + apply skips_close_tr_no_lt. exact Hf.
    + apply skips_close_tr_cell. exact Hc.
    + apply IH. exact H.
Qed.

(** A well-formed row is one row segment. *)
Lemma here_trRe_row r rest :
  wf_row r = true ->
  here_of trRe (render_row r ++ rest) = Some (MState rest []).
Proof.
  unfold wf_row. intros H. apply andb_true_iff in H. destruct H as (H & Htail).
  apply andb_true_iff in H. destruct H as (Hattrs & Hcells).
  apply plain_no_lt in Hattrs.
  unfold here_of. cbn [ignoreCase]. rewrite matcher_trRe. unfold match_tr.
  unfold render_row. rewrite <- app_assoc.
  rewrite (@strip_prefix_same_conv (js "<tr") (js "<tr")) by reflexivity.
  set (body := r_attrs r ++ [ch_gt] ++ render_cells (r_cells r) ++ r_tail r).
  replace ((r_attrs r ++ ch_gt :: render_cells (r_cells r) ++ r_tail r
            ++ js "</tr>") ++ rest)
    with (body ++ js "</tr>" ++ rest)
    by (unfold body; cbn [app]; rewrite <- !app_assoc; cbn [app];
        rewrite <- !app_assoc; reflexivity).
  unfold find_ci. rewrite find_first_skips.
  - rewrite (find_first_here (strip_prefix true (js "</tr>"))
               (js "</tr>" ++ rest) (b := rest)); [reflexivity|].
    apply strip_prefix_same_conv. reflexivity.
  - unfold body.
    apply skips_app; [|apply skips_app; [|apply skips_app]].
    + apply skips_close_tr_no_lt. exact Hattrs.
    + apply skips_close_tr_no_lt. reflexivity.
    + apply skips_close_tr_cells. exact Hcells.
    + apply skips_close_tr_no_lt. exact Htail.
Qed.

Lemma here_trRe_nil : here_of trRe [] = None.
Proof. reflexivity. Qed.

Lemma skips_trRe_free f suf :
  negb (occurs_ci (js "<tr") f) = true -> lt_next suf ->
  skips (here_of trRe) f suf.
Proof.
  intros Hf Hs. apply occurs_ci_false in Hf.
  apply (@skips_impl _ _ (strip_prefix true (js "<tr")) (here_of trRe)).
  - apply here_trRe_none.
  - apply (@skips_free (js "tr")); [reflexivity | exact Hf | exact Hs].
Qed.

Lemma cells_of_row r :
  wf_row r = true ->
  exists cs,
    successive cellRe (render_row r) 0 cs
    /\ map cell_text cs
       = map (fun fc => normalize (c_inner (snd fc))) (r_cells r).
Proof.
  intros H. unfold wf_row in H.
  apply andb_true_iff in H. destruct H as (H & Htail).
  apply andb_true_iff in H. destruct H as (Hattrs & Hcells).
  apply plain_no_lt in Hattrs.
  destruct (@cells_loop (r_tail r) Htail (r_cells r) []
              (js "<tr" ++ r_attrs r ++ [ch_gt])) as (cs & Hcs & Hmap).
  - intros suf. apply skips_app; [apply skips_cellRe_tr_open|].
    apply skips_no_lt; [apply here_cellRe_not_lt|].
    rewrite no_lt_app, Hattrs. reflexivity.
  - exact Hcells.
  - exists cs. split; [|exact Hmap].
    cbn [app length] in Hcs. unfold render_row.
    replace (js "<tr" ++ r_attrs r ++ ch_gt :: render_cells (r_cells r)
             ++ r_tail r ++ js "</tr>")
      with ((js "<tr" ++ r_attrs r ++ [ch_gt]) ++ render_cells (r_cells r)
            ++ r_tail r ++ js "</tr>")
      by (rewrite <- !app_assoc; reflexivity).
    exact Hcs.
Qed.

Lemma wf_rows_cons f r rows :
  forallb (fun fr => negb (occurs_ci (js "<tr") (fst fr)) && wf_row (snd fr))
    ((f, r) :: rows) = true ->
  negb (occurs_ci (js "<tr") f) = true /\ wf_row r = true
  /\ forallb (fun fr => negb (occurs_ci (js "<tr") (fst fr))
                        && wf_row (snd fr)) rows = true.
Proof.
  cbn [forallb fst snd]. intros H.
  apply andb_true_iff in H. destruct H as (H & Hr).
  apply andb_true_iff in H. tauto.
Qed.

(** The outer loop on a well-formed table: one match for each row. *)
Lemma rows_loop tail :
  negb (occurs_ci (js "<tr") tail) = true ->
  forall rows pre,
    forallb (fun fr => negb (occurs_ci (js "<tr") (fst fr))
                       && wf_row (snd fr)) rows = true ->
    exists trs cellss,
      successive trRe (pre ++ render_rows rows ++ tail) (length pre) trs
      /\ Forall2 (fun tr cs => successive cellRe (matched tr) 0 cs) trs cellss
      /\ rows_of cellss = expected_rows rows.
Proof.
  intros Htail. induction rows as [|[f r] rows IH]; intros pre Hwf.
  - exists [], []. repeat split; [|constructor].
    apply successive_done with (li' := 0). apply exec_not_found.
    cbn [render_rows flat_map app].
    apply find_first_skips_all; [apply here_trRe_nil|].
    apply skips_trRe_free; [exact Htail | left; reflexivity].
  - apply wf_rows_cons in Hwf. destruct Hwf as (Hf & Hr & Hwf).
    set (R := render_rows rows ++ tail).
    assert (Hstr : pre ++ render_rows ((f, r) :: rows) ++ tail
                   = pre ++ f ++ render_row r ++ R).
    { unfold R. cbn [render_rows flat_map fst snd]. fold (render_rows rows).
      rewrite <- !app_assoc. reflexivity. }
    assert (Hfind : find_first (here_of trRe) (f ++ render_row r ++ R)
                    = Some (f, MState R [])).
    { rewrite find_first_skips.
      - rewrite (find_first_here (here_of trRe) (render_row r ++ R)
                   (@here_trRe_row r R Hr)).
        rewrite app_nil_r. reflexivity.
      - apply skips_trRe_free; [exact Hf|]. right. eexists. reflexivity. }
    destruct (IH (pre ++ f ++ render_row r) Hwf) as (trs & cellss & Ht & Hc & He).
    destruct (cells_of_row r Hr) as (cs & Hcs & Hmap).
    eexists (_ :: trs), (cs :: cellss). repeat split.
    + rewrite Hstr. eapply successive_next.
      * apply (@exec_found trRe pre _ _ _ _ Hfind).
      * assert (0 < length (render_row r)) by (simpl; lia). lia.
      * fold R in Ht.
        replace (length pre + length f + length (render_row r))
          with (length (pre ++ f ++ render_row r))
          by (rewrite !length_app; lia).
        replace (pre ++ f ++ render_row r ++ R)
          with ((pre ++ f ++ render_row r) ++ R)
          by (rewrite <- !app_assoc; reflexivity).
        exact Ht.
    + constructor; [exact Hcs | exact Hc].
    + unfold rows_of, expected_rows in *. cbn [filter fst snd].
      assert (Hlen : length cs = length (r_cells r)).
      { apply (f_equal (@length _)) in Hmap. rewrite !length_map in Hmap.
        exact Hmap. }
      rewrite Hlen. destruct (0 <? length (r_cells r)); cbn [map].
      * rewrite Hmap, He. reflexivity.
      * exact He.
Qed.

(** The parser on a well-formed table. *)
Lemma parse_render_table t :
  wf_table t = true ->
  parseTableHtmlToArray (Some (render_table t))
  = Some (expected_rows (t_rows t)).
Proof.
  unfold wf_table. intros H. apply andb_true_iff in H.
  destruct H as (Hrows & Htail).
  destruct (@rows_loop (t_tail t) Htail (t_rows t) [] Hrows)
    as (trs & cellss & Ht & Hc & He).
  cbn [app length] in Ht. fold (render_table t) in Ht.
  rewrite (parse_of_successive Ht Hc), He. reflexivity.
Qed.

(** ** The table selector *)

Lemma canonicalize_exact c : canonicalize false c = c.
Proof. reflexivity. Qed.

Lemma strip_prefix_exact sub post : strip_prefix false sub (sub ++ post) = Some post.
Proof.
  induction sub as [|a sub IH]; [reflexivity|].
  cbn [app strip_prefix]. rewrite N.eqb_refl. exact IH.
Qed.

Lemma includes_iff s sub :
  includes s sub = true <-> exists pre post, s = pre ++ sub ++ post.
Proof.
  unfold includes. split.
  - destruct (find_first (strip_prefix false sub) s) as [[before after]|] eqn:E;
      [|discriminate].
    intros _. apply find_first_split in E. destruct E as (E1 & E2 & E3).
    apply strip_prefix_same in E1. destruct E1 as (p & Hp & Hc).
    rewrite !map_ext with (f := canonicalize false) (g := fun c => c) in Hc
      by apply canonicalize_exact.
    rewrite !map_id in Hc. subst p.
    exists before, after. rewrite <- Hp, E2 at 1.
    rewrite E2 at 2. rewrite length_firstn, Nat.min_l by lia.
    symmetry; apply firstn_skipn.
  - intros (pre & post & ->).
    destruct (find_first (strip_prefix false sub) (pre ++ sub ++ post)) eqn:E;
      [reflexivity|].
    apply find_first_none with (i := length pre) in E.
    rewrite skipn_app, skipn_all, Nat.sub_diag in E. cbn [skipn app] in E.
    rewrite strip_prefix_exact in E. discriminate.
Qed.

Section SelectorFacts.
Variable toLowerCase : jsstring -> jsstring.

Lemma inspect_table_marked t :
  toLowerCase [] = [] ->
  contains_marker toLowerCase t ->
  inspect_table toLowerCase t = Normal (Some (outerHTML t)).
Proof.
  intros Hnil (s & pre & post & Hs & Hl).
  unfold inspect_table, marker_test. rewrite Hs.
  destruct s as [|c s].
  - rewrite Hnil in Hl. destruct pre; discriminate.
  - assert (Hi : includes (toLowerCase (c :: s)) marker = true)
      by (apply includes_iff; eauto).
    rewrite Hi. reflexivity.
Qed.

Lemma inspect_table_unmarked t :
  ~ contains_marker toLowerCase t ->
  inspect_table toLowerCase t = Normal None.
Proof.
  intros Hn. unfold inspect_table, marker_test.
  destruct (innerText t) as [| |s] eqn:Hs; try reflexivity.
  destruct s as [|c s]; [reflexivity|].
  destruct (includes (toLowerCase (c :: s)) marker) eqn:Hi; [|reflexivity].
  exfalso. apply Hn. apply includes_iff in Hi.
  destruct Hi as (pre & post & Hi). exists (c :: s), pre, post. auto.
Qed.

Lemma inspect_table_normal t : exists r, inspect_table toLowerCase t = Normal r.
Proof.
  unfold inspect_table, marker_test.
  destruct (innerText t) as [| |[|c s]];
    cbn [bind_completion try_completion]; try (eexists; reflexivity).
  destruct (includes _ _); eexists; reflexivity.
Qed.

Lemma first_marked_normal tables :
  exists r, first_marked toLowerCase tables = Normal r.
Proof.
  induction tables as [|t tables (r & IH)]; cbn [first_marked]; [eauto|].
  destruct (inspect_table_normal t) as ([html|] & ->);
    cbn [bind_completion]; [eexists; reflexivity|].
  exists r. exact IH.
Qed.

Lemma first_marked_none tables :
  (forall c, In c tables -> ~ contains_marker toLowerCase c) ->
  first_marked toLowerCase tables = Normal None.
Proof.
  induction tables as [|t tables IH]; intros H; cbn [first_marked];
    [reflexivity|].
  rewrite inspect_table_unmarked by (apply H; left; reflexivity).
  cbn. apply IH. intros c Hc. apply H. right. exact Hc.
Qed.

Lemma first_marked_first before t after :
  toLowerCase [] = [] ->
  (forall c, In c before -> ~ contains_marker toLowerCase c) ->
  contains_marker toLowerCase t ->
  first_marked toLowerCase (before ++ t :: after)
  = Normal (Some (outerHTML t)).
Proof.
  intros Hnil. induction before as [|b before IH]; intros Hb Ht;
    cbn [app first_marked].
  - rewrite inspect_table_marked by assumption. reflexivity.
  - rewrite inspect_table_unmarked by (apply Hb; left; reflexivity).
    cbn. apply IH; [|exact Ht]. intros c Hc. apply Hb. right. exact Hc.
Qed.

End SelectorFacts.

(** ** The button loop and the exits of the run *)

Lemma try_button_without w t :
  query_button w t <> Button ->
  try_button w t = ([QueryButton t], Returned false).
Proof.
  intros H. unfold try_button, query.
  destruct (query_button w t); [reflexivity | reflexivity | congruence].
Qed.

Lemma try_button_with w t :
  query_button w t = Button ->
  try_button w t = ([QueryButton t; Click t; WaitForLoadState], Returned true).
Proof.
  intros H. unfold try_button, query. rewrite H.
  destruct (click_ok w t), (load_after_click_ok w); reflexivity.
Qed.

Lemma click_first_button_none w labels :
  (forall x, In x labels -> query_button w x <> Button) ->
  click_first_button w labels = (map QueryButton labels, Returned tt).
Proof.
  induction labels as [|t labels IH]; intros H; [reflexivity|].
  cbn [click_first_button map].
  rewrite try_button_without by (apply H; left; reflexivity).
  cbn [bind]. rewrite IH by (intros x Hx; apply H; right; exact Hx).
  reflexivity.
Qed.

Lemma click_first_button_first w before l after :
  (forall x, In x before -> query_button w x <> Button) ->
  query_button w l = Button ->
  click_first_button w (before ++ l :: after)
  = (map QueryButton before ++ [QueryButton l; Click l; WaitForLoadState],
     Returned tt).
Proof.
  induction before as [|t before IH]; intros Hb Hl.
  - cbn [app click_first_button map]. rewrite try_button_with by exact Hl.
    reflexivity.
  - cbn [app click_first_button map].
    rewrite try_button_without by (apply Hb; left; reflexivity).
    cbn [bind]. rewrite IH; [reflexivity | | exact Hl].
    intros x Hx; apply Hb; right; exact Hx.
Qed.

(** The loop returns, whatever the page does, and causes nothing but
    queries, at most one click and the wait after it. *)
Lemma click_first_button_events w labels :
  exists tr,
    click_first_button w labels = (tr, Returned tt)
    /\ length (filter is_click tr) <= 1
    /\ existsb is_close tr = false /\ existsb is_exit tr = false.
Proof.
  induction labels as [|t labels (tr & IH & Hc & Hcl & Hex)].
  - exists []. repeat split; cbn; lia.
  - cbn [click_first_button].
    destruct (query_button w t) eqn:E.
    + rewrite try_button_without by congruence. cbn [bind]. rewrite IH.
      exists (QueryButton t :: tr). repeat split; assumption.
    + rewrite try_button_without by congruence. cbn [bind]. rewrite IH.
      exists (QueryButton t :: tr). repeat split; assumption.
    + rewrite try_button_with by exact E.
      eexists. split; [reflexivity|]. repeat split; cbn; lia.
Qed.

Lemma exit_code_app tr1 tr2 :
  existsb is_exit tr1 = false -> exit_code (tr1 ++ tr2) = exit_code tr2.
Proof.
  induction tr1 as [|e tr1 IH]; intros H; [reflexivity|].
  cbn [existsb] in H. apply orb_false_iff in H. destruct H as (He & H).
  destruct e; try discriminate; cbn [app exit_code]; apply IH; exact H.
Qed.

Lemma exit_code_none tr : existsb is_exit tr = false -> exit_code tr = None.
Proof.
  intros H. rewrite <- (app_nil_r tr). rewrite exit_code_app by exact H.
  reflexivity.
Qed.

Lemma quiet_act e ok :
  is_exit e = false -> is_close e = false -> quiet (act e ok).
Proof.
  intros He Hc. unfold quiet, act. cbn [fst snd existsb].
  rewrite He, Hc. repeat split. destruct ok; discriminate.
Qed.

Lemma quiet_bind {A B} (m : run A) (f : A -> run B) :
  quiet m -> (forall a, quiet (f a)) -> quiet (bind m f).
Proof.
  destruct m as [tr o]. intros (H1 & H2 & H3) Hf. cbn [fst snd] in *.
  destruct o as [a| | |]; cbn [bind];
    try (unfold quiet; cbn [fst snd]; repeat split; congruence).
  destruct (Hf a) as (F1 & F2 & F3). destruct (f a) as [tr' o'].
  unfold quiet. cbn [fst snd] in *.
  rewrite !existsb_app, H1, H2, F1, F2. auto.
Qed.

Lemma quiet_ignore_failure m : quiet m -> quiet (ignore_failure m).
Proof.
  destruct m as [tr o]. intros (H1 & H2 & H3). cbn [fst snd] in *.
  unfold ignore_failure, try_catch, ret.
  destruct o; cbn [fst snd]; rewrite ?app_nil_r; repeat split;
    try assumption; discriminate.
Qed.

Lemma try_ok_bind {A} (m : run A) (f : A -> run unit) :
  quiet m -> (forall a, try_ok (f a)) -> try_ok (bind m f).
Proof.
  destruct m as [tr o]. intros (H1 & H2 & H3) Hf. cbn [fst snd] in *.
  destruct o as [a| | |]; cbn [bind]; unfold try_ok; cbn [fst snd];
    try assumption; try congruence.
  specialize (Hf a). unfold try_ok in Hf. destruct (f a) as [tr' o'].
  cbn [fst snd] in *.
  rewrite exit_code_app, !existsb_app, H1, H2 by exact H1. exact Hf.
Qed.

Lemma quiet_click_first_button w labels : quiet (click_first_button w labels).
Proof.
  destruct (click_first_button_events w labels) as (tr & -> & _ & Hc & He).
  repeat split; try assumption. discriminate.
Qed.

Lemma quiet_extractTableFromPage toLowerCase w :
  quiet (extractTableFromPage toLowerCase w).
Proof.
  unfold extractTableFromPage.
  apply quiet_bind; [apply quiet_ignore_failure, quiet_act; reflexivity|].
  intros _.
  apply quiet_bind; [apply quiet_ignore_failure, quiet_act; reflexivity|].
  intros _. repeat split. cbn [snd].
  destruct (tables w) as [ts|]; [|discriminate].
  destruct (select_table toLowerCase ts); discriminate.
Qed.

Lemma try_ok_main_try toLowerCase w : try_ok (main_try toLowerCase w).
Proof.
  unfold main_try.
  apply try_ok_bind; [apply quiet_act; reflexivity | intros _].
  apply try_ok_bind; [apply quiet_act; reflexivity | intros _].
  apply try_ok_bind; [apply quiet_act; reflexivity | intros _].
  apply try_ok_bind; [apply quiet_click_first_button | intros _].
  apply try_ok_bind; [apply quiet_extractTableFromPage | intros tableHtml].
  destruct tableHtml as [[|c html]|].
  - destruct (content_ok w); reflexivity.
  - cbv beta iota.
    destruct (parseTableHtmlToArray _) as [[|row rows]|];
      try reflexivity.
    destruct (write_ok w), (close_ok w); reflexivity.
  - destruct (content_ok w); reflexivity.
Qed.

(** Whether the run tries to close the browser, by exit code. *)
Lemma main_close_by_exit_code toLowerCase w :
  match exit_code (fst (main toLowerCase w)) with
  | Some 0 | Some 4 => existsb is_close (fst (main toLowerCase w)) = true
  | Some 2 | Some 3 => existsb is_close (fst (main toLowerCase w)) = false
  | Some _ => False
  | None => True
  end.
Proof.
  unfold main. pose proof (try_ok_main_try toLowerCase w) as H.
  unfold try_ok in H. destruct (main_try toLowerCase w) as [tr o].
  cbn [fst snd] in H. unfold act.
  destruct (launch_ok w); cbn [bind]; [|exact I].
  destruct o;
    cbn [try_catch ignore_failure act bind ret process_exit app fst snd].
  - cbn [exit_code existsb is_close orb].
    rewrite (exit_code_none _ H). exact I.
  - destruct (close_ok w);
      cbn [try_catch ignore_failure act bind ret process_exit app fst snd
           exit_code existsb is_close orb];
      rewrite exit_code_app, existsb_app by exact H;
      cbn; apply orb_true_r.
  - cbn [exit_code existsb is_close orb].
    destruct (exit_code tr) as [[|[|[|[|n]]]]|]; try contradiction; exact H.
  - cbn [exit_code existsb is_close orb].
    rewrite (exit_code_none _ H). exact I.
Qed.

Lemma clicks_bind {A B} n1 n2 (m : run A) (f : A -> run B) :
  clicks m <= n1 -> (forall a, clicks (f a) <= n2) ->
  clicks (bind m f) <= n1 + n2.
Proof.
  unfold clicks. destruct m as [tr o]. cbn [fst]. intros H1 H2.
  destruct o as [a| | |]; cbn [bind fst]; try lia.
  specialize (H2 a). destruct (f a) as [tr' o']. cbn [fst] in *.
  rewrite filter_app, length_app. lia.
Qed.

Lemma clicks_try_catch {A} n1 n2 (body handler : run A) :
  clicks body <= n1 -> clicks handler <= n2 ->
  clicks (try_catch body handler) <= n1 + n2.
Proof.
  unfold clicks. destruct body as [tr o], handler as [tr' o']. cbn [fst].
  intros H1 H2. destruct o; cbn [try_catch fst]; try lia.
  rewrite filter_app, length_app. lia.
Qed.

Lemma clicks_act e ok : is_click e = false -> clicks (act e ok) <= 0.
Proof. intros H. unfold clicks, act. cbn [fst filter]. rewrite H. cbn. lia. Qed.

Lemma clicks_main toLowerCase w : clicks (main toLowerCase w) <= 1.
Proof.
  unfold main.
  apply (@clicks_bind _ _ 0 1); [apply clicks_act; reflexivity | intros _].
  apply (@clicks_try_catch _ 1 0).
  - unfold main_try.
    apply (@clicks_bind _ _ 0 1); [apply clicks_act; reflexivity | intros _].
    apply (@clicks_bind _ _ 0 1); [apply clicks_act; reflexivity | intros _].
    apply (@clicks_bind _ _ 0 1); [apply clicks_act; reflexivity | intros _].
    apply (@clicks_bind _ _ 1 0).
    + destruct (click_first_button_events w buttonTexts)
        as (tr & -> & Hc & _). exact Hc.
    + intros _. apply (@clicks_bind _ _ 0 0).
      * unfold extractTableFromPage.
        apply (@clicks_bind _ _ 0 0);
          [apply (@clicks_try_catch _ 0 0);
             [apply clicks_act; reflexivity | cbn; lia] | intros _].
        apply (@clicks_bind _ _ 0 0);
          [apply (@clicks_try_catch _ 0 0);
             [apply clicks_act; reflexivity | cbn; lia] | intros _].
        cbn. lia.
      * intros [[|c html]|].
        -- apply (@clicks_bind _ _ 0 0);
             [apply clicks_act; reflexivity | intros _; cbn; lia].
        -- cbv beta iota.
           destruct (parseTableHtmlToArray _) as [[|row rows]|];
             [cbn; lia | | cbn; lia].
           apply (@clicks_bind _ _ 0 0);
             [apply clicks_act; reflexivity | intros _].
           apply (@clicks_bind _ _ 0 0);
             [apply clicks_act; reflexivity | intros _; cbn; lia].
        -- apply (@clicks_bind _ _ 0 0);
             [apply clicks_act; reflexivity | intros _; cbn; lia].
  - apply (@clicks_bind _ _ 0 0); [|intros _; cbn; lia].
    apply (@clicks_try_catch _ 0 0);
      [apply clicks_act; reflexivity | cbn; lia].
Qed.

(** ** The texts the Markup Normalizer leaves as they are *)

Lemma no_tag_complete o : no_tag o = false -> has_tag o.
Proof.
  induction o as [|c r IH]; cbn [no_tag]; [discriminate|].
  intros H. apply andb_false_iff in H. destruct H as [H | H].
  - apply negb_false_iff, andb_true_iff in H. destruct H as (Hc & Hr).
    apply N.eqb_eq in Hc. subst c.
    apply existsb_exists in Hr. destruct Hr as (x & Hx & Hg).
    apply N.eqb_eq in Hg. subst x.
    apply in_split in Hx. destruct Hx as (b & d & ->).
    exists [], b, d. reflexivity.
  - destruct (IH H) as (a & b & d & ->). exists (c :: a), b, d. reflexivity.
Qed.

Lemma no_run_complete o : no_run o = false -> has_space_run o.
Proof.
  induction o as [|c r IH]; cbn [no_run]; [discriminate|].
  intros H. apply andb_false_iff in H. destruct H as [H | H].
  - apply negb_false_iff, andb_true_iff in H. destruct H as (Hc & Hr).
    destruct r as [|y r]; [discriminate|]. cbn [head_space] in Hr.
    exists [], c, y, r. auto.
  - destruct (IH H) as (a & x & y & b & -> & Hx & Hy).
    exists (c :: a), x, y, b. auto.
Qed.

Lemma strip_tags_no_tag repl s :
  no_tag s = true -> strip_tags repl false s = s.
Proof.
  induction s as [|c r IH]; [reflexivity|].
  cbn [no_tag strip_tags]. intros H. apply andb_true_iff in H.
  destruct H as (Hc & Hr). apply negb_true_iff in Hc.
  rewrite Hc, (IH Hr). reflexivity.
Qed.

Lemma collapse_space_clean s : forall prev,
  (prev = true -> head_space s = false) ->
  no_run s = true -> plain_spaces s = true ->
  collapse_space prev s = s.
Proof.
  induction s as [|c r IH]; intros prev Hp Hr Hs; [reflexivity|].
  cbn [no_run] in Hr. apply andb_true_iff in Hr. destruct Hr as (Hc & Hr).
  cbn [plain_spaces forallb] in Hs. apply andb_true_iff in Hs.
  destruct Hs as (Hcs & Hs).
  cbn [collapse_space]. destruct (is_space c) eqn:E.
  - destruct prev; [specialize (Hp eq_refl); cbn in Hp; congruence|].
    cbn [negb orb] in Hcs. apply N.eqb_eq in Hcs. subst c.
    f_equal. apply IH; try assumption.
    intros _. cbn [andb negb] in Hc. apply negb_true_iff in Hc. exact Hc.
  - f_equal. apply IH; try assumption. discriminate.
Qed.

Lemma drop_space_head s : head_space s = false -> drop_space s = s.
Proof.
  destruct s as [|c r]; [reflexivity|]. cbn [head_space drop_space].
  intros ->. reflexivity.
Qed.

Lemma head_space_drop s : head_space (drop_space s) = false.
Proof.
  induction s as [|c r IH]; [reflexivity|]. cbn [drop_space].
  destruct (is_space c) eqn:E; [exact IH | exact E].
Qed.

Lemma trim_clean s :
  head_space s = false -> head_space (rev s) = false -> trim s = s.
Proof.
  intros H1 H2. unfold trim.
  rewrite (drop_space_head _ H1), (drop_space_head _ H2).
  apply rev_involutive.
Qed.

Lemma head_space_trim s :
  head_space (trim s) = false /\ head_space (rev (trim s)) = false.
Proof.
  unfold trim. set (u := drop_space s).
  assert (Hu : head_space u = false) by apply head_space_drop.
  set (v := drop_space (rev u)).
  assert (Hv : head_space v = false) by apply head_space_drop.
  split; [|rewrite rev_involutive; exact Hv].
  destruct (drop_space_split (rev u)) as (w & Hw). fold v in Hw.
  assert (Hu' : u = rev v ++ rev w).
  { rewrite <- rev_app_distr, <- Hw, rev_involutive. reflexivity. }
  destruct (rev v) as [|x y]; [reflexivity|].
  rewrite Hu' in Hu. exact Hu.
Qed.

Lemma plain_spaces_collapse t : forall prev,
  plain_spaces (collapse_space prev t) = true.
Proof.
  induction t as [|c r IH]; intros prev; [reflexivity|].
  cbn [collapse_space]. destruct (is_space c) eqn:E.
  - destruct prev; [apply IH|].
    cbn [plain_spaces forallb]. rewrite N.eqb_refl, orb_true_r. apply IH.
  - cbn [plain_spaces forallb]. rewrite E. apply IH.
Qed.

Lemma forallb_infix {A} (f : A -> bool) a o b :
  forallb f (a ++ o ++ b) = true -> forallb f o = true.
Proof.
  rewrite !forallb_app. intros H.
  apply andb_true_iff in H. destruct H as (_ & H).
  apply andb_true_iff in H. tauto.
Qed.

(** The result of [normalize] is clean. *)
Lemma clean_normalize s : clean (normalize s) = true.
Proof.
  rewrite normalize_eq.
  set (t := collapse_space false (strip_tags (js " ") false s)).
  destruct (trim_split t) as (w1 & w2 & Ht).
  destruct (head_space_trim t) as (Hh & Hl).
  unfold clean. rewrite Hh, Hl. cbn [negb]. rewrite !andb_true_r.
  repeat (apply andb_true_iff; split).
  - destruct (no_tag (trim t)) eqn:E; [reflexivity|]. exfalso.
    apply no_tag_complete in E. apply (has_tag_infix w1 w2) in E.
    rewrite <- Ht in E. revert E. apply no_tag_sound. unfold t.
    rewrite no_tag_collapse. apply no_tag_strip_tags.
  - destruct (no_run (trim t)) eqn:E; [reflexivity|]. exfalso.
    apply no_run_complete in E. apply (has_space_run_infix w1 w2) in E.
    rewrite <- Ht in E. revert E. apply no_run_sound. apply no_run_collapse.
  - apply (forallb_infix _ w1 _ w2). rewrite <- Ht. apply plain_spaces_collapse.
Qed.

(** A clean text is left as it is. *)
Lemma normalize_clean s : clean s = true -> normalize s = s.
Proof.
  unfold clean. intros H.
  apply andb_true_iff in H. destruct H as (H & Hl).
  apply andb_true_iff in H. destruct H as (H & Hh).
  apply andb_true_iff in H. destruct H as (H & Hs).
  apply andb_true_iff in H. destruct H as (Ht & Hr).
  apply negb_true_iff in Hl, Hh.
  rewrite normalize_eq, (strip_tags_no_tag _ _ Ht).
  rewrite collapse_space_clean by (assumption || discriminate).
  apply trim_clean; assumption.
Qed.

Lemma strip_tags_length s : forall in_tag,
  length (strip_tags (js " ") in_tag s) <= length s.
Proof.
  induction s as [|c r IH]; intros in_tag; [cbn [strip_tags length]; lia|].
  cbn [strip_tags length]. destruct in_tag.
  - destruct (is_gt c); [specialize (IH false) | specialize (IH true)]; lia.
  - destruct (is_lt c && existsb is_gt r).
    + specialize (IH true). change (js " ") with [ch_sp] in *.
      cbn [app length]. lia.
    + specialize (IH false). cbn [length]. lia.
Qed.

Lemma collapse_space_length t : forall prev,
  length (collapse_space prev t) <= length t.
Proof.
  induction t as [|c r IH]; intros prev; [cbn [collapse_space length]; lia|].
  cbn [collapse_space length]. destruct (is_space c).
  - destruct prev; [specialize (IH true) | specialize (IH true)];
      cbn [length]; lia.
  - specialize (IH false). cbn [length]. lia.
Qed.

Lemma trim_length s : length (trim s) <= length s.
Proof.
  unfold trim. rewrite length_rev.
  pose proof (drop_space_length (rev (drop_space s))) as H1.
  pose proof (drop_space_length s) as H2.
  rewrite length_rev in H1. lia.
Qed.

Lemma visible_strip_tags repl s : forall in_tag,
  visible repl = [] ->
  visible (strip_tags repl in_tag s) = visible (strip_tags [] in_tag s).
Proof.
  unfold visible.
  induction s as [|c r IH]; intros in_tag Hr; [reflexivity|].
  cbn [strip_tags]. destruct in_tag.
  - destruct (is_gt c); apply IH; exact Hr.
  - destruct (is_lt c && existsb is_gt r).
    + rewrite filter_app, Hr. cbn [app]. apply IH. exact Hr.
    + cbn [filter]. rewrite (IH false Hr). reflexivity.
Qed.

Lemma visible_collapse t : forall prev,
  visible (collapse_space prev t) = visible t.
Proof.
  unfold visible.
  induction t as [|c r IH]; intros prev; [reflexivity|].
  cbn [collapse_space filter]. destruct (is_space c) eqn:E; cbn [negb].
  - destruct prev; [apply IH|]. cbn [filter].
    replace (is_space ch_sp) with true by reflexivity. cbn [negb]. apply IH.
  - cbn [filter]. rewrite E. cbn [negb]. rewrite IH. reflexivity.
Qed.

Lemma visible_drop_space s : visible (drop_space s) = visible s.
Proof.
  unfold visible. induction s as [|c r IH]; [reflexivity|].
  cbn [drop_space filter]. destruct (is_space c) eqn:E; cbn [negb].
  - exact IH.
  - cbn [filter]. rewrite E. reflexivity.
Qed.

Lemma visible_rev s : visible (rev s) = rev (visible s).
Proof.
  unfold visible. induction s as [|c r IH]; [reflexivity|].
  cbn [rev filter]. rewrite filter_app, IH. cbn [filter].
  destruct (negb (is_space c)); cbn [rev]; [reflexivity|].
  apply app_nil_r.
Qed.

Lemma visible_trim s : visible (trim s) = visible s.
Proof.
  unfold trim.
  rewrite visible_rev, visible_drop_space, visible_rev, visible_drop_space.
  apply rev_involutive.
Qed.

(** The visible code units of the result are those of the input outside
    its tags. *)
Lemma visible_normalize s :
  visible (normalize s) = visible (strip_tags [] false s).
Proof.
  rewrite normalize_eq, visible_trim, visible_collapse.
  apply visible_strip_tags. reflexivity.
Qed.

Lemma visible_nil_spaces s : visible s = [] <-> forallb is_space s = true.
Proof.
  unfold visible. induction s as [|c r IH]; [split; reflexivity|].
  cbn [filter forallb]. destruct (is_space c); cbn [negb andb].
  - exact IH.
  - split; discriminate.
Qed.

(** ** The values [parseTableHtmlToArray] returns *)

Lemma same_ci_angle close w :
  same_ci close (ch_lt :: w ++ [ch_gt]) ->
  exists m, close = ch_lt :: m ++ [ch_gt].
Proof.
  unfold same_ci. destruct close as [|c rest]; [discriminate|].
  cbn [map]. intros H. injection H as Hc Hr.
  assert (c = ch_lt) as ->.
  { apply N.eqb_eq. rewrite <- (canonicalize_lt true), Hc. apply N.eqb_refl. }
  rewrite map_app in Hr. apply map_eq_app in Hr.
  destruct Hr as (m & l & -> & _ & Hl).
  destruct l as [|x [|y l]]; try discriminate.
  cbn [map] in Hl. injection Hl as Hx.
  assert (x = ch_gt) as ->.
  { apply N.eqb_eq. rewrite <- (canonicalize_gt true), Hx. apply N.eqb_refl. }
  exists m. reflexivity.
Qed.

(** A text without tags holds no closing tag. *)
Lemma no_tag_no_closing w s :
  no_tag s = true -> occurs_ci (ch_lt :: w ++ [ch_gt]) s = false.
Proof.
  intros H. unfold occurs_ci.
  destruct (find_ci (ch_lt :: w ++ [ch_gt]) s) as [[before after]|] eqn:E;
    [|reflexivity].
  exfalso. apply find_ci_parts in E. destruct E as (close & Hs & Hc).
  apply same_ci_angle in Hc. destruct Hc as (m & ->).
  apply (no_tag_sound H). exists before, m, after.
  rewrite Hs. cbn [app]. rewrite <- app_assoc. reflexivity.
Qed.

Lemma clean_no_tag s : clean s = true -> no_tag s = true.
Proof.
  unfold clean. intros H. repeat (apply andb_true_iff in H; destruct H as (H & _)).
  exact H.
Qed.

Lemma expected_rows_clean t :
  clean_cells t = true -> expected_rows (t_rows t) = content t.
Proof.
  unfold clean_cells, expected_rows, content. intros H.
  rewrite forallb_forall in H.
  apply map_ext_in. intros fr Hfr. apply filter_In in Hfr.
  destruct Hfr as (Hfr & _). specialize (H fr Hfr).
  rewrite forallb_forall in H.
  apply map_ext_in. intros fc Hfc. apply normalize_clean, H, Hfc.
Qed.

Lemma clean_rows_cons row rows :
  clean_rows (row :: rows) = true ->
  row <> [] /\ forallb clean row = true /\ clean_rows rows = true.
Proof.
  unfold clean_rows. cbn [forallb]. intros H.
  apply andb_true_iff in H. destruct H as (H & Hr).
  apply andb_true_iff in H. destruct H as (Hl & Hc).
  repeat split; try assumption. intros ->. discriminate.
Qed.

Lemma wf_doc_of_rows rows :
  clean_rows rows = true -> wf_table (doc_of_rows rows) = true.
Proof.
  intros H. unfold wf_table, doc_of_rows. cbn [t_rows t_tail].
  apply andb_true_iff. split; [|reflexivity].
  induction rows as [|row rows IH]; [reflexivity|].
  apply clean_rows_cons in H. destruct H as (_ & Hc & Hr).
  cbn [map forallb fst snd]. rewrite (IH Hr), andb_true_r.
  apply andb_true_iff. split; [reflexivity|].
  unfold wf_row. cbn [r_attrs r_cells r_tail].
  apply andb_true_iff. split; [|reflexivity].
  apply andb_true_iff. split; [reflexivity|].
  clear IH Hr. induction row as [|c row IH]; [reflexivity|].
  cbn [forallb] in Hc. apply andb_true_iff in Hc. destruct Hc as (Hc & Hrow).
  cbn [map forallb fst snd]. rewrite (IH Hrow), andb_true_r.
  apply andb_true_iff. split; [reflexivity|].
  unfold wf_cell. cbn [c_attrs c_inner tag_name c_header].
  apply clean_no_tag in Hc.
  change (close_tag (js "td")) with (ch_lt :: js "/td" ++ [ch_gt]).
  change (js "</tr>") with (ch_lt :: js "/tr" ++ [ch_gt]).
  rewrite !no_tag_no_closing by exact Hc. reflexivity.
Qed.

Lemma forallb_map {A B} (f : B -> bool) (g : A -> B) l :
  forallb f (map g l) = forallb (fun x => f (g x)) l.
Proof.
  induction l as [|x l IH]; [reflexivity|]. cbn [map forallb].
  rewrite IH. reflexivity.
Qed.

Lemma clean_cells_doc_of_rows rows :
  clean_rows rows = true -> clean_cells (doc_of_rows rows) = true.
Proof.
  intros H. unfold clean_cells, doc_of_rows. cbn [t_rows].
  induction rows as [|row rows IH]; [reflexivity|].
  apply clean_rows_cons in H. destruct H as (_ & Hc & Hr).
  cbn [map forallb snd r_cells]. rewrite (IH Hr), andb_true_r.
  rewrite forallb_map. exact Hc.
Qed.

Lemma content_doc_of_rows rows :
  clean_rows rows = true -> content (doc_of_rows rows) = rows.
Proof.
  intros H. unfold content, doc_of_rows. cbn [t_rows].
  induction rows as [|row rows IH]; [reflexivity|].
  apply clean_rows_cons in H. destruct H as (Hn & _ & Hr).
  specialize (IH Hr). destruct row as [|c row]; [congruence|].
  cbn [map filter snd r_cells length Nat.ltb Nat.leb].
  f_equal; [|exact IH].
  cbn [c_inner]. f_equal. rewrite map_map. cbn [snd c_inner]. apply map_id.
Qed.

Lemma rows_of_clean cellss : clean_rows (rows_of cellss) = true.
Proof.
  unfold clean_rows, rows_of. rewrite forallb_map.
  apply forallb_forall. intros cs Hcs. apply filter_In in Hcs.
  destruct Hcs as (_ & Hl). rewrite length_map, Hl. cbn [andb].
  rewrite forallb_map. apply forallb_forall. intros c _.
  apply clean_normalize.
Qed.

(** Markup in which no row opens holds no row segment. *)
Lemma no_row_open_no_segment s :
  occurs_ci (js "<tr") s = false -> successive trRe s 0 [].
Proof.
  intros H. apply successive_done with (li' := 0).
  apply (exec_not_found trRe [] s).
  apply find_first_skips_all; [apply here_trRe_nil|].
  apply skips_trRe_free; [rewrite H; reflexivity | left; reflexivity].
Qed.

(** ** The table the run works on, and how the run ends *)

Lemma inspect_table_cases toLowerCase t :
  inspect_table toLowerCase t = Normal (Some (outerHTML t))
  \/ inspect_table toLowerCase t = Normal None.
Proof.
  unfold inspect_table, marker_test.
  destruct (innerText t) as [| |[|c s]];
    cbn [bind_completion try_completion]; auto.
  destruct (includes _ _); auto.
Qed.

Lemma first_marked_member toLowerCase tables h :
  first_marked toLowerCase tables = Normal (Some h) ->
  exists t, In t tables /\ h = outerHTML t.
Proof.
  induction tables as [|t tables IH]; cbn [first_marked]; [discriminate|].
  destruct (inspect_table_cases toLowerCase t) as [-> | ->];
    cbn [bind_completion].
  - intros E. injection E as <-. exists t. split; [left|]; reflexivity.
  - intros E. destruct (IH E) as (t' & Hin & ->).
    exists t'. split; [right; exact Hin | reflexivity].
Qed.

Lemma select_table_member toLowerCase tables :
  tables <> [] ->
  exists t, In t tables
            /\ select_table toLowerCase tables = Normal (Some (outerHTML t)).
Proof.
  intros Hn. unfold select_table.
  destruct (first_marked_normal toLowerCase tables) as ([h|] & E); rewrite E;
    cbn [bind_completion].
  - destruct (first_marked_member _ _ E) as (t & Hin & ->).
    exists t. split; [exact Hin | reflexivity].
  - destruct tables as [|t0 tables]; [congruence|].
    exists t0. split; [left|]; reflexivity.
Qed.

Lemma select_table_none toLowerCase tables :
  select_table toLowerCase tables = Normal None <-> tables = [].
Proof.
  split; [|intros ->; reflexivity].
  intros E. destruct tables as [|t0 tables]; [reflexivity|].
  destruct (@select_table_member toLowerCase (t0 :: tables)) as (t & _ & E');
    congruence.
Qed.

Lemma inspect_table_unreadable toLowerCase t :
  inspect_table toLowerCase (unreadable_as_undefined t)
  = inspect_table toLowerCase t.
Proof.
  unfold inspect_table, marker_test, unreadable_as_undefined.
  destruct (innerText t) as [| |[|c s]] eqn:E; cbn [innerText outerHTML];
    rewrite ?E; reflexivity.
Qed.

Lemma first_marked_unreadable toLowerCase tables :
  first_marked toLowerCase (map unreadable_as_undefined tables)
  = first_marked toLowerCase tables.
Proof.
  induction tables as [|t tables IH]; [reflexivity|].
  cbn [map first_marked]. rewrite inspect_table_unreadable, IH. reflexivity.
Qed.

Lemma outerHTML_unreadable t : outerHTML (unreadable_as_undefined t) = outerHTML t.
Proof.
  unfold unreadable_as_undefined.
  destruct (innerText t) as [| |[|c s]]; reflexivity.
Qed.

(** The two waits do not show in the outcome of [extractTableFromPage]. *)
Lemma extractTableFromPage_eq toLowerCase w :
  extractTableFromPage toLowerCase w
  = ([WaitForLoadState; WaitForSelector; EvalTables],
     match tables w with
     | None => Thrown
     | Some ts =>
         match select_table toLowerCase ts with
         | Normal tableHtml => Returned tableHtml
         | Throw => Thrown
         end
     end).
Proof.
  unfold extractTableFromPage.
  destruct (networkidle_ok w), (table_selector_ok w); reflexivity.
Qed.

Lemma extractTableFromPage_outcome toLowerCase w :
  (tables w = None /\ snd (extractTableFromPage toLowerCase w) = Thrown)
  \/ (tables w = Some []
      /\ snd (extractTableFromPage toLowerCase w) = Returned None)
  \/ (exists ts t, tables w = Some ts /\ In t ts
        /\ snd (extractTableFromPage toLowerCase w)
           = Returned (Some (outerHTML t))).
Proof.
  rewrite extractTableFromPage_eq. cbn [snd].
  destruct (tables w) as [[|t0 ts]|]; [right; left | right; right | left];
    try (split; reflexivity).
  destruct (@select_table_member toLowerCase (t0 :: ts)) as (t & Hin & ->);
    [discriminate|].
  exists (t0 :: ts), t. repeat split. exact Hin.
Qed.

(** The button loop causes queries, clicks and waits, nothing else. *)
Lemma click_first_button_only w labels :
  Forall (fun e => match e with
                   | QueryButton _ | Click _ | WaitForLoadState => True
                   | _ => False
                   end)
    (fst (click_first_button w labels)).
Proof.
  induction labels as [|t labels IH]; [constructor|].
  cbn [click_first_button].
  destruct (query_button w t) eqn:E.
  - rewrite try_button_without by congruence. cbn [bind].
    destruct (click_first_button w labels) as [tr o]. cbn [fst app] in *.
    constructor; [exact I | exact IH].
  - rewrite try_button_without by congruence. cbn [bind].
    destruct (click_first_button w labels) as [tr o]. cbn [fst app] in *.
    constructor; [exact I | exact IH].
  - rewrite try_button_with by exact E. cbn [bind ret fst app].
    repeat constructor.
Qed.

Lemma prelude_events w :
  existsb is_exit (prelude w) = false
  /\ existsb is_write (prelude w) = false
  /\ existsb is_close (prelude w) = false.
Proof.
  unfold prelude. pose proof (click_first_button_only w buttonTexts) as H.
  rewrite !existsb_app.
  assert (Hq : existsb is_exit (fst (click_first_button w buttonTexts)) = false
               /\ existsb is_write (fst (click_first_button w buttonTexts))
                  = false
               /\ existsb is_close (fst (click_first_button w buttonTexts))
                  = false).
  { induction H as [|e tr He _ IH]; [repeat split|].
    destruct IH as (I1 & I2 & I3). cbn [existsb]. rewrite I1, I2, I3.
    destruct e; try contradiction; repeat split. }
  destruct Hq as (-> & -> & ->). repeat split.
Qed.

(** The button loop does not depend on whether the click and the wait
    after it succeed. *)
Lemma click_first_button_swallows w w' labels :
  query_button w' = query_button w ->
  click_first_button w' labels = click_first_button w labels.
Proof.
  intros Hq. induction labels as [|t labels IH]; [reflexivity|].
  cbn [click_first_button]. rewrite IH.
  destruct (query_button w t) eqn:E.
  - rewrite !try_button_without by congruence. reflexivity.
  - rewrite !try_button_without by congruence. reflexivity.
  - rewrite !try_button_with by congruence. reflexivity.
Qed.

Ltac run_eval :=
  cbn [act bind try_catch ignore_failure ret process_exit app fst snd];
  rewrite <- ?app_assoc; cbn [app]; try reflexivity.

(** The run, case by case. *)
Lemma main_cases toLowerCase w :
  main toLowerCase w
  = if negb (launch_ok w) then ([Launch], Thrown)
    else if negb (newContext_ok w) then handled [Launch; NewContext]
    else if negb (newPage_ok w) then handled [Launch; NewContext; NewPage]
    else if negb (goto_ok w) then handled [Launch; NewContext; NewPage; Goto]
    else
      match snd (extractTableFromPage toLowerCase w) with
      | Returned None | Returned (Some []) =>
          if content_ok w
          then (prelude w ++ [PageContent; ProcessExit 2], Exited)
          else handled (prelude w ++ [PageContent])
      | Returned (Some html) =>
          match parseTableHtmlToArray (Some html) with
          | None => (prelude w, Hangs)
          | Some [] => (prelude w ++ [ProcessExit 3], Exited)
          | Some tableArray =>
              if write_ok w then
                if close_ok w
                then (prelude w
                      ++ [WriteSheet tableArray; BrowserClose; ProcessExit 0],
                      Exited)
                else handled (prelude w ++ [WriteSheet tableArray; BrowserClose])
              else handled (prelude w ++ [WriteSheet tableArray])
          end
      | _ => handled (prelude w)
      end.
Proof.
  unfold main, main_try, prelude, handled.
  destruct (click_first_button_events w buttonTexts) as (trc & -> & _).
  rewrite extractTableFromPage_eq. cbn [fst snd].
  destruct (launch_ok w); [|reflexivity].
  destruct (newContext_ok w); [|destruct (close_ok w); reflexivity].
  destruct (newPage_ok w); [|destruct (close_ok w); reflexivity].
  destruct (goto_ok w); [|destruct (close_ok w); reflexivity].
  cbn [negb].
  destruct (tables w) as [ts|].
  - destruct (select_table toLowerCase ts) as [[[|c html]|]|].
    + destruct (content_ok w), (close_ok w); run_eval.
    + cbn [act bind]. cbv beta iota.
      destruct (parseTableHtmlToArray _) as [[|row rows]|].
      * run_eval.
      * destruct (write_ok w), (close_ok w); run_eval.
      * run_eval.
    + destruct (content_ok w), (close_ok w); run_eval.
    + destruct (close_ok w); run_eval.
  - destruct (close_ok w); run_eval.
Qed.

Lemma prelude_launch w :
  exists tr,
    prelude w = Launch :: tr
    /\ existsb is_exit tr = false /\ existsb is_write tr = false
    /\ existsb is_close tr = false.
Proof.
  destruct (prelude_events w) as (H1 & H2 & H3).
  exists (tl (prelude w)). split; [reflexivity|].
  repeat split; assumption.
Qed.

Lemma exit_code_prelude w tr :
  exit_code (prelude w ++ tr) = exit_code tr.
Proof. apply exit_code_app, prelude_events. Qed.

Lemma no_write_not_in tr v : existsb is_write tr = false -> ~ In (WriteSheet v) tr.
Proof.
  intros H Hin. assert (existsb is_write tr = true); [|congruence].
  apply existsb_exists. exists (WriteSheet v). split; [exact Hin | reflexivity].
Qed.

Lemma filter_none {A} (f : A -> bool) l : existsb f l = false -> filter f l = [].
Proof.
  induction l as [|x l IH]; [reflexivity|]. cbn [existsb filter].
  intros H. apply orb_false_iff in H. destruct H as (-> & H). exact (IH H).
Qed.

Lemma parse_clean_rows tableHtml rows :
  parseTableHtmlToArray tableHtml = Some rows -> clean_rows rows = true.
Proof.
  destruct tableHtml as [s|].
  - destruct (parse_segments s) as (trs & cellss & _ & _ & ->).
    intros E. injection E as <-. apply rows_of_clean.
  - intros E. injection E as <-. reflexivity.
Qed.

Lemma parse_returns tableHtml : parseTableHtmlToArray tableHtml <> None.
Proof.
  destruct tableHtml as [s|]; [|discriminate].
  destruct (parse_segments s) as (trs & cellss & _ & _ & ->). discriminate.
Qed.

Lemma extractTableFromPage_ends toLowerCase w :
  snd (extractTableFromPage toLowerCase w) <> Exited
  /\ snd (extractTableFromPage toLowerCase w) <> Hangs.
Proof.
  destruct (extractTableFromPage_outcome toLowerCase w)
    as [(_ & ->) | [(_ & ->) | (ts & t & _ & _ & ->)]];
    split; discriminate.
Qed.

(** The cases of [main_cases], with the exit code of each. *)
Ltac exit_cases toLowerCase w :=
  rewrite main_cases; unfold page_loaded, handled;
  destruct (launch_ok w), (newContext_ok w), (newPage_ok w), (goto_ok w);
  cbn [negb andb fst app exit_code];
  [destruct (snd (extractTableFromPage toLowerCase w))
     as [[[|?c ?html]|]| | |] eqn:?E;
   [destruct (content_ok w)
   |destruct (parseTableHtmlToArray _) as [[|?row ?rows]|] eqn:?P;
    [ |destruct (write_ok w), (close_ok w)
     |exfalso; revert P; apply parse_returns]
   |destruct (content_ok w)
   |
   |exfalso; revert E; apply extractTableFromPage_ends
   |exfalso; revert E; apply extractTableFromPage_ends];
   cbn [fst]; rewrite <- ?app_assoc, ?exit_code_prelude;
   cbn [app exit_code]
  |..].

(** What is left of a case that cannot be. *)
Ltac absurd_case :=
  let H := fresh in
  intros H;
  repeat match goal with
         | H : _ /\ _ |- _ => destruct H
         | H : exists _, _ |- _ => destruct H
         | H : _ \/ _ |- _ => destruct H
         | H : Returned (Some _) = Returned (Some _) |- _ =>
             injection H as H; subst
         end;
  try discriminate;
  try match goal with
      | H : parseTableHtmlToArray (Some []) = _ |- _ =>
          change (parseTableHtmlToArray (Some []))
            with (@Some (list (list jsstring)) []) in H
      end;
  congruence.

(** ** The configuration and the sheet *)

Lemma eqb_jsstring_eq a b : eqb_jsstring a b = true <-> a = b.
Proof.
  unfold eqb_jsstring. destruct (list_eq_dec N.eq_dec a b); split;
    congruence.
Qed.

Lemma is_tab_title env s : is_tab env s = true <-> has_title (SHEET_TAB env) s.
Proof.
  unfold is_tab, has_title. destruct (properties s) as [[title|]|].
  - rewrite eqb_jsstring_eq. split; congruence.
  - split; discriminate.
  - split; discriminate.
Qed.

Lemma find_is_tab_none env l :
  find (is_tab env) l = None
  <-> forall s, In s l -> ~ has_title (SHEET_TAB env) s.
Proof.
  split.
  - intros H s Hin Ht. apply is_tab_title in Ht.
    pose proof (find_none _ _ H _ Hin). congruence.
  - intros H. destruct (find (is_tab env) l) as [s|] eqn:E; [|reflexivity].
    apply find_some in E. destruct E as (Hin & Ht).
    apply is_tab_title in Ht. destruct (H s Hin Ht).
Qed.

(** [writeToGoogleSheet], case by case. *)
Lemma writeToGoogleSheet_cases json_valid env api values :
  writeToGoogleSheet json_valid env api values
  = if negb (json_valid (SERVICE_ACCOUNT_JSON env)) then ([], None)
    else if negb (getClient_ok api) then ([GetClient], None)
    else
      match spreadsheet api with
      | None => ([GetClient; SpreadsheetsGet (SHEET_ID env)], None)
      | Some meta =>
          match find (is_tab env) (sheets_of meta) with
          | Some _ =>
              ([GetClient; SpreadsheetsGet (SHEET_ID env);
                ValuesUpdate (SHEET_ID env) (SHEET_TAB env ++ js "!A1") values],
               if update_ok api then Some tt else None)
          | None =>
              if batchUpdate_ok api then
                ([GetClient; SpreadsheetsGet (SHEET_ID env);
                  AddSheet (SHEET_ID env) (SHEET_TAB env);
                  ValuesUpdate (SHEET_ID env) (SHEET_TAB env ++ js "!A1")
                    values],
                 if update_ok api then Some tt else None)
              else
                ([GetClient; SpreadsheetsGet (SHEET_ID env);
                  AddSheet (SHEET_ID env) (SHEET_TAB env)], None)
          end
      end.
Proof.
  unfold writeToGoogleSheet, sheets_of, call.
  destruct (json_valid _); [|reflexivity].
  destruct (getClient_ok api); [|reflexivity].
  destruct (spreadsheet api) as [meta|]; [|reflexivity].
  cbn [negb bind_calls app].
  destruct (find _ _) as [s|]; [reflexivity|].
  destruct (batchUpdate_ok api); reflexivity.
Qed.

Lemma bind_ret_l {A B} (a : A) (f : A -> run B) : bind (ret a) f = f a.
Proof. unfold bind, ret. destruct (f a) as [tr o]. reflexivity. Qed.

Lemma main_never_exits_1 toLowerCase w :
  exit_code (fst (main toLowerCase w)) <> Some 1.
Proof.
  pose proof (main_close_by_exit_code toLowerCase w) as H. intros E.
  rewrite E in H. exact H.
Qed.

Lemma check_environment_eq env :
  check_environment env
  = if configured env then ret tt else process_exit 1.
Proof.
  unfold check_environment, configured, SERVICE_ACCOUNT_JSON, SHEET_ID,
    or_default.
  destruct (env_SERVICE_ACCOUNT_JSON env) as [[|c s]|],
    (env_SHEET_ID env) as [[|d t]|]; reflexivity.
Qed.

(** ** Table markup as it is written *)

Lemma eq_ci_same a b : eq_ci a b = true -> same_ci a b.
Proof. unfold eq_ci, same_ci. apply eqb_jsstring_eq. Qed.

Lemma same_ci_sym a b : same_ci a b -> same_ci b a.
Proof. unfold same_ci. congruence. Qed.

Lemma same_ci_length a b : same_ci a b -> length a = length b.
Proof.
  unfold same_ci. intros H. apply (f_equal (@length _)) in H.
  rewrite !length_map in H. exact H.
Qed.

Lemma same_ci_app a b c d : same_ci a b -> same_ci c d -> same_ci (a ++ c) (b ++ d).
Proof. unfold same_ci. rewrite !map_app. congruence. Qed.

Lemma lt_free_no_lt a : lt_free a = no_lt a.
Proof.
  unfold lt_free, no_lt. induction a as [|c a IH]; [reflexivity|].
  cbn [forallb]. rewrite IH, canonicalize_lt. reflexivity.
Qed.

Lemma same_ci_lt_free a b : same_ci a b -> lt_free b = true -> lt_free a = true.
Proof.
  unfold same_ci. intros H Hb.
  assert (E : forall l, lt_free l
                        = forallb (fun c => negb (c =? canonicalize true ch_lt)%N)
                            (map (canonicalize true) l))
    by (intros l; symmetry;
        exact (forallb_map (fun c => negb (c =? canonicalize true ch_lt)%N)
                 (canonicalize true) l)).
  rewrite E in Hb |- *. rewrite H. exact Hb.
Qed.

Lemma same_ci_no_lt a b : same_ci a b -> lt_free b = true -> no_lt a = true.
Proof. intros H Hb. rewrite <- lt_free_no_lt. exact (same_ci_lt_free H Hb). Qed.

(** A mismatch in a text shows in every text that is the same, letter
    case ignored, whatever follows. *)
Lemma strip_prefix_mismatch w : forall p q X,
  same_ci p q -> length w <= length q ->
  strip_prefix true w q = None ->
  strip_prefix true w (p ++ X) = None.
Proof.
  unfold same_ci. induction w as [|a w IH]; intros p q X Hs Hl H;
    [discriminate|].
  destruct q as [|b q]; [simpl in Hl; lia|].
  destruct p as [|c p]; [discriminate|].
  cbn [map] in Hs. injection Hs as Hc Hs.
  cbn [app strip_prefix] in H |- *. rewrite Hc.
  destruct (canonicalize true a =? canonicalize true b)%N; [|reflexivity].
  apply (IH p q X Hs); [simpl in Hl; lia | exact H].
Qed.

Lemma cell_kind_written name X :
  same_ci name (js "td") \/ same_ci name (js "th") ->
  cell_kind (name ++ X) = Some (name, X).
Proof.
  intros H.
  assert (Hl : length name = 2)
    by (destruct H as [H|H]; apply same_ci_length in H; exact H).
  assert (Hf : firstn 2 (name ++ X) = name).
  { destruct name as [|a [|b [|c name]]]; try discriminate. reflexivity. }
  unfold cell_kind. rewrite Hf. destruct H as [H|H].
  - rewrite (strip_prefix_same_conv X H). reflexivity.
  - pose proof (strip_prefix_same_conv X H) as Hth.
    destruct (strip_prefix true (js "td") (name ++ X)) as [s1|] eqn:E.
    + apply strip_td_not_th in E. congruence.
    + rewrite Hth. reflexivity.
Qed.

Lemma same_ci_head_lt close w :
  same_ci close (ch_lt :: w) -> exists m, close = ch_lt :: m.
Proof.
  unfold same_ci. destruct close as [|c m]; [discriminate|].
  cbn [map]. intros H. injection H as Hc _.
  exists m. f_equal. apply N.eqb_eq.
  rewrite <- (canonicalize_lt true), Hc. apply N.eqb_refl.
Qed.

(** The first occurrence of a tag, letter case ignored, after a text that
    holds none. *)
Lemma find_ci_close w a close rest :
  lt_free w = true ->
  find_ci (ch_lt :: w) a = None ->
  same_ci close (ch_lt :: w) ->
  find_ci (ch_lt :: w) (a ++ close ++ rest) = Some (a, rest).
Proof.
  intros Hw Ha Hc. unfold find_ci.
  rewrite find_first_skips.
  - rewrite (find_first_here (strip_prefix true (ch_lt :: w))
               (close ++ rest) (b := rest)).
    + rewrite app_nil_r. reflexivity.
    + apply strip_prefix_same_conv. exact Hc.
  - apply skips_free; [exact Hw | exact Ha |].
    right. destruct (same_ci_head_lt Hc) as (m & ->).
    eexists. reflexivity.
Qed.

Lemma delimited_cell_parts c :
  delimited_cell c = true ->
  (same_ci (ce_name c) (js "td") \/ same_ci (ce_name c) (js "th"))
  /\ plain (ce_attrs c) = true
  /\ same_ci (ce_close c) (ce_name c)
  /\ find_ci (close_tag (ce_name c)) (ce_inner c) = None
  /\ find_ci (js "</tr>") (ce_inner c) = None.
Proof.
  unfold delimited_cell. intros H.
  apply andb_true_iff in H. destruct H as (H & Htr).
  apply andb_true_iff in H. destruct H as (H & Hown).
  apply andb_true_iff in H. destruct H as (H & _).
  apply andb_true_iff in H. destruct H as (H & Hclose).
  apply andb_true_iff in H. destruct H as (Hname & Hattrs).
  apply orb_true_iff in Hname.
  repeat split.
  - destruct Hname as [Hn|Hn]; [left | right]; apply eq_ci_same, Hn.
  - exact Hattrs.
  - apply eq_ci_same, Hclose.
  - apply occurs_ci_false, Hown.
  - apply occurs_ci_false, Htr.
Qed.

Lemma no_gap_nil gap : no_gap gap = true -> gap = [].
Proof. destruct gap; [reflexivity | discriminate]. Qed.

Lemma cell_name_lt_free name :
  same_ci name (js "td") \/ same_ci name (js "th") -> lt_free name = true.
Proof.
  intros [H|H]; apply (same_ci_lt_free H); reflexivity.
Qed.

(** A properly delimited cell with a tight closing tag is one match of
    the cell pattern. *)
Lemma here_cellRe_elem c rest :
  delimited_cell c = true -> no_gap (ce_gap c) = true ->
  here_of cellRe (write_cell c ++ rest)
  = Some (MState rest [(2, ce_inner c); (1, ce_name c)]).
Proof.
  intros H Hg. apply delimited_cell_parts in H.
  destruct H as (Hname & Hattrs & Hclose & Hown & _).
  apply no_gap_nil in Hg.
  unfold here_of. cbn [ignoreCase]. rewrite matcher_cellRe.
  unfold write_cell. rewrite Hg. cbn [app match_cell].
  replace (ch_lt =? ch_lt)%N with true by reflexivity.
  rewrite <- !app_assoc, (cell_kind_written _ Hname). unfold match_cell_body.
  cbn [app]. rewrite split_gt_app by exact Hattrs.
  rewrite <- !app_assoc.
  change (close_tag (ce_name c))
    with (ch_lt :: (N_of_ascii "/" :: ce_name c ++ [ch_gt])) in Hown |- *.
  change (ce_inner c ++ js "</" ++ ce_close c ++ [ch_gt] ++ rest)
    with (ce_inner c
          ++ (ch_lt :: N_of_ascii "/" :: ce_close c ++ [ch_gt] ++ rest)).
  replace (ch_lt :: N_of_ascii "/" :: ce_close c ++ [ch_gt] ++ rest)
    with ((ch_lt :: N_of_ascii "/" :: ce_close c ++ [ch_gt]) ++ rest)
    by (cbn [app]; rewrite <- app_assoc; reflexivity).
  rewrite (@find_ci_close (N_of_ascii "/" :: ce_name c ++ [ch_gt]));
    [reflexivity | | exact Hown |].
  - change (N_of_ascii "/" :: ce_name c ++ [ch_gt])
      with ([N_of_ascii "/"] ++ ce_name c ++ [ch_gt]).
    unfold lt_free. rewrite !forallb_app.
    fold (lt_free (ce_name c)). rewrite (cell_name_lt_free Hname).
    reflexivity.
  - apply (@same_ci_app [ch_lt; N_of_ascii "/"] [ch_lt; N_of_ascii "/"]
             (ce_close c ++ [ch_gt]) (ce_name c ++ [ch_gt]));
      [reflexivity|].
    apply same_ci_app; [exact Hclose | reflexivity].
Qed.

Lemma here_cellRe_none t :
  strip_prefix true (js "<td") t = None ->
  strip_prefix true (js "<th") t = None ->
  here_of cellRe t = None.
Proof.
  intros Hd Hh. unfold here_of. cbn [ignoreCase]. rewrite matcher_cellRe.
  destruct t as [|c s0]; [reflexivity|]. cbn [match_cell].
  destruct (c =? ch_lt)%N eqn:E; [|reflexivity].
  apply N.eqb_eq in E. subst c.
  change (js "<td") with (ch_lt :: js "td") in Hd.
  change (js "<th") with (ch_lt :: js "th") in Hh.
  cbn [strip_prefix] in Hd, Hh.
  replace (canonicalize true ch_lt =? canonicalize true ch_lt)%N with true
    in Hd, Hh by reflexivity.
  unfold cell_kind. rewrite Hd, Hh. reflexivity.
Qed.

(** No cell opens in the markup between the cells. *)
Lemma skips_cellRe_between f suf :
  between_cells f = true -> lt_next suf -> skips (here_of cellRe) f suf.
Proof.
  unfold between_cells. intros H Hs.
  apply andb_true_iff in H. destruct H as (H & _).
  apply andb_true_iff in H. destruct H as (Hd & Hh).
  apply occurs_ci_false in Hd, Hh.
  intros i Hi. apply here_cellRe_none.
  - apply (@skips_free (js "td")); [reflexivity | exact Hd | exact Hs | exact Hi].
  - apply (@skips_free (js "th")); [reflexivity | exact Hh | exact Hs | exact Hi].
Qed.

(** No row is closed in the markup between the cells. *)
Lemma skips_close_tr_between f suf :
  between_cells f = true -> lt_next suf ->
  skips (strip_prefix true (js "</tr>")) f suf.
Proof.
  unfold between_cells. intros H Hs.
  apply andb_true_iff in H. destruct H as (_ & H).
  apply occurs_ci_false in H.
  apply (@skips_free (js "/tr>")); [reflexivity | exact H | exact Hs].
Qed.

(** The opening tag of a row is no cell. *)
Lemma skips_cellRe_row_open name attrs suf :
  same_ci name (js "tr") -> plain attrs = true ->
  skips (here_of cellRe) (ch_lt :: name ++ attrs ++ [ch_gt]) suf.
Proof.
  intros Hn Ha.
  assert (Hs : same_ci (ch_lt :: name) (js "<tr"))
    by (apply (@same_ci_app [ch_lt] [ch_lt]); [reflexivity | exact Hn]).
  apply skips_cons.
  - rewrite <- !app_assoc. apply here_cellRe_none.
    + exact (@strip_prefix_mismatch (js "<td") (ch_lt :: name) (js "<tr")
               (attrs ++ [ch_gt] ++ suf) Hs ltac:(simpl; lia) eq_refl).
    + exact (@strip_prefix_mismatch (js "<th") (ch_lt :: name) (js "<tr")
               (attrs ++ [ch_gt] ++ suf) Hs ltac:(simpl; lia) eq_refl).
  - apply skips_no_lt; [apply here_cellRe_not_lt|].
    rewrite !no_lt_app, (same_ci_no_lt Hn), (plain_no_lt _ Ha) by reflexivity.
    reflexivity.
Qed.

(** The closing tag of a row is no cell. *)
Lemma skips_cellRe_row_close close suf :
  same_ci close (js "tr") ->
  skips (here_of cellRe) (js "</" ++ close ++ [ch_gt]) suf.
Proof.
  intros Hn. change (js "</" ++ close ++ [ch_gt])
    with (ch_lt :: N_of_ascii "/" :: close ++ [ch_gt]).
  apply skips_cons.
  - apply here_cellRe_none; reflexivity.
  - apply skips_no_lt; [apply here_cellRe_not_lt|].
    change (N_of_ascii "/" :: close ++ [ch_gt])
      with ([N_of_ascii "/"] ++ close ++ [ch_gt]).
    rewrite !no_lt_app, (same_ci_no_lt Hn) by reflexivity. reflexivity.
Qed.

Lemma delimited_cells_cons f c cells :
  forallb (fun fc => between_cells (fst fc) && delimited_cell (snd fc))
    ((f, c) :: cells) = true ->
  between_cells f = true /\ delimited_cell c = true
  /\ forallb (fun fc => between_cells (fst fc) && delimited_cell (snd fc))
       cells = true.
Proof.
  cbn [forallb fst snd]. intros H.
  apply andb_true_iff in H. destruct H as (H & Hr).
  apply andb_true_iff in H. tauto.
Qed.

Lemma tight_cells_cons (f : jsstring) c cells :
  forallb (fun fc : jsstring * cell_elem => no_gap (ce_gap (snd fc)))
    ((f, c) :: cells) = true ->
  no_gap (ce_gap c) = true
  /\ forallb (fun fc : jsstring * cell_elem => no_gap (ce_gap (snd fc)))
       cells = true.
Proof. cbn [forallb snd]. intros H. apply andb_true_iff in H. exact H. Qed.

Lemma write_cell_starts c : exists r, write_cell c = ch_lt :: r.
Proof. eexists. reflexivity. Qed.

(** The inner loop on a row segment: one match for each cell. *)
Lemma elems_loop tail e :
  between_cells tail = true ->
  (exists r, e = ch_lt :: r) -> skips (here_of cellRe) e [] ->
  forall cells pre f,
    (forall suf, skips (here_of cellRe) f suf) ->
    forallb (fun fc => between_cells (fst fc) && delimited_cell (snd fc))
      cells = true ->
    forallb (fun fc : jsstring * cell_elem => no_gap (ce_gap (snd fc)))
      cells = true ->
    exists cs,
      successive cellRe
        (pre ++ f ++ write_cells cells ++ tail ++ e) (length pre) cs
      /\ map cell_text cs
         = map (fun fc => normalize (ce_inner (snd fc))) cells.
Proof.
  intros Htail He Hse.
  induction cells as [|[f1 c] cells IH]; intros pre f Hf Hwf Htight.
  - exists []. split; [|reflexivity].
    apply successive_done with (li' := 0). apply exec_not_found.
    cbn [write_cells flat_map app].
    apply find_first_skips_all; [apply here_cellRe_nil|].
    apply skips_app; [apply Hf|]. apply skips_app; [|exact Hse].
    apply skips_cellRe_between; [exact Htail|].
    rewrite app_nil_r. right. exact He.
  - apply delimited_cells_cons in Hwf. destruct Hwf as (Hf1 & Hc & Hwf).
    apply tight_cells_cons in Htight. destruct Htight as (Hg & Htight).
    set (R := write_cells cells ++ tail ++ e).
    assert (Hstr : pre ++ f ++ write_cells ((f1, c) :: cells) ++ tail ++ e
                   = pre ++ (f ++ f1) ++ write_cell c ++ R).
    { unfold R. cbn [write_cells flat_map fst snd].
      fold (write_cells cells). rewrite <- !app_assoc. reflexivity. }
    assert (Hfind : find_first (here_of cellRe) ((f ++ f1) ++ write_cell c ++ R)
                    = Some (f ++ f1, MState R [(2, ce_inner c); (1, ce_name c)])).
    { rewrite find_first_skips.
      - rewrite (find_first_here (here_of cellRe) (write_cell c ++ R)
                   (@here_cellRe_elem c R Hc Hg)).
        rewrite app_nil_r. reflexivity.
      - apply skips_app; [apply Hf|].
        apply skips_cellRe_between; [exact Hf1|].
        right. destruct (write_cell_starts c) as (r & ->).
        eexists. reflexivity. }
    destruct (IH (pre ++ (f ++ f1) ++ write_cell c) []) as (cs & Hcs & Hmap).
    { intros suf. apply skips_nil. }
    { exact Hwf. }
    { exact Htight. }
    eexists (_ :: cs). split.
    + rewrite Hstr. eapply successive_next.
      * apply (@exec_found cellRe pre _ _ _ _ Hfind).
      * assert (0 < length (write_cell c)) by (simpl; lia). lia.
      * cbn [app] in Hcs. fold R in Hcs.
        replace (length pre + length (f ++ f1) + length (write_cell c))
          with (length (pre ++ (f ++ f1) ++ write_cell c))
          by (rewrite !length_app; lia).
        replace (pre ++ (f ++ f1) ++ write_cell c ++ R)
          with ((pre ++ (f ++ f1) ++ write_cell c) ++ R)
          by (rewrite <- !app_assoc; reflexivity).
        exact Hcs.
    + cbn [map]. rewrite Hmap. reflexivity.
Qed.

(** A closing row tag does not start where a cell opens or closes. *)
Lemma close_tr_not_at_cell_tag name X :
  same_ci name (js "td") \/ same_ci name (js "th") ->
  strip_prefix true (js "</tr>") (ch_lt :: name ++ X) = None
  /\ strip_prefix true (js "</tr>") (ch_lt :: N_of_ascii "/" :: name ++ X)
     = None.
Proof.
  intros H. split.
  - destruct name as [|a name]; [destruct H as [H|H]; discriminate|].
    assert (Ha : canonicalize true a = canonicalize true (N_of_ascii "t"))
      by (destruct H as [H|H]; unfold same_ci in H; cbn [map] in H;
          injection H as Ha _; exact Ha).
    change (js "</tr>") with (ch_lt :: N_of_ascii "/" :: js "tr>").
    cbn [app strip_prefix]. rewrite N.eqb_refl, Ha. reflexivity.
  - change (js "</tr>") with (js "</tr" ++ js ">").
    rewrite strip_prefix_app.
    assert (Hs : same_ci (ch_lt :: N_of_ascii "/" :: name) (js "</td")
                 \/ same_ci (ch_lt :: N_of_ascii "/" :: name) (js "</th")).
    { destruct H as [H|H]; [left | right];
        apply (@same_ci_app [ch_lt; N_of_ascii "/"] [ch_lt; N_of_ascii "/"]);
        try reflexivity; exact H. }
    change (ch_lt :: N_of_ascii "/" :: name ++ X)
      with ((ch_lt :: N_of_ascii "/" :: name) ++ X).
    destruct Hs as [Hs|Hs].
    + rewrite (@strip_prefix_mismatch (js "</tr")
                 (ch_lt :: N_of_ascii "/" :: name) (js "</td") X Hs);
        [reflexivity | simpl; lia | reflexivity].
    + rewrite (@strip_prefix_mismatch (js "</tr")
                 (ch_lt :: N_of_ascii "/" :: name) (js "</th") X Hs);
        [reflexivity | simpl; lia | reflexivity].
Qed.

(** No closing row tag starts in a properly delimited cell. *)
Lemma skips_close_tr_elem c suf :
  delimited_cell c = true -> no_gap (ce_gap c) = true ->
  skips (strip_prefix true (js "</tr>")) (write_cell c) suf.
Proof.
  intros H Hg. apply delimited_cell_parts in H.
  destruct H as (Hname & Hattrs & Hclose & _ & Htr).
  apply no_gap_nil in Hg. apply plain_no_lt in Hattrs.
  assert (Hnl : no_lt (ce_name c) = true)
    by (rewrite <- lt_free_no_lt; apply cell_name_lt_free, Hname).
  assert (Hcn : same_ci (ce_close c) (js "td") \/ same_ci (ce_close c) (js "th"))
    by (destruct Hname as [Hn|Hn]; [left | right];
        exact (same_ci_trans Hclose Hn)).
  assert (Hcl : no_lt (ce_close c) = true)
    by (rewrite <- lt_free_no_lt; apply cell_name_lt_free, Hcn).
  unfold write_cell. rewrite Hg.
  replace (ch_lt :: ce_name c ++ ce_attrs c ++ ch_gt :: ce_inner c
           ++ js "</" ++ ce_close c ++ [] ++ [ch_gt])
    with ([ch_lt] ++ (ce_name c ++ ce_attrs c ++ [ch_gt]) ++ ce_inner c
          ++ [ch_lt] ++ (N_of_ascii "/" :: ce_close c ++ [ch_gt]))
    by (cbn [app]; rewrite <- !app_assoc; reflexivity).
  apply skips_app; [|apply skips_app; [|apply skips_app; [|apply skips_app]]].
  - apply skips_cons; [|apply skips_nil].
    cbn [app]. rewrite <- !app_assoc.
    apply (close_tr_not_at_cell_tag _ Hname).
  - apply skips_close_tr_no_lt. rewrite !no_lt_app, Hnl, Hattrs. reflexivity.
  - apply (@skips_free (js "/tr>")); [reflexivity | exact Htr |].
    right. eexists. reflexivity.
  - apply skips_cons; [|apply skips_nil].
    cbn [app]. rewrite <- !app_assoc.
    apply (close_tr_not_at_cell_tag _ Hcn).
  - apply skips_close_tr_no_lt.
    change (N_of_ascii "/" :: ce_close c ++ [ch_gt])
      with ([N_of_ascii "/"] ++ ce_close c ++ [ch_gt]).
    rewrite !no_lt_app, Hcl. reflexivity.
Qed.

Lemma skips_close_tr_elems cells : forall suf,
  forallb (fun fc => between_cells (fst fc) && delimited_cell (snd fc))
    cells = true ->
  forallb (fun fc : jsstring * cell_elem => no_gap (ce_gap (snd fc)))
    cells = true ->
  skips (strip_prefix true (js "</tr>")) (write_cells cells) suf.
Proof.
  induction cells as [|[f c] cells IH]; intros suf H Ht.
  - apply skips_nil.
  - apply delimited_cells_cons in H. destruct H as (Hf & Hc & H).
    apply tight_cells_cons in Ht. destruct Ht as (Hg & Ht).
    cbn [write_cells flat_map fst snd]. fold (write_cells cells).
    apply skips_app; [apply skips_app|].
    + apply skips_close_tr_between; [exact Hf|].
      right. destruct (write_cell_starts c) as (r & ->).
      eexists. reflexivity.
    + apply skips_close_tr_elem; assumption.
    + apply IH; assumption.
Qed.

Lemma delimited_row_parts r :
  delimited_row r = true ->
  same_ci (re_name r) (js "tr")
  /\ plain (re_attrs r) = true
  /\ forallb (fun fc => between_cells (fst fc) && delimited_cell (snd fc))
       (re_cells r) = true
  /\ between_cells (re_tail r) = true
  /\ same_ci (re_close r) (js "tr").
Proof.
  unfold delimited_row. intros H.
  apply andb_true_iff in H. destruct H as (H & _).
  apply andb_true_iff in H. destruct H as (H & Hclose).
  apply andb_true_iff in H. destruct H as (H & Htail).
  apply andb_true_iff in H. destruct H as (H & Hcells).
  apply andb_true_iff in H. destruct H as (Hname & Hattrs).
  repeat split; try assumption; apply eq_ci_same; assumption.
Qed.

Lemma tight_row_parts r :
  tight_row r = true ->
  re_gap r = []
  /\ forallb (fun fc : jsstring * cell_elem => no_gap (ce_gap (snd fc)))
       (re_cells r) = true.
Proof.
  unfold tight_row. intros H. apply andb_true_iff in H.
  destruct H as (Hg & Hc). split; [apply no_gap_nil, Hg | exact Hc].
Qed.

(** A properly delimited row with tight closing tags is one row
    segment. *)
Lemma here_trRe_elem r rest :
  delimited_row r = true -> tight_row r = true ->
  here_of trRe (write_row r ++ rest) = Some (MState rest []).
Proof.
  intros H Ht. apply delimited_row_parts in H.
  destruct H as (Hname & Hattrs & Hcells & Htail & Hclose).
  apply tight_row_parts in Ht. destruct Ht as (Hg & Htc).
  apply plain_no_lt in Hattrs.
  unfold here_of. cbn [ignoreCase]. rewrite matcher_trRe. unfold match_tr.
  unfold write_row. rewrite Hg.
  set (body := re_attrs r ++ [ch_gt] ++ write_cells (re_cells r) ++ re_tail r).
  set (close := js "</" ++ re_close r ++ [ch_gt]).
  replace ((ch_lt :: re_name r ++ re_attrs r ++ ch_gt
            :: write_cells (re_cells r) ++ re_tail r
            ++ js "</" ++ re_close r ++ [] ++ [ch_gt]) ++ rest)
    with ((ch_lt :: re_name r) ++ body ++ close ++ rest)
    by (unfold body, close; cbn [app]; rewrite <- !app_assoc; cbn [app];
        rewrite <- !app_assoc; reflexivity).
  rewrite (@strip_prefix_same_conv (js "<tr") (ch_lt :: re_name r)).
  2: { apply (@same_ci_app [ch_lt] [ch_lt]); [reflexivity | exact Hname]. }
  assert (Hsc : same_ci close (js "</tr>")).
  { unfold close.
    apply (@same_ci_app (js "</") (js "</") (re_close r ++ [ch_gt]) (js "tr>"));
      [reflexivity|].
    apply (@same_ci_app (re_close r) (js "tr") [ch_gt] [ch_gt]);
      [exact Hclose | reflexivity]. }
  unfold find_ci. rewrite find_first_skips.
  - rewrite (find_first_here (strip_prefix true (js "</tr>"))
               (close ++ rest) (b := rest)); [reflexivity|].
    apply strip_prefix_same_conv. exact Hsc.
  - assert (Hnext : lt_next (close ++ rest))
      by (right; unfold close; eexists; reflexivity).
    unfold body.
    apply skips_app; [|apply skips_app; [|apply skips_app]].
    + apply skips_close_tr_no_lt. exact Hattrs.
    + apply skips_close_tr_no_lt. reflexivity.
    + apply skips_close_tr_elems; [exact Hcells | exact Htc].
    + apply skips_close_tr_between; [exact Htail | exact Hnext].
Qed.
Lemma elems_of_row r :
  delimited_row r = true -> tight_row r = true ->
  exists cs,
    successive cellRe (write_row r) 0 cs
    /\ map cell_text cs
       = map (fun fc => normalize (ce_inner (snd fc))) (re_cells r).
Proof.
  intros H Ht. apply delimited_row_parts in H.
  destruct H as (Hname & Hattrs & Hcells & Htail & Hclose).
  apply tight_row_parts in Ht. destruct Ht as (Hg & Htc).
  destruct (@elems_loop (re_tail r) (js "</" ++ re_close r ++ [ch_gt]) Htail)
    with (cells := re_cells r) (pre := @nil char)
         (f := ch_lt :: re_name r ++ re_attrs r ++ [ch_gt])
    as (cs & Hcs & Hmap).
  - eexists. reflexivity.
  - apply skips_cellRe_row_close. exact Hclose.
  - intros suf. apply skips_cellRe_row_open; assumption.
  - exact Hcells.
  - exact Htc.
  - exists cs. split; [|exact Hmap].
    cbn [app length] in Hcs. unfold write_row. rewrite Hg.
    replace (ch_lt :: re_name r ++ re_attrs r ++ ch_gt
             :: write_cells (re_cells r) ++ re_tail r
             ++ js "</" ++ re_close r ++ [] ++ [ch_gt])
      with (ch_lt :: (re_name r ++ re_attrs r ++ [ch_gt])
            ++ write_cells (re_cells r) ++ re_tail r
            ++ js "</" ++ re_close r ++ [ch_gt])
      by (rewrite <- !app_assoc; reflexivity).
    exact Hcs.
Qed.

Lemma delimited_rows_cons f r rows :
  forallb (fun fr => negb (occurs_ci (js "<tr") (fst fr))
                     && delimited_row (snd fr)) ((f, r) :: rows) = true ->
  negb (occurs_ci (js "<tr") f) = true /\ delimited_row r = true
  /\ forallb (fun fr => negb (occurs_ci (js "<tr") (fst fr))
                        && delimited_row (snd fr)) rows = true.
Proof.
  cbn [forallb fst snd]. intros H.
  apply andb_true_iff in H. destruct H as (H & Hr).
  apply andb_true_iff in H. tauto.
Qed.

(** The outer loop on a well-formed table with tight closing tags: one
    match for each row. *)
Lemma row_elems_loop tail :
  negb (occurs_ci (js "<tr") tail) = true ->
  forall rows pre,
    forallb (fun fr => negb (occurs_ci (js "<tr") (fst fr))
                       && delimited_row (snd fr)) rows = true ->
    forallb (fun fr : jsstring * row_elem => tight_row (snd fr)) rows = true ->
    exists trs cellss,
      successive trRe (pre ++ write_rows rows ++ tail) (length pre) trs
      /\ Forall2 (fun tr cs => successive cellRe (matched tr) 0 cs) trs cellss
      /\ rows_of cellss = texts_of rows.
Proof.
  intros Htail. induction rows as [|[f r] rows IH]; intros pre Hwf Htight.
  - exists [], []. repeat split; [|constructor].
    apply successive_done with (li' := 0). apply exec_not_found.
    cbn [write_rows flat_map app].
    apply find_first_skips_all; [apply here_trRe_nil|].
    apply skips_trRe_free; [exact Htail | left; reflexivity].
  - apply delimited_rows_cons in Hwf. destruct Hwf as (Hf & Hr & Hwf).
    cbn [forallb snd] in Htight. apply andb_true_iff in Htight.
    destruct Htight as (Htr & Htight).
    set (R := write_rows rows ++ tail).
    assert (Hstr : pre ++ write_rows ((f, r) :: rows) ++ tail
                   = pre ++ f ++ write_row r ++ R).
    { unfold R. cbn [write_rows flat_map fst snd]. fold (write_rows rows).
      rewrite <- !app_assoc. reflexivity. }
    assert (Hfind : find_first (here_of trRe) (f ++ write_row r ++ R)
                    = Some (f, MState R [])).
    { rewrite find_first_skips.
      - rewrite (find_first_here (here_of trRe) (write_row r ++ R)
                   (@here_trRe_elem r R Hr Htr)).
        rewrite app_nil_r. reflexivity.
      - apply skips_trRe_free; [exact Hf|]. right. eexists. reflexivity. }
    destruct (IH (pre ++ f ++ write_row r) Hwf Htight)
      as (trs & cellss & Ht & Hc & He).
    destruct (elems_of_row r Hr Htr) as (cs & Hcs & Hmap).
    eexists (_ :: trs), (cs :: cellss). repeat split.
    + rewrite Hstr. eapply successive_next.
      * apply (@exec_found trRe pre _ _ _ _ Hfind).
      * assert (0 < length (write_row r)) by (simpl; lia). lia.
      * fold R in Ht.
        replace (length pre + length f + length (write_row r))
          with (length (pre ++ f ++ write_row r))
          by (rewrite !length_app; lia).
        replace (pre ++ f ++ write_row r ++ R)
          with ((pre ++ f ++ write_row r) ++ R)
          by (rewrite <- !app_assoc; reflexivity).
        exact Ht.
    + constructor; [exact Hcs | exact Hc].
    + unfold rows_of, texts_of in *. cbn [filter fst snd].
      assert (Hlen : length cs = length (re_cells r)).
      { apply (f_equal (@length _)) in Hmap. rewrite !length_map in Hmap.
        exact Hmap. }
      rewrite Hlen. destruct (0 <? length (re_cells r)); cbn [map].
      * rewrite Hmap, He. reflexivity.
      * exact He.
Qed.

(** The parser on a well-formed table with tight closing tags. *)
Lemma parse_write_table t :
  delimited_table t = true -> tight_table t = true ->
  parseTableHtmlToArray (Some (write_table t))
  = Some (texts_of (te_rows t)).
Proof.
  unfold delimited_table, tight_table. intros H Ht. apply andb_true_iff in H.
  destruct H as (Hrows & Htail).
  destruct (@row_elems_loop (te_tail t) Htail (te_rows t) [] Hrows Ht)
    as (trs & cellss & Hs & Hc & He).
  cbn [app length] in Hs. fold (write_table t) in Hs.
  rewrite (parse_of_successive Hs Hc), He. reflexivity.
Qed.

(** ** The status of the process *)

Lemma last_app_cons {A} (l : list A) x l' d :
  last (l ++ x :: l') d = last (x :: l') d.
Proof.
  induction l as [|a l IH]; [reflexivity|].
  cbn [app]. rewrite <- IH.
  destruct (l ++ x :: l') eqn:E; [destruct l; discriminate|]. reflexivity.
Qed.

Lemma script_eq toLowerCase env w :
  script toLowerCase env w
  = if configured env then main toLowerCase w else ([ProcessExit 1], Exited).
Proof.
  unfold script. rewrite check_environment_eq.
  destruct (configured env); [|reflexivity].
  exact (bind_ret_l tt (fun _ => main toLowerCase w)).
Qed.

(** The main function ends the process with the code of its
    [process.exit], and with status 1 when the launch is rejected. *)
Lemma exit_status_main toLowerCase w :
  exit_status (main toLowerCase w)
  = if launch_ok w then exit_code (fst (main toLowerCase w)) else Some 1.
Proof.
  unfold exit_status.
  exit_cases toLowerCase w; cbn [fst snd];
    rewrite ?last_app_cons; reflexivity.
Qed.

(** * The claims *)

(** C1, as stated, fails: a ['>'] that closes no tag stays in the output
    (and so does a ['<'] that no ['>'] follows). *)
Lemma normalize_keeps_unmatched_gt :
  ~ (~ In ch_lt (normalize (js "a > b"))
     /\ ~ In ch_gt (normalize (js "a > b"))
     /\ ~ has_space_run (normalize (js "a > b"))).
Proof.
  intros (_ & H & _). apply H. vm_compute. tauto.
Qed.

(** C1 (amended): for every markup fragment the output of the Markup
    Normalizer contains no ['<'] that is followed, anywhere later, by a
    ['>'] (no tag is left), and no run of two or more whitespace
    characters. *)
Theorem normalize_no_tag_no_space_run (inner : jsstring) :
  ~ has_tag (normalize inner) /\ ~ has_space_run (normalize inner).
Proof.
  rewrite normalize_eq.
  set (t := collapse_space false (strip_tags (js " ") false inner)).
  destruct (trim_split t) as (w1 & w2 & Ht).
  split; intros H.
  - apply (has_tag_infix w1 w2) in H. rewrite <- Ht in H.
    revert H. apply no_tag_sound. unfold t.
    rewrite no_tag_collapse. apply no_tag_strip_tags.
  - apply (has_space_run_infix w1 w2) in H. rewrite <- Ht in H.
    revert H. apply no_run_sound. apply no_run_collapse.
Qed.

(** C2, as stated, fails: a tag is not deleted, a space takes its place,
    so the texts on both sides of a tag stay apart. *)
Lemma normalize_is_not_tag_deletion :
  normalize (js "a<b>c") <> spec_normalize (js "a<b>c").
Proof.
  vm_compute. discriminate.
Qed.

(** C2 (amended): for every markup fragment the output of the Markup
    Normalizer is the result of replacing every tag-delimited substring
    (from a ['<'] to the next ['>'], inclusive) by one space, then
    collapsing every run of whitespace into one space, then trimming
    leading and trailing whitespace; character entities are left as they
    are. *)
Theorem normalize_replaces_tags_by_space :
  (forall inner : jsstring,
     normalize inner
     = trim (collapse_space false (strip_tags (js " ") false inner)))
  /\ normalize (js "R&amp;D &#39;x&#39; &lt;b&gt;")
     = js "R&amp;D &#39;x&#39; &lt;b&gt;".
Proof.
  split; [exact normalize_eq | vm_compute; reflexivity].
Qed.

(** C6: for every table markup the Table Parser appends one Cell, the
    normalised text (the empty text for an empty cell such as
    [<td></td>]), for every cell element found in a row segment, and
    appends a Row exactly when the row segment has at least one cell
    element; so every Row of the output has at least one Cell. *)
Theorem parse_one_cell_per_element_rows_with_cells :
  (forall tableHtml : jsstring, exists trs cellss,
     successive trRe tableHtml 0 trs
     /\ Forall2 (fun tr cs => successive cellRe (matched tr) 0 cs) trs cellss
     /\ parseTableHtmlToArray (Some tableHtml)
        = Some (map (map cell_text)
                  (filter (fun cs => 0 <? length cs) cellss))
     /\ Forall (fun row => row <> [])
          (map (map cell_text) (filter (fun cs => 0 <? length cs) cellss)))
  /\ parseTableHtmlToArray (Some (js "<tr><td></td></tr>")) = Some [[ [] ]]
  /\ parseTableHtmlToArray
       (Some (js "<tr></tr><tr><td></td><th>x</th></tr><tr> </tr>"))
     = Some [[ []; js "x" ]].
Proof.
  split; [|split; vm_compute; reflexivity].
  intros tableHtml.
  destruct (parse_segments tableHtml) as (trs & cellss & H1 & H2 & H3).
  exists trs, cellss. repeat split; try assumption.
  apply rows_of_nonempty.
Qed.

(** C7: the Table Parser keeps the document order of the rows and of the
    cells of each row, and sorts nothing: the row segments follow each
    other in the markup, the cell segments follow each other in their row
    segment, and the output lists their texts in that order; the markup
    [<tr><td>A</td><td>B</td></tr><tr><td>C</td></tr>] gives
    [[["A","B"],["C"]]]. *)
Theorem parse_keeps_document_order :
  (forall tableHtml : jsstring, exists trs cellss,
     successive trRe tableHtml 0 trs
     /\ Forall2 (fun tr cs => successive cellRe (matched tr) 0 cs) trs cellss
     /\ parseTableHtmlToArray (Some tableHtml)
        = Some (map (map cell_text)
                  (filter (fun cs => 0 <? length cs) cellss))
     /\ document_order tableHtml trs
     /\ Forall2 (fun tr cs => document_order (matched tr) cs) trs cellss)
  /\ parseTableHtmlToArray
       (Some (js "<tr><td>A</td><td>B</td></tr><tr><td>C</td></tr>"))
     = Some [[js "A"; js "B"]; [js "C"]].
Proof.
  split; [|vm_compute; reflexivity].
  intros tableHtml.
  destruct (parse_segments tableHtml) as (trs & cellss & H1 & H2 & H3).
  exists trs, cellss. repeat split; try assumption.
  - apply (successive_facts trRe_progress H1).
  - apply (successive_facts trRe_progress H1).
  - apply (successive_cells_facts H2).
Qed.

(** C10: for every markup the Table Parser makes a Cell only from a cell
    segment with an opening tag and an explicit closing tag of the same
    name, and a Row only from a segment with an explicit [</tr>]; an
    opening tag without such a closing tag gives nothing, so markup that
    relies on implied end tags gives fewer, possibly no, Cells and Rows. *)
Theorem parse_needs_explicit_closing_tags :
  (forall tableHtml : jsstring, exists trs cellss,
     successive trRe tableHtml 0 trs
     /\ Forall2 (fun tr cs => successive cellRe (matched tr) 0 cs) trs cellss
     /\ parseTableHtmlToArray (Some tableHtml)
        = Some (map (map cell_text)
                  (filter (fun cs => 0 <? length cs) cellss))
     /\ Forall (fun tr => is_row_segment (matched tr)) trs
     /\ Forall (Forall (fun c => is_cell_segment (matched c) (cell_text c)))
          cellss)
  /\ (forall tableHtml : jsstring,
        find_ci (js "</tr>") tableHtml = None ->
        parseTableHtmlToArray (Some tableHtml) = Some [])
  /\ (forall tableHtml : jsstring,
        find_ci (js "</td>") tableHtml = None ->
        find_ci (js "</th>") tableHtml = None ->
        parseTableHtmlToArray (Some tableHtml) = Some [])
  /\ parseTableHtmlToArray
       (Some (js "<table><tr><td>A<td>B<tr><td>C</table>")) = Some []
  /\ parseTableHtmlToArray (Some (js "<tr><td>x</th></tr>")) = Some []
  /\ parseTableHtmlToArray (Some (js "<tr><td>A<td>B</td></tr>"))
     = Some [[js "A B"]].
Proof.
  split; [|split; [|split; [|repeat split; vm_compute; reflexivity]]].
  - intros tableHtml.
    destruct (parse_segments tableHtml) as (trs & cellss & H1 & H2 & H3).
    exists trs, cellss. repeat split; try assumption.
    + pose proof (successive_facts trRe_progress H1) as (_ & _ & Hm).
      eapply Forall_impl; [|exact Hm]. cbn beta.
      intros tr (after & Hh & _). apply here_trRe_shape in Hh. exact Hh.
    + apply (successive_cells_facts H2).
  - intros tableHtml Hn.
    destruct (parse_segments tableHtml) as (trs & cellss & H1 & H2 & H3).
    rewrite H3. rewrite (no_close_tr_no_segment Hn H1) in H2.
    inversion H2; subst. reflexivity.
  - intros tableHtml Hd Hh.
    destruct (parse_segments tableHtml) as (trs & cellss & H1 & H2 & H3).
    rewrite H3. f_equal.
    pose proof (successive_facts trRe_progress H1) as (_ & (Hl & _) & _).
    clear H1 H3. induction H2 as [|tr cs trs cellss Hc _ IH]; [reflexivity|].
    inversion Hl as [|? ? Hloc Hl']; subst.
    apply located_infix in Hloc. destruct Hloc as (p & q & Hs).
    rewrite Hs in Hd, Hh. apply find_ci_infix in Hd, Hh.
    rewrite (no_close_cell_no_segment Hd Hh Hc). cbn [filter Nat.ltb Nat.leb length].
    apply IH. exact Hl'.
Qed.

(** C10 at markup with implied end tags. *)
Lemma parse_needs_explicit_closing_tags_witness :
  (find_ci (js "</tr>") (js "<table><tr><td>A</td><tr><td>B</td></table>")
   = None
   /\ parseTableHtmlToArray
        (Some (js "<table><tr><td>A</td><tr><td>B</td></table>")) = Some [])
  /\ (find_ci (js "</td>") (js "<tr><td>A<td>B</tr>") = None
      /\ find_ci (js "</th>") (js "<tr><td>A<td>B</tr>") = None
      /\ parseTableHtmlToArray (Some (js "<tr><td>A<td>B</tr>")) = Some []).
Proof.
  split.
  - split; [vm_compute; reflexivity|].
    apply (proj1 (proj2 parse_needs_explicit_closing_tags)).
    vm_compute; reflexivity.
  - split; [vm_compute; reflexivity|]. split; [vm_compute; reflexivity|].
    apply (proj1 (proj2 (proj2 parse_needs_explicit_closing_tags)));
      vm_compute; reflexivity.
Defined.

(** C8, as stated, fails: a closing tag may be written with whitespace
    before its ['>'], as in [</td >]; the cell pattern does not match such
    a cell, so a well-formed table of two rows with one cell each gives
    one Row. *)
Lemma parse_row_count_wrong_with_spaced_closing_tag :
  delimited_table spaced_close_table = true
  /\ write_table spaced_close_table
     = js "<table><tr><td>a</td ></tr><tr><td>b</td></tr></table>"
  /\ length (rows_with_cells spaced_close_table) = 2
  /\ parseTableHtmlToArray (Some (write_table spaced_close_table))
     = Some [[js "b"]]
  /\ ~ (exists rows,
          parseTableHtmlToArray (Some (write_table spaced_close_table))
          = Some rows
          /\ length rows = length (rows_with_cells spaced_close_table)).
Proof.
  assert (Hp : parseTableHtmlToArray (Some (write_table spaced_close_table))
               = Some [[js "b"]]) by (vm_compute; reflexivity).
  repeat split; try (vm_compute; reflexivity).
  intros (rows & Hr & Hl). rewrite Hp in Hr. injection Hr as Hr.
  subst rows. vm_compute in Hl. discriminate.
Qed.

(** C8 (amended): for every well-formed single-table markup (rows and
    cells properly delimited by an opening and a closing tag of the same
    name, in any letter case; rows not nested) in which nothing stands
    between the name and the ['>'] of a closing tag, the number of Rows
    of the Table Parser's output is the number of row elements with at
    least one cell element; the Rows are the normalised inner markups of
    the cells of these rows. *)
Theorem parse_row_count_of_delimited_table (t : table_elem) :
  delimited_table t = true -> tight_table t = true ->
  exists rows,
    parseTableHtmlToArray (Some (write_table t)) = Some rows
    /\ length rows = length (rows_with_cells t)
    /\ rows = texts_of (te_rows t).
Proof.
  intros H Ht. exists (texts_of (te_rows t)).
  split; [apply parse_write_table; assumption|].
  split; [|reflexivity]. unfold texts_of, rows_with_cells. apply length_map.
Qed.

(** C8 at [mixed_case_table], at a table in upper case, and at a table
    with a comment between two cells. *)
Lemma parse_row_count_of_delimited_table_witness :
  ((delimited_table mixed_case_table = true
    /\ tight_table mixed_case_table = true)
   /\ write_table mixed_case_table
      = js "<TABLE id=t><THEAD><TR class=h><TH>Papel</TH><!-- c --><Th title=x>Cota<br>o</tH> </TR></THEAD><tbody><tr> </tr><Tr> <TD><a href=d?p=ABCD11>ABCD11</a></td> <td>10,50</TD></tR></tbody></TABLE>"
   /\ exists rows,
        parseTableHtmlToArray (Some (write_table mixed_case_table))
        = Some rows
        /\ length rows = 2
        /\ rows = [ [js "Papel"; js "Cota o"]; [js "ABCD11"; js "10,50"] ])
  /\ (exists rows,
        parseTableHtmlToArray (Some (js "<TABLE><TR><TD>a</TD></TR></TABLE>"))
        = Some rows
        /\ length rows = 1 /\ rows = [ [js "a"] ])
  /\ (exists rows,
        parseTableHtmlToArray
          (Some (js "<table><tr><td>a</td><!-- c --><td>b</td></tr></table>"))
        = Some rows
        /\ length rows = 1 /\ rows = [ [js "a"; js "b"] ]).
Proof.
  split; [|split].
  - split; [split; vm_compute; reflexivity|].
    split; [vm_compute; reflexivity|].
    destruct (parse_row_count_of_delimited_table mixed_case_table)
      as (rows & H1 & H2 & H3); [vm_compute; reflexivity..|].
    exists rows. split; [exact H1|]. split.
    + rewrite H2. vm_compute. reflexivity.
    + rewrite H3. vm_compute. reflexivity.
  - destruct (parse_row_count_of_delimited_table
                (TableElem
                   [ (js "<TABLE>",
                      RowElem (js "TR") []
                        [ ([], CellElem (js "TD") [] (js "a") (js "TD") []) ]
                        [] (js "TR") []) ]
                   (js "</TABLE>")))
      as (rows & H1 & H2 & H3); [vm_compute; reflexivity..|].
    exists rows. split; [exact H1|]. split.
    + rewrite H2. vm_compute. reflexivity.
    + rewrite H3. vm_compute. reflexivity.
  - destruct (parse_row_count_of_delimited_table
                (TableElem
                   [ (js "<table>",
                      RowElem (js "tr") []
                        [ ([], CellElem (js "td") [] (js "a") (js "td") []);
                          (js "<!-- c -->",
                           CellElem (js "td") [] (js "b") (js "td") []) ]
                        [] (js "tr") []) ]
                   (js "</table>")))
      as (rows & H1 & H2 & H3); [vm_compute; reflexivity..|].
    exists rows. split; [exact H1|]. split.
    + rewrite H2. vm_compute. reflexivity.
    + rewrite H3. vm_compute. reflexivity.
Defined.

(** C4: for every non-empty Candidate Set with a candidate whose visible
    text contains the marker, letter case ignored, the Table Selector
    returns the outer markup of the first such candidate in document
    order, not of the first candidate; for the candidates "Foo bar" and
    "Papel coisa" and the marker "papel" it returns the markup of the
    second. *)
Theorem select_table_first_with_marker :
  (forall (toLowerCase : jsstring -> jsstring) before t after,
     toLowerCase [] = [] ->
     (forall c, In c before -> ~ contains_marker toLowerCase c) ->
     contains_marker toLowerCase t ->
     select_table toLowerCase (before ++ t :: after)
     = Normal (Some (outerHTML t)))
  /\ (forall X Y : jsstring,
        select_table toLowerCase_ascii
          [Element (ReadString (js "Foo bar")) X;
           Element (ReadString (js "Papel coisa")) Y]
        = Normal (Some Y)).
Proof.
  split.
  - intros toLowerCase before t after Hnil Hb Ht. unfold select_table.
    rewrite first_marked_first by assumption. reflexivity.
  - intros X Y. reflexivity.
Qed.

(** C4 at three candidates: the second and the third contain the marker,
    the first cannot be read. *)
Lemma select_table_first_with_marker_witness :
  select_table toLowerCase_ascii
    ([Element ReadThrows (js "<table>1</table>")]
     ++ Element (ReadString (js "PAPEL Cotacao")) (js "<table>2</table>")
     :: [Element (ReadString (js "Papel")) (js "<table>3</table>")])
  = Normal (Some (js "<table>2</table>")).
Proof.
  apply (proj1 select_table_first_with_marker toLowerCase_ascii
           [Element ReadThrows (js "<table>1</table>")]
           (Element (ReadString (js "PAPEL Cotacao")) (js "<table>2</table>"))
           [Element (ReadString (js "Papel")) (js "<table>3</table>")]).
  - reflexivity.
  - intros c [<- | []] (s & pre & post & Hs & _). discriminate.
  - exists (js "PAPEL Cotacao"), [], (js " cotacao"). split; reflexivity.
Defined.

(** C5: table selection is total and never throws: for every non-empty
    Candidate Set in which no candidate's visible text contains the marker
    (a candidate whose inspection fails counts as one without the marker
    and does not end the iteration) the Table Selector returns the outer
    markup of the first candidate; for the empty Candidate Set it returns
    the absence value. *)
Theorem select_table_total_with_fallback :
  (forall (toLowerCase : jsstring -> jsstring) tables,
     exists r, select_table toLowerCase tables = Normal r)
  /\ (forall (toLowerCase : jsstring -> jsstring) t0 tables,
        (forall c, In c (t0 :: tables) -> ~ contains_marker toLowerCase c) ->
        select_table toLowerCase (t0 :: tables) = Normal (Some (outerHTML t0)))
  /\ (forall toLowerCase : jsstring -> jsstring,
        select_table toLowerCase [] = Normal None)
  /\ (forall X Y Z : jsstring,
        select_table toLowerCase_ascii
          [Element (ReadString (js "Foo")) X; Element ReadThrows Y;
           Element (ReadString (js "o Papel")) Z]
        = Normal (Some Z)).
Proof.
  split; [|split; [|split]].
  - intros toLowerCase tables. unfold select_table.
    destruct (first_marked_normal toLowerCase tables) as ([html|] & ->);
      cbn [bind_completion]; [eexists; reflexivity|].
    destruct tables; eexists; reflexivity.
  - intros toLowerCase t0 tables H. unfold select_table.
    rewrite first_marked_none by exact H. reflexivity.
  - reflexivity.
  - intros X Y Z. reflexivity.
Qed.

(** C5 at two candidates without the marker, the first of which cannot be
    read. *)
Lemma select_table_total_with_fallback_witness :
  select_table toLowerCase_ascii
    [Element ReadThrows (js "<table>1</table>");
     Element (ReadString (js "Ativo Preco")) (js "<table>2</table>")]
  = Normal (Some (js "<table>1</table>")).
Proof.
  apply (proj1 (proj2 select_table_total_with_fallback) toLowerCase_ascii
           (Element ReadThrows (js "<table>1</table>"))
           [Element (ReadString (js "Ativo Preco")) (js "<table>2</table>")]).
  intros c [<- | [<- | []]] (s & pre & post & Hs & Hl).
  - discriminate.
  - inversion Hs; subst s; clear Hs.
    assert (Hi : includes (toLowerCase_ascii (js "Ativo Preco")) marker = true)
      by (apply includes_iff; eauto).
    vm_compute in Hi. discriminate.
Defined.

(** C3 fails on the code: when no table is found the run exits with
    code 2, and when no row is parsed with code 3, without an attempt to
    close the browser; only the exits with code 0 and 4 come after
    [browser.close()]. *)
Theorem main_exits_2_and_3_without_close :
  main toLowerCase_ascii no_table_world
  = ([Launch; NewContext; NewPage; Goto] ++ map QueryButton buttonTexts
     ++ [WaitForLoadState; WaitForSelector; EvalTables; PageContent;
         ProcessExit 2],
     Exited)
  /\ main toLowerCase_ascii no_rows_world
     = ([Launch; NewContext; NewPage; Goto] ++ map QueryButton buttonTexts
        ++ [WaitForLoadState; WaitForSelector; EvalTables; ProcessExit 3],
        Exited)
  /\ (forall (toLowerCase : jsstring -> jsstring) (w : world),
        match exit_code (fst (main toLowerCase w)) with
        | Some 0 | Some 4 =>
            existsb is_close (fst (main toLowerCase w)) = true
        | Some 2 | Some 3 =>
            existsb is_close (fst (main toLowerCase w)) = false
        | Some _ => False
        | None => True
        end).
Proof.
  split; [vm_compute; reflexivity|].
  split; [vm_compute; reflexivity|].
  exact main_close_by_exit_code.
Qed.

(** C9: in the result-generation step the labels of the list are tried in
    order and the loop stops after the first activation of a matching
    control (a failure of the click itself is ignored): at most one
    control is activated in a run, and after a label without a matching
    control the search goes on with the next label. *)
Theorem click_first_button_stops_at_first_button :
  (forall (w : world) (labels : list jsstring), exists tr,
     click_first_button w labels = (tr, Returned tt)
     /\ length (filter is_click tr) <= 1)
  /\ (forall (w : world) before l after,
        (forall x, In x before -> query_button w x <> Button) ->
        query_button w l = Button ->
        click_first_button w (before ++ l :: after)
        = (map QueryButton before
           ++ [QueryButton l; Click l; WaitForLoadState],
           Returned tt))
  /\ (forall (w : world) (labels : list jsstring),
        (forall x, In x labels -> query_button w x <> Button) ->
        click_first_button w labels = (map QueryButton labels, Returned tt))
  /\ (forall (toLowerCase : jsstring -> jsstring) (w : world),
        clicks (main toLowerCase w) <= 1).
Proof.
  split; [|split; [|split]].
  - intros w labels.
    destruct (click_first_button_events w labels) as (tr & H & Hc & _).
    exists tr. auto.
  - exact click_first_button_first.
  - exact click_first_button_none.
  - exact clicks_main.
Qed.

(** C9 on [buttonTexts], the third of which has a button. *)
Lemma click_first_button_stops_at_first_button_witness :
  click_first_button third_button_world buttonTexts
  = ([QueryButton (js "Filtrar"); QueryButton (js "Gerar");
      QueryButton (js "Buscar"); Click (js "Buscar"); WaitForLoadState],
     Returned tt)
  /\ click_first_button no_table_world buttonTexts
     = (map QueryButton buttonTexts, Returned tt).
Proof.
  split.
  - apply (proj1 (proj2 click_first_button_stops_at_first_button)
             third_button_world [js "Filtrar"; js "Gerar"] (js "Buscar")
             [js "Pesquisar"; js "Aplicar filtros"]).
    + intros x [<- | [<- | []]]; vm_compute; discriminate.
    + vm_compute. reflexivity.
  - apply (proj1 (proj2 (proj2 click_first_button_stops_at_first_button))).
    intros x _. discriminate.
Defined.

(** * Further properties of the code *)

(** ** The Markup Normalizer *)

(** X1: normalising twice is normalising once. *)
Theorem normalize_idempotent (s : jsstring) :
  normalize (normalize s) = normalize s.
Proof. apply normalize_clean, clean_normalize. Qed.

(** X2: the texts the Markup Normalizer leaves as they are, are the clean
    texts: no tag, single plain spaces as only whitespace, no whitespace
    at either end. *)
Theorem normalize_fixed_points (s : jsstring) :
  normalize s = s <-> clean s = true.
Proof.
  split; [|apply normalize_clean].
  intros H. rewrite <- H. apply clean_normalize.
Qed.

(** X3: in a normalised text every whitespace code unit is the plain space
    U+0020 (tabs, line breaks and no-break spaces are gone), and neither
    the first nor the last code unit is whitespace. *)
Theorem normalize_whitespace_is_inner_plain_space (s : jsstring) :
  (forall c, In c (normalize s) -> is_space c = true -> c = ch_sp)
  /\ (forall c r, normalize s = c :: r -> is_space c = false)
  /\ (forall r c, normalize s = r ++ [c] -> is_space c = false).
Proof.
  pose proof (clean_normalize s) as H. unfold clean in H.
  apply andb_true_iff in H. destruct H as (H & Hl).
  apply andb_true_iff in H. destruct H as (H & Hh).
  apply andb_true_iff in H. destruct H as (_ & Hs).
  apply negb_true_iff in Hl, Hh. split; [|split].
  - intros c Hc Hsp. unfold plain_spaces in Hs.
    rewrite forallb_forall in Hs. specialize (Hs c Hc).
    rewrite Hsp in Hs. cbn [negb orb] in Hs. apply N.eqb_eq. exact Hs.
  - intros c r E. rewrite E in Hh. exact Hh.
  - intros r c E. rewrite E, rev_app_distr in Hl. exact Hl.
Qed.

(** X4: the Markup Normalizer never makes a text longer. *)
Theorem normalize_never_longer (s : jsstring) :
  length (normalize s) <= length s.
Proof.
  rewrite normalize_eq.
  pose proof (trim_length (collapse_space false (strip_tags (js " ") false s))).
  pose proof (collapse_space_length (strip_tags (js " ") false s) false).
  pose proof (strip_tags_length s false). lia.
Qed.

(** X5: the code units of the result that are no whitespace are those of
    the input outside its tags, in the same order: only tags and
    whitespace are touched. *)
Theorem normalize_keeps_visible_text (s : jsstring) :
  visible (normalize s) = visible (strip_tags [] false s).
Proof.
  rewrite normalize_eq, visible_trim, visible_collapse.
  apply visible_strip_tags. reflexivity.
Qed.

(** X6: the result is the empty text exactly when the input holds nothing
    but tags and whitespace. *)
Theorem normalize_empty_iff_only_tags_and_whitespace (s : jsstring) :
  normalize s = [] <-> forallb is_space (strip_tags [] false s) = true.
Proof.
  rewrite <- visible_nil_spaces, <- visible_normalize. split.
  - intros ->. reflexivity.
  - intros H. apply visible_nil_spaces in H.
    pose proof (clean_normalize s) as Hc. unfold clean in Hc.
    apply andb_true_iff in Hc. destruct Hc as (Hc & _).
    apply andb_true_iff in Hc. destruct Hc as (_ & Hh).
    destruct (normalize s) as [|c r]; [reflexivity|].
    cbn [forallb] in H. apply andb_true_iff in H. destruct H as (H & _).
    cbn [head_space] in Hh. rewrite H in Hh. discriminate.
Qed.

(** ** [parseTableHtmlToArray] *)

(** X7: whatever it is given, [parseTableHtmlToArray] returns, and what it
    returns holds no empty row and only clean cells: normalising a cell
    of the result again changes nothing. *)
Theorem parse_returns_clean_rows (tableHtml : option jsstring) :
  exists rows,
    parseTableHtmlToArray tableHtml = Some rows
    /\ clean_rows rows = true
    /\ map (map normalize) rows = rows.
Proof.
  assert (H : exists rows, parseTableHtmlToArray tableHtml = Some rows
                           /\ clean_rows rows = true).
  { destruct tableHtml as [s|]; [|exists []; split; reflexivity].
    destruct (parse_segments s) as (trs & cellss & _ & _ & ->).
    eexists. split; [reflexivity | apply rows_of_clean]. }
  destruct H as (rows & Hp & Hc). exists rows.
  split; [exact Hp|]. split; [exact Hc|].
  unfold clean_rows in Hc. rewrite forallb_forall in Hc.
  rewrite <- (map_id rows) at 2. apply map_ext_in. intros row Hrow.
  specialize (Hc row Hrow). apply andb_true_iff in Hc. destruct Hc as (_ & Hc).
  rewrite forallb_forall in Hc.
  rewrite <- (map_id row) at 2. apply map_ext_in. intros c Hin.
  apply normalize_clean, Hc, Hin.
Qed.

(** X8: markup in which no [<tr] occurs, in any letter case, gives no
    row, whatever cells it holds. *)
Theorem parse_nothing_without_row_open (tableHtml : jsstring) :
  occurs_ci (js "<tr") tableHtml = false ->
  parseTableHtmlToArray (Some tableHtml) = Some [].
Proof.
  intros H. apply no_row_open_no_segment in H.
  apply (@parse_of_successive tableHtml [] []); [exact H | constructor].
Qed.

(** X8 at a table whose cells are in no row. *)
Lemma parse_nothing_without_row_open_witness :
  occurs_ci (js "<tr") (js "<table><td>Papel</td><td>ABCD11</td></table>")
  = false
  /\ parseTableHtmlToArray
       (Some (js "<table><td>Papel</td><td>ABCD11</td></table>")) = Some [].
Proof.
  split; [vm_compute; reflexivity|].
  apply parse_nothing_without_row_open. vm_compute. reflexivity.
Defined.



(** X10: every list of non-empty rows of clean cells is a value of
    [parseTableHtmlToArray]: the plainest markup of the rows is parsed
    back to them. With X7 these lists are exactly the values it has. *)
Theorem parse_markup_of_rows (rows : list (list jsstring)) :
  clean_rows rows = true ->
  parseTableHtmlToArray (Some (markup_of_rows rows)) = Some rows.
Proof.
  intros H. unfold markup_of_rows.
  rewrite (parse_render_table _ (wf_doc_of_rows _ H)).
  rewrite (expected_rows_clean _ (clean_cells_doc_of_rows _ H)).
  rewrite (content_doc_of_rows _ H). reflexivity.
Qed.

(** X10 at two rows. *)
Lemma parse_markup_of_rows_witness :
  clean_rows [ [js "Papel"; js "Segmento"]; [js "ABCD11"; []] ] = true
  /\ parseTableHtmlToArray
       (Some (js "<tr><td>Papel</td><td>Segmento</td></tr><tr><td>ABCD11</td><td></td></tr>"))
     = Some [ [js "Papel"; js "Segmento"]; [js "ABCD11"; []] ].
Proof.
  split; [vm_compute; reflexivity|].
  apply (parse_markup_of_rows [ [js "Papel"; js "Segmento"]; [js "ABCD11"; []] ]).
  vm_compute. reflexivity.
Defined.

(** ** The table selector *)

(** X11: for a page with at least one table the callback returns the
    outer markup of one of the tables of the page, never [null] and never
    a text of its own. *)
Theorem select_table_returns_markup_of_a_candidate
    (toLowerCase : jsstring -> jsstring) (tables : list element) :
  tables <> [] ->
  exists t, In t tables
            /\ select_table toLowerCase tables = Normal (Some (outerHTML t)).
Proof. apply select_table_member. Qed.

(** X11 at two tables, none of which holds the marker. *)
Lemma select_table_returns_markup_of_a_candidate_witness :
  [Element ReadUndefined (js "<table>1</table>");
   Element (ReadString (js "Ativo")) (js "<table>2</table>")] <> []
  /\ exists t,
       In t [Element ReadUndefined (js "<table>1</table>");
             Element (ReadString (js "Ativo")) (js "<table>2</table>")]
       /\ select_table toLowerCase_ascii
            [Element ReadUndefined (js "<table>1</table>");
             Element (ReadString (js "Ativo")) (js "<table>2</table>")]
          = Normal (Some (outerHTML t)).
Proof.
  split; [discriminate|].
  apply select_table_returns_markup_of_a_candidate. discriminate.
Defined.

(** X12: the callback returns [null] exactly when the page has no
    table. *)
Theorem select_table_null_iff_no_candidate
    (toLowerCase : jsstring -> jsstring) (tables : list element) :
  select_table toLowerCase tables = Normal None <-> tables = [].
Proof. apply select_table_none. Qed.

(** X13: a table whose text cannot be read (the read throws) or is empty
    counts as a table without text: the choice is the same as if its
    [innerText] were [undefined]. *)
Theorem select_table_unreadable_text_is_no_text
    (toLowerCase : jsstring -> jsstring) (tables : list element) :
  select_table toLowerCase (map unreadable_as_undefined tables)
  = select_table toLowerCase tables.
Proof.
  unfold select_table. rewrite first_marked_unreadable.
  destruct tables as [|t0 tables]; [reflexivity|].
  cbn [map]. rewrite outerHTML_unreadable. reflexivity.
Qed.

(** ** [extractTableFromPage] *)

(** X14: [extractTableFromPage] always makes the two waits and the
    evaluation, in this order; a wait that fails changes nothing; it
    fails exactly when the evaluation is rejected, returns [null] exactly
    when the page has no table, and otherwise returns the outer markup of
    a table of the page. *)
Theorem extractTableFromPage_fails_only_with_the_evaluation
    (toLowerCase : jsstring -> jsstring) (w : world) :
  fst (extractTableFromPage toLowerCase w)
  = [WaitForLoadState; WaitForSelector; EvalTables]
  /\ (snd (extractTableFromPage toLowerCase w) = Thrown <-> tables w = None)
  /\ (snd (extractTableFromPage toLowerCase w) = Returned None
      <-> tables w = Some [])
  /\ (forall ts, tables w = Some ts -> ts <> [] ->
        exists t, In t ts
                  /\ snd (extractTableFromPage toLowerCase w)
                     = Returned (Some (outerHTML t))).
Proof.
  split; [rewrite extractTableFromPage_eq; reflexivity|].
  destruct (extractTableFromPage_outcome toLowerCase w)
    as [(Ht & Ho) | [(Ht & Ho) | (ts & t & Ht & Hin & Ho)]];
    rewrite Ho, Ht.
  - repeat split; try discriminate.
  - repeat split; try discriminate.
    intros ts E Hn. injection E as E. congruence.
  - repeat split; try discriminate.
    + intros E. injection E as E. subst ts. destruct Hin.
    + intros ts' E Hn. injection E as E. subst ts'.
      exists t. split; [exact Hin | reflexivity].
Qed.

(** ** The run *)

(** X15: a run whose browser cannot be launched ends with the rejection
    of the launch, without any exit code of its own; every other run ends
    by [process.exit], called once, as the last thing the run does, with
    the code 0, 2, 3 or 4: the run never hangs in the parser. *)
Theorem main_exits_unless_launch_fails
    (toLowerCase : jsstring -> jsstring) (w : world) :
  (launch_ok w = false /\ main toLowerCase w = ([Launch], Thrown))
  \/ (launch_ok w = true
      /\ exists tr code,
           main toLowerCase w = (Launch :: tr ++ [ProcessExit code], Exited)
           /\ existsb is_exit tr = false
           /\ In code [0; 2; 3; 4]).
Proof.
  rewrite main_cases. destruct (prelude_launch w) as (p & Hp & He & _).
  rewrite Hp. unfold handled.
  destruct (launch_ok w); [right | left; split; reflexivity].
  split; [reflexivity|]. cbn [negb].
  destruct (newContext_ok w); cbn [negb];
    [|exists [NewContext; BrowserClose], 4; cbn; intuition].
  destruct (newPage_ok w); cbn [negb];
    [|exists [NewContext; NewPage; BrowserClose], 4; cbn; intuition].
  destruct (goto_ok w); cbn [negb];
    [|exists [NewContext; NewPage; Goto; BrowserClose], 4; cbn; intuition].
  assert (Hex : forall tl, existsb is_exit tl = false ->
                           existsb is_exit (p ++ tl) = false).
  { intros tl H. rewrite existsb_app, He, H. reflexivity. }
  destruct (snd (extractTableFromPage toLowerCase w)) as [[[|c html]|]| | |].
  - destruct (content_ok w).
    + exists (p ++ [PageContent]), 2. cbn [app]. rewrite <- app_assoc.
      split; [reflexivity|]. split; [apply Hex; reflexivity | cbn; auto].
    + exists (p ++ [PageContent; BrowserClose]), 4. cbn [app].
      rewrite <- !app_assoc.
      split; [reflexivity|]. split; [apply Hex; reflexivity | cbn; auto 6].
  - pose proof (@parse_returns (Some (c :: html))) as Hr.
    destruct (parseTableHtmlToArray _) as [[|row rows]|]; [| |congruence].
    + exists p, 3. split; [reflexivity|]. split; [exact He | cbn; auto].
    + destruct (write_ok w); [destruct (close_ok w)|].
      * exists (p ++ [WriteSheet (row :: rows); BrowserClose]), 0.
        cbn [app]. rewrite <- !app_assoc.
        split; [reflexivity|]. split; [apply Hex; reflexivity | cbn; auto].
      * exists (p ++ [WriteSheet (row :: rows); BrowserClose; BrowserClose]), 4.
        cbn [app]. rewrite <- !app_assoc.
        split; [reflexivity|]. split; [apply Hex; reflexivity | cbn; auto 6].
      * exists (p ++ [WriteSheet (row :: rows); BrowserClose]), 4.
        cbn [app]. rewrite <- !app_assoc.
        split; [reflexivity|]. split; [apply Hex; reflexivity | cbn; auto 6].
  - destruct (content_ok w).
    + exists (p ++ [PageContent]), 2. cbn [app]. rewrite <- app_assoc.
      split; [reflexivity|]. split; [apply Hex; reflexivity | cbn; auto].
    + exists (p ++ [PageContent; BrowserClose]), 4. cbn [app].
      rewrite <- !app_assoc.
      split; [reflexivity|]. split; [apply Hex; reflexivity | cbn; auto 6].
  - exists (p ++ [BrowserClose]), 4. cbn [app]. rewrite <- !app_assoc.
    split; [reflexivity|]. split; [apply Hex; reflexivity | cbn; auto 6].
  - exists (p ++ [BrowserClose]), 4. cbn [app]. rewrite <- !app_assoc.
    split; [reflexivity|]. split; [apply Hex; reflexivity | cbn; auto 6].
  - exists (p ++ [BrowserClose]), 4. cbn [app]. rewrite <- !app_assoc.
    split; [reflexivity|]. split; [apply Hex; reflexivity | cbn; auto 6].
Qed.

(** X16: the run exits with code 0 exactly when the browser starts, the
    page loads, a table with non-empty markup is chosen, its markup gives
    at least one row, the sheet is written, and the browser is closed
    without failure. *)
Theorem main_exit_0_iff (toLowerCase : jsstring -> jsstring) (w : world) :
  exit_code (fst (main toLowerCase w)) = Some 0
  <-> page_loaded w = true
      /\ (exists html rows,
            snd (extractTableFromPage toLowerCase w) = Returned (Some html)
            /\ parseTableHtmlToArray (Some html) = Some rows
            /\ rows <> [])
      /\ write_ok w = true /\ close_ok w = true.
Proof.
  exit_cases toLowerCase w; (split; [try discriminate | try absurd_case]).
  intros _. split; [reflexivity|]. split; [|split; reflexivity].
  exists (c :: html), (row :: rows). repeat split; [exact P | discriminate].
Qed.

(** X17: the run exits with code 2 exactly when the browser starts, the
    page loads, the page has no table or the markup of the chosen table
    is the empty text, and the content of the page can be read for the
    log; when reading the content fails, the exit code is not 2. *)
Theorem main_exit_2_iff (toLowerCase : jsstring -> jsstring) (w : world) :
  exit_code (fst (main toLowerCase w)) = Some 2
  <-> page_loaded w = true
      /\ (snd (extractTableFromPage toLowerCase w) = Returned None
          \/ snd (extractTableFromPage toLowerCase w) = Returned (Some []))
      /\ content_ok w = true.
Proof.
  exit_cases toLowerCase w; (split; [try discriminate | try absurd_case]);
    intros _; auto.
Qed.

(** X18: the run exits with code 3 exactly when the browser starts, the
    page loads, and the markup of the chosen table is not empty but gives
    no row. *)
Theorem main_exit_3_iff (toLowerCase : jsstring -> jsstring) (w : world) :
  exit_code (fst (main toLowerCase w)) = Some 3
  <-> page_loaded w = true
      /\ exists html,
           snd (extractTableFromPage toLowerCase w) = Returned (Some html)
           /\ html <> []
           /\ parseTableHtmlToArray (Some html) = Some [].
Proof.
  exit_cases toLowerCase w; (split; [try discriminate | try absurd_case]).
  intros _. split; [reflexivity|].
  exists (c :: html). repeat split; [discriminate | exact P].
Qed.

(** X19: the run exits with code 4 exactly when the browser starts and a
    step of the [try] fails: opening the context or the page, loading
    the page, evaluating the tables, reading the content of a page
    without table, writing the sheet, or closing the browser after the
    sheet is written. *)
Theorem main_exit_4_iff (toLowerCase : jsstring -> jsstring) (w : world) :
  exit_code (fst (main toLowerCase w)) = Some 4
  <-> launch_ok w = true
      /\ (newContext_ok w = false \/ newPage_ok w = false
          \/ goto_ok w = false
          \/ snd (extractTableFromPage toLowerCase w) = Thrown
          \/ ((snd (extractTableFromPage toLowerCase w) = Returned None
               \/ snd (extractTableFromPage toLowerCase w)
                  = Returned (Some []))
              /\ content_ok w = false)
          \/ (exists html rows,
                snd (extractTableFromPage toLowerCase w)
                = Returned (Some html)
                /\ parseTableHtmlToArray (Some html) = Some rows
                /\ rows <> []
                /\ (write_ok w = false \/ close_ok w = false))).
Proof.
  exit_cases toLowerCase w; (split; [try discriminate | try absurd_case]);
    intros _; (split; [reflexivity|]); auto 7;
    try (do 4 right; left; split; [auto | reflexivity]; fail).
  - do 5 right. exists (c :: html), (row :: rows).
    repeat split; [exact P | discriminate | auto].
  - do 5 right. exists (c :: html), (row :: rows).
    repeat split; [exact P | discriminate | auto].
  - do 5 right. exists (c :: html), (row :: rows).
    repeat split; [exact P | discriminate | auto].
Qed.

(** X20: when the run writes to the sheet, the page was loaded, and what
    it writes is what [parseTableHtmlToArray] made of the markup that
    [extractTableFromPage] returned: at least one row, no empty row, clean
    cells; and it writes once. *)
Theorem main_writes_the_parsed_table
    (toLowerCase : jsstring -> jsstring) (w : world)
    (values : list (list jsstring)) :
  In (WriteSheet values) (fst (main toLowerCase w)) ->
  page_loaded w = true
  /\ (exists html,
        snd (extractTableFromPage toLowerCase w) = Returned (Some html)
        /\ parseTableHtmlToArray (Some html) = Some values)
  /\ values <> [] /\ clean_rows values = true
  /\ filter is_write (fst (main toLowerCase w)) = [WriteSheet values].
Proof.
  exit_cases toLowerCase w; intros H;
    try (apply in_app_or in H; destruct H as [H|H];
         [exfalso; revert H; apply no_write_not_in, prelude_events|]);
    cbn [In] in H;
    repeat match goal with H : _ \/ _ |- _ => destruct H as [H|H] end;
    try discriminate; try contradiction;
    injection H as H; subst values;
    (split; [reflexivity|]);
    (split; [exists (c :: html); split; [reflexivity | exact P]|]);
    (split; [discriminate|]);
    (split; [eapply parse_clean_rows; exact P|]);
    rewrite filter_app, filter_none by apply prelude_events; reflexivity.
Qed.

(** X20 at [one_table_world]. *)
Lemma main_writes_the_parsed_table_witness :
  In (WriteSheet [[js "Papel"]; [js "ABCD11"]])
     (fst (main toLowerCase_ascii one_table_world))
  /\ filter is_write (fst (main toLowerCase_ascii one_table_world))
     = [WriteSheet [[js "Papel"]; [js "ABCD11"]]].
Proof.
  assert (H : In (WriteSheet [[js "Papel"]; [js "ABCD11"]])
                 (fst (main toLowerCase_ascii one_table_world))).
  { vm_compute. do 12 right. left. reflexivity. }
  split; [exact H|].
  destruct (main_writes_the_parsed_table _ _ _ H) as (_ & _ & _ & _ & Hf).
  exact Hf.
Defined.

(** X21: when the sheet is written and closing the browser then fails,
    the run closes the browser a second time and exits with code 4,
    although the data is in the sheet. *)
Theorem main_failed_close_after_write_exits_4
    (toLowerCase : jsstring -> jsstring) (w : world)
    (values : list (list jsstring)) :
  In (WriteSheet values) (fst (main toLowerCase w)) ->
  write_ok w = true -> close_ok w = false ->
  main toLowerCase w
  = (prelude w
     ++ [WriteSheet values; BrowserClose; BrowserClose; ProcessExit 4],
     Exited).
Proof.
  exit_cases toLowerCase w; intros H Hw Hc; try discriminate;
    try (apply in_app_or in H; destruct H as [H|H];
         [exfalso; revert H; apply no_write_not_in, prelude_events|]);
    cbn [In] in H;
    repeat match goal with H : _ \/ _ |- _ => destruct H as [H|H] end;
    try discriminate; try contradiction.
  injection H as H. subst values. reflexivity.
Qed.

(** X21 at [failing_close_world]. *)
Lemma main_failed_close_after_write_exits_4_witness :
  (In (WriteSheet [[js "Papel"]; [js "ABCD11"]])
      (fst (main toLowerCase_ascii failing_close_world))
   /\ write_ok failing_close_world = true
   /\ close_ok failing_close_world = false)
  /\ main toLowerCase_ascii failing_close_world
     = (prelude failing_close_world
        ++ [WriteSheet [[js "Papel"]; [js "ABCD11"]]; BrowserClose;
            BrowserClose; ProcessExit 4],
        Exited).
Proof.
  assert (H : In (WriteSheet [[js "Papel"]; [js "ABCD11"]])
                 (fst (main toLowerCase_ascii failing_close_world))).
  { vm_compute. do 12 right. left. reflexivity. }
  split; [split; [exact H | split; reflexivity]|].
  apply (main_failed_close_after_write_exits_4 _ _ _ H); reflexivity.
Defined.

(** X22: the failures the run swallows do not show: a run is the same,
    event by event, whether or not the click on the button, the wait
    after it, and the two waits of [extractTableFromPage] succeed. *)
Theorem main_ignores_swallowed_failures
    (toLowerCase : jsstring -> jsstring)
    (launch newContext newPage goto : bool)
    (buttons : jsstring -> query_result)
    (click click' : jsstring -> bool)
    (load load' idle idle' selector selector' : bool)
    (ts : option (list element)) (content write close : bool) :
  main toLowerCase
    (World launch newContext newPage goto buttons click load idle selector
           ts content write close)
  = main toLowerCase
      (World launch newContext newPage goto buttons click' load' idle'
             selector' ts content write close).
Proof.
  set (w := World _ _ _ _ _ click _ _ _ _ _ _ _).
  set (w' := World _ _ _ _ _ click' _ _ _ _ _ _ _).
  rewrite !main_cases.
  assert (Hp : prelude w' = prelude w).
  { unfold prelude. do 3 f_equal.
    apply click_first_button_swallows. reflexivity. }
  assert (He : snd (extractTableFromPage toLowerCase w')
               = snd (extractTableFromPage toLowerCase w)).
  { rewrite !extractTableFromPage_eq. reflexivity. }
  rewrite Hp, He. reflexivity.
Qed.

(** ** The configuration *)

(** X23: when the credentials or the sheet identifier are not set, or are
    the empty text, the program exits with code 1 before anything else
    happens: no browser is launched. Otherwise the main function runs.
    The process ends with status 1 exactly when the configuration is
    missing or the browser cannot be launched (the launch is outside the
    [try] and nothing handles its rejection): the status 1 does not tell
    the two apart. *)
Theorem script_status_1_iff_not_configured_or_no_launch
    (toLowerCase : jsstring -> jsstring) (env : environment) (w : world) :
  script toLowerCase env w
  = (if configured env then main toLowerCase w
     else ([ProcessExit 1], Exited))
  /\ (exit_status (script toLowerCase env w) = Some 1
      <-> configured env = false \/ launch_ok w = false).
Proof.
  split; [apply script_eq|]. rewrite script_eq.
  destruct (configured env).
  - rewrite exit_status_main. destruct (launch_ok w).
    + split; [|intros [H|H]; discriminate]. intros E.
      destruct (main_never_exits_1 toLowerCase w E).
    + split; auto.
  - split; [auto | reflexivity].
Qed.

(** ** [writeToGoogleSheet] *)

(** X24: [writeToGoogleSheet] asks for a new sheet exactly when the
    credentials parse, the client is made, the spreadsheet is read, and
    none of its sheets has the title of the tab (an entry without
    properties or without title has not); the new sheet gets the title of
    the tab, in the configured spreadsheet. *)
Theorem writeToGoogleSheet_adds_the_tab_iff_missing
    (json_valid : jsstring -> bool) (env : environment) (api : sheets_api)
    (values : list (list jsstring)) (id title : jsstring) :
  In (AddSheet id title) (fst (writeToGoogleSheet json_valid env api values))
  <-> id = SHEET_ID env /\ title = SHEET_TAB env
      /\ json_valid (SERVICE_ACCOUNT_JSON env) = true
      /\ getClient_ok api = true
      /\ exists meta,
           spreadsheet api = Some meta
           /\ forall s, In s (sheets_of meta) ->
                        ~ has_title (SHEET_TAB env) s.
Proof.
  rewrite writeToGoogleSheet_cases.
  destruct (json_valid _); cbn [negb];
    [|split; [intros [] | intros (_ & _ & H & _); discriminate]].
  destruct (getClient_ok api); cbn [negb];
    [|split; [cbn; intuition discriminate
             | intros (_ & _ & _ & H & _); discriminate]].
  destruct (spreadsheet api) as [meta|];
    [|split; [cbn; intuition discriminate
             | intros (_ & _ & _ & _ & m & H & _); discriminate]].
  destruct (find (is_tab env) (sheets_of meta)) as [s|] eqn:E.
  - split; [cbn; intuition discriminate|].
    intros (_ & _ & _ & _ & m & Hm & Hn). injection Hm as Hm. subst m.
    pose proof (proj2 (find_is_tab_none env _) Hn). congruence.
  - pose proof (proj1 (find_is_tab_none env _) E) as Hno.
    assert (Hin : forall tl,
              In (AddSheet id title)
                 (GetClient :: SpreadsheetsGet (SHEET_ID env)
                  :: AddSheet (SHEET_ID env) (SHEET_TAB env) :: tl)
              -> ~ In (AddSheet id title) tl
              -> id = SHEET_ID env /\ title = SHEET_TAB env).
    { intros tl [H|[H|[H|H]]] Hn; try discriminate; [|contradiction].
      injection H as H1 H2. auto. }
    destruct (batchUpdate_ok api); cbn [fst]; split.
    + intros H. apply Hin in H; [|cbn; intuition discriminate].
      destruct H as (-> & ->). repeat split. exists meta. auto.
    + intros (-> & -> & _). cbn. auto.
    + intros H. apply Hin in H; [|cbn; intuition discriminate].
      destruct H as (-> & ->). repeat split. exists meta. auto.
    + intros (-> & -> & _). cbn. auto.
Qed.

(** X25: [writeToGoogleSheet] returns exactly when the credentials parse
    and every call it makes succeeds: making the client, reading the
    spreadsheet, adding the sheet when no sheet has the title of the tab,
    and updating the values. *)
Theorem writeToGoogleSheet_returns_iff
    (json_valid : jsstring -> bool) (env : environment) (api : sheets_api)
    (values : list (list jsstring)) :
  snd (writeToGoogleSheet json_valid env api values) = Some tt
  <-> json_valid (SERVICE_ACCOUNT_JSON env) = true
      /\ getClient_ok api = true
      /\ (exists meta,
            spreadsheet api = Some meta
            /\ ((exists s, In s (sheets_of meta)
                           /\ has_title (SHEET_TAB env) s)
                \/ batchUpdate_ok api = true))
      /\ update_ok api = true.
Proof.
  rewrite writeToGoogleSheet_cases.
  destruct (json_valid _); cbn [negb];
    [|split; [discriminate | intros (H & _); discriminate]].
  destruct (getClient_ok api); cbn [negb];
    [|split; [discriminate | intros (_ & H & _); discriminate]].
  destruct (spreadsheet api) as [meta|];
    [|split; [discriminate | intros (_ & _ & (m & H & _) & _); discriminate]].
  destruct (find (is_tab env) (sheets_of meta)) as [s|] eqn:E.
  - apply find_some in E. destruct E as (Hin & Ht). apply is_tab_title in Ht.
    cbn [snd]. destruct (update_ok api); split; try discriminate.
    + intros _. repeat split. exists meta. split; [reflexivity|].
      left. exists s. auto.
    + reflexivity.
    + intros (_ & _ & _ & H). discriminate.
  - pose proof (proj1 (find_is_tab_none env _) E) as Hn.
    destruct (batchUpdate_ok api), (update_ok api); cbn [snd]; split;
      try discriminate; try reflexivity.
    + intros _. repeat split. exists meta. auto.
    + intros (_ & _ & _ & H). discriminate.
    + intros (_ & _ & (m & Hm & [(s & Hin & Ht) | H]) & _);
        [|discriminate]. injection Hm as Hm. subst m. destruct (Hn s Hin Ht).
    + intros (_ & _ & _ & H). discriminate.
Qed.

(** X26: [writeToGoogleSheet] updates the values at most once, as its
    last call: in the configured spreadsheet, from cell A1 of the tab,
    with the values it was given; when adding the sheet fails, it updates
    nothing. *)
Theorem writeToGoogleSheet_updates_last_from_A1
    (json_valid : jsstring -> bool) (env : environment) (api : sheets_api)
    (values v : list (list jsstring)) (id range : jsstring) :
  In (ValuesUpdate id range v)
     (fst (writeToGoogleSheet json_valid env api values)) ->
  (id = SHEET_ID env /\ range = SHEET_TAB env ++ js "!A1" /\ v = values)
  /\ (exists tr,
        fst (writeToGoogleSheet json_valid env api values)
        = tr ++ [ValuesUpdate id range v]
        /\ existsb is_update tr = false)
  /\ (existsb is_add (fst (writeToGoogleSheet json_valid env api values))
      = true -> batchUpdate_ok api = true).
Proof.
  rewrite writeToGoogleSheet_cases.
  destruct (json_valid _); cbn [negb]; [|intros []].
  destruct (getClient_ok api); cbn [negb]; [|cbn; intuition discriminate].
  destruct (spreadsheet api) as [meta|]; [|cbn; intuition discriminate].
  destruct (find (is_tab env) (sheets_of meta)) as [s|];
    [|destruct (batchUpdate_ok api)]; cbn [fst In];
    intros H;
    repeat match goal with H : _ \/ _ |- _ => destruct H as [H|H] end;
    try discriminate; try contradiction;
    injection H as H1 H2 H3; subst id range v.
  - split; [auto|]. split; [|discriminate].
    exists [GetClient; SpreadsheetsGet (SHEET_ID env)]. split; reflexivity.
  - split; [auto|]. split; [|reflexivity].
    exists [GetClient; SpreadsheetsGet (SHEET_ID env);
            AddSheet (SHEET_ID env) (SHEET_TAB env)].
    split; reflexivity.
Qed.

(** X26 at [sample_env] and [sample_api]: the tab has the default name
    and is missing, so it is added first. *)
Lemma writeToGoogleSheet_updates_last_from_A1_witness :
  In (ValuesUpdate (js "abc123") (js "FIIs_Fundamentus!A1") [[js "Papel"]])
     (fst (writeToGoogleSheet (fun _ => true) sample_env sample_api
             [[js "Papel"]]))
  /\ exists tr,
       fst (writeToGoogleSheet (fun _ => true) sample_env sample_api
              [[js "Papel"]])
       = tr ++ [ValuesUpdate (js "abc123") (js "FIIs_Fundamentus!A1")
                  [[js "Papel"]]]
       /\ existsb is_update tr = false.
Proof.
  assert (H : In (ValuesUpdate (js "abc123") (js "FIIs_Fundamentus!A1")
                    [[js "Papel"]])
                 (fst (writeToGoogleSheet (fun _ => true) sample_env
                         sample_api [[js "Papel"]]))).
  { vm_compute. do 3 right. left. reflexivity. }
  split; [exact H|].
  destruct (writeToGoogleSheet_updates_last_from_A1 _ _ _ _ _ _ _ H)
    as (_ & Htr & _).
  exact Htr.
Defined.

(** ** The button loop *)

(** X27: the button loop clicks nothing but a button that [page.$] has
    found: when it clicks for a label, this label is in the list, has a
    button, and no label before it in the list has one. *)
Theorem click_first_button_clicks_only_the_first_found
    (w : world) (labels : list jsstring) (l : jsstring) :
  In (Click l) (fst (click_first_button w labels)) ->
  exists before after,
    labels = before ++ l :: after
    /\ (forall x, In x before -> query_button w x <> Button)
    /\ query_button w l = Button.
Proof.
  induction labels as [|t labels IH]; [intros []|].
  cbn [click_first_button].
  destruct (query_button w t) eqn:E.
  - rewrite try_button_without by congruence. cbn [bind].
    destruct (click_first_button w labels) as [tr o]. cbn [fst app In] in *.
    intros [H|H]; [discriminate|].
    destruct (IH H) as (before & after & -> & Hb & Hl).
    exists (t :: before), after. repeat split; [|exact Hl].
    intros x [<-|Hx]; [congruence | apply Hb, Hx].
  - rewrite try_button_without by congruence. cbn [bind].
    destruct (click_first_button w labels) as [tr o]. cbn [fst app In] in *.
    intros [H|H]; [discriminate|].
    destruct (IH H) as (before & after & -> & Hb & Hl).
    exists (t :: before), after. repeat split; [|exact Hl].
    intros x [<-|Hx]; [congruence | apply Hb, Hx].
  - rewrite try_button_with by exact E. cbn [bind ret fst app In].
    intros [H|[H|[H|[]]]]; try discriminate.
    injection H as <-. exists [], labels. repeat split; [|exact E].
    intros x [].
Qed.

(** X27 at [third_button_world]: the click is for the third label. *)
Lemma click_first_button_clicks_only_the_first_found_witness :
  In (Click (js "Buscar")) (fst (click_first_button third_button_world buttonTexts))
  /\ exists before after,
       buttonTexts = before ++ js "Buscar" :: after
       /\ (forall x, In x before -> query_button third_button_world x <> Button)
       /\ query_button third_button_world (js "Buscar") = Button.
Proof.
  assert (H : In (Click (js "Buscar"))
                 (fst (click_first_button third_button_world buttonTexts))).
  { vm_compute. do 3 right. left. reflexivity. }
  split; [exact H|].
  exact (click_first_button_clicks_only_the_first_found _ _ _ H).
Defined.
